(** * smart-social-distancing: the per-frame analytics core

    A shallow embedding of [libs/distancing.py] (class [Distancing]) and of
    [api/processor_api.py] (the control channel to the core, the camera
    sections of the configuration, the calibration file), with the
    properties the specification states about them and further properties
    that the code has.

    Numbers.  The Python code computes on floats.  Every function below is
    written once, over an abstract number type [F] with the operations the
    code uses (class [Number]); it is instantiated

    - at the real numbers [R], the idealised reading in which the
      specification's formulas are meant, and where the general theorems are
      proved;
    - at IEEE binary64 ([PrimFloat.float]), the numbers Python has, where
      the specification's examples are re-run by computation.

    What depends on the rounding of a result (the cast to [np.float32]) is
    stated for every number system, and what depends on the order that
    [np.argsort] gives to equal keys is stated for every ascending order
    ([Argsort]).

    A division whose divisor is zero has no real number as result (Python
    raises [ZeroDivisionError] on its floats, numpy yields inf or nan):
    [pydiv] returns [None] there, and the functions of the distance
    estimator, which divide by a measured quantity, return an [option].

    The file has the embedding first (numbers, data model, [Distancing],
    [Argsort], [Orchestrator], [ProcessorAPI], [Endpoints], [QueueSetup], the strings
    and dictionaries of Python in [Py] and [Dict], [Config],
    [Calibration], and the steps of one frame in [Frame] and [Tracked]),
    then the vocabulary in which the properties are stated, then the
    lemmas and the theorems. *)

From Stdlib Require Import String Ascii DecimalString DecimalNat.
From Stdlib Require Import List Bool Arith ZArith Lia.
From Stdlib Require Import Permutation Sorting.Sorted.
From Stdlib Require Import Reals Lra.
From Stdlib Require Import Floats.
Import ListNotations.

Set Implicit Arguments.

(* ================================================================= *)
(** * Numbers *)

Class Number (F : Type) : Type := {
  of_int : Z -> F;              (* an int literal, or an int used as float *)
  quarter : F;                  (* the literal 0.25 *)
  add : F -> F -> F;
  sub : F -> F -> F;
  mul : F -> F -> F;
  div : F -> F -> F;            (* true division, divisor known non-zero *)
  sqrt : F -> F;                (* math.sqrt *)
  ltb : F -> F -> bool;         (* a < b *)
  is_zero : F -> bool;          (* b == 0, when [/] has no result *)
  maximum : F -> F -> F;        (* np.maximum *)
  minimum : F -> F -> F;        (* np.minimum *)
  sort_ltb : F -> F -> bool;    (* the order np.argsort sorts by *)
  trunc : F -> F;               (* int(x): truncation toward zero *)
  float32 : F -> F              (* the rounding of np.float32 *)
}.

Declare Scope num_scope.
Delimit Scope num_scope with num.
Infix "+" := add : num_scope.
Infix "-" := sub : num_scope.
Infix "*" := mul : num_scope.
Infix "/" := div : num_scope.
Infix "<?" := ltb : num_scope.
Notation "a >? b" := (ltb b a) : num_scope.

(** Python's [a / b] on scalars. *)
Definition pydiv {F} `{Number F} (a b : F) : option F :=
  if is_zero b then None else Some (a / b)%num.

(** Python's [x ** 2]. *)
Definition square {F} `{Number F} (x : F) : F := (x * x)%num.

(** Python's builtin [min] on two arguments: the first one unless the
    second is smaller. *)
Definition pymin {F} `{Number F} (a b : F) : F := if (b <? a)%num then b else a.

(** ** The real numbers *)

Definition Rltb (a b : R) : bool := if Rlt_dec a b then true else false.
Definition Req_zero (a : R) : bool := if Req_dec_T a 0 then true else false.
Definition Rtrunc (x : R) : R :=
  if Rle_dec 0 x then IZR (Zfloor x) else IZR (Zceil x).

(** In the real numbers nothing is rounded: [float32] is the identity.
    What the cast to [np.float32] does to a result is stated for every
    number system and evaluated in binary64. *)
#[export] Instance R_number : Number R := {|
  of_int := IZR;
  quarter := 0.25%R;
  add := Rplus;
  sub := Rminus;
  mul := Rmult;
  div := Rdiv;
  sqrt := R_sqrt.sqrt;
  ltb := Rltb;
  is_zero := Req_zero;
  maximum := Rmax;
  minimum := Rmin;
  sort_ltb := Rltb;
  trunc := Rtrunc;
  float32 := fun x => x
|}.

(** ** IEEE binary64 *)

Module Binary64.
Local Open Scope float_scope.

Definition of_Z (z : Z) : float :=
  match z with
  | Z0 => 0
  | Zpos _ => PrimFloat.of_uint63 (Uint63.of_Z z)
  | Zneg p => - PrimFloat.of_uint63 (Uint63.of_Z (Zpos p))
  end.

(** np.maximum and np.minimum propagate nan. *)
Definition np_maximum (a b : float) : float :=
  if PrimFloat.is_nan a then a
  else if PrimFloat.is_nan b then b
  else if a <? b then b else a.
Definition np_minimum (a b : float) : float :=
  if PrimFloat.is_nan a then a
  else if PrimFloat.is_nan b then b
  else if b <? a then b else a.

(** numpy sorts nan last. *)
Definition np_sort_ltb (a b : float) : bool :=
  (a <? b) || (PrimFloat.is_nan b && negb (PrimFloat.is_nan a)).

(** [int(x)] for a finite x: every binary64 of magnitude 2^52 or more is
    an integer; below, adding and subtracting 2^52 rounds to an integer,
    which is stepped back when the rounding went away from zero. *)
Definition two52 : float := 4503599627370496.
Definition trunc_abs (a : float) : float :=
  if two52 <=? a then a
  else let r := (a + two52) - two52 in if a <? r then r - 1 else r.
Definition truncate (x : float) : float :=
  if x <? 0 then - trunc_abs (- x) else trunc_abs x.

(** A binary64 rounded to binary32 (precision 24, exponents up to 128). *)
Definition to_float32 (x : float) : float :=
  match Prim2SF x with
  | S754_finite s m e =>
      SF2Prim (binary_normalize 24 128 (cond_Zopp s (Zpos m)) e s)
  | _ => x
  end.

Definition number : Number float :=
  Build_Number of_Z 0.25 PrimFloat.add PrimFloat.sub PrimFloat.mul
    PrimFloat.div PrimFloat.sqrt PrimFloat.ltb (fun b => b =? 0)
    np_maximum np_minimum np_sort_ltb truncate to_float32.
End Binary64.

Module Binary64Order.
Local Open Scope Z_scope.

(** The place of a binary64 in the order numpy sorts by: negative numbers,
    zeros, positive numbers, nan last; and the order of the places. *)
Definition rank (f : spec_float) : Z * Z * Z :=
  match f with
  | S754_nan => (3, 0, 0)
  | S754_infinity true => (-2, 0, 0)
  | S754_infinity false => (2, 0, 0)
  | S754_zero _ => (0, 0, 0)
  | S754_finite true m e => (-1, - e, - Zpos m)
  | S754_finite false m e => (1, e, Zpos m)
  end.

Definition lexlt (x y : Z * Z * Z) : Prop :=
  fst (fst x) < fst (fst y) \/
  (fst (fst x) = fst (fst y) /\
   (snd (fst x) < snd (fst y) \/
    (snd (fst x) = snd (fst y) /\ snd x < snd y))).

(** [np_sort_ltb] on the specification of binary64. *)
Definition spec_sort_ltb (a b : spec_float) : bool :=
  SFltb a b || (negb (SFeqb b b) && negb (negb (SFeqb a a))).
End Binary64Order.

(* ================================================================= *)
(** * Data model *)

(** A Python list of four numbers: a box [[x0, y0, x1, y1]] or a centroid
    [[cx, cy, w, h]]; [at0 .. at3] are the subscripts [[0] .. [3]]. *)
Record Quad (F : Type) : Type := quad { at0 : F; at1 : F; at2 : F; at3 : F }.

(** The dictionary of one detected object, with the keys [__process]
    gives it. *)
Record Detection (F : Type) : Type := {
  id : string;
  bbox : Quad F;
  centroid : Quad F;
  bboxReal : Quad F;
  centroidReal : Quad F
}.

(** [enumerate(l)], [i in l] on a list of ints, and [l[i]]. *)
Definition enumerate {A} (l : list A) : list (nat * A) :=
  combine (seq 0 (length l)) l.
Definition py_in (i : nat) (l : list nat) : bool := existsb (Nat.eqb i) l.

(** The three values of the configuration key [DistMethod]. *)
Inductive DistMethod : Type :=
| CalibratedDistance
| CenterPointsDistance
| FourCornerPointsDistance.

Definition DistMethod_eq_dec (a b : DistMethod) : {a = b} + {a <> b}.
Proof. decide equality. Defined.

Module Distancing.
Section WithNumber.
Context {F : Type} {num : Number F}.
Local Open Scope num_scope.

(** ** [__process], lines 59-70: the derived fields of a raw detection.
    The detector's box is [[y0, x0, y1, x1]]; [w], [h] are the output
    resolution. *)
Definition derive_fields (w h : Z) (name : string) (box : Quad F) : Detection F :=
  let x0 := at1 box in
  let y0 := at0 box in
  let x1 := at3 box in
  let y1 := at2 box in
  let w := of_int w in
  let h := of_int h in
  {| id := name;
     centroid := quad ((x0 + x1) / of_int 2) ((y0 + y1) / of_int 2) (x1 - x0) (y1 - y0);
     bbox := quad x0 y0 x1 y1;
     centroidReal := quad ((x0 + x1) * w / of_int 2) ((y0 + y1) * h / of_int 2)
                          ((x1 - x0) * w) ((y1 - y0) * h);
     bboxReal := quad (x0 * w) (y0 * h) (x1 * w) (y1 * h) |}.

(** ** [ignore_large_boxes] *)
Definition ignore_large_boxes (object_list : list (Detection F)) : list (Detection F) :=
  let large_boxes :=
    fold_left
      (fun large_boxes i =>
         match nth_error object_list i with
         | Some o =>
             if (at2 (centroid o) * at3 (centroid o)) >? quarter
             then large_boxes ++ [i]
             else large_boxes
         | None => large_boxes   (* not reached: i < len(object_list) *)
         end)
      (seq 0 (length object_list)) [] in
  map snd (filter (fun ij => negb (py_in (fst ij) large_boxes))
                  (enumerate object_list)).

(** ** [non_max_suppression_fast] *)

(** np.argsort, as a stable insertion sort: the indices in ascending order
    of their keys, equal keys in index order.  With keys that are pairwise
    different this is the only ascending order.  With equal keys it is one
    of the orders that [np.argsort] may give: its default kind is not
    stable, and what depends on the order of equal keys is stated in
    [Argsort] below, for every ascending order. *)
Section StableSort.
Context {A : Type} (key : A -> F).

Fixpoint insert (x : A) (sorted : list A) : list A :=
  match sorted with
  | [] => [x]
  | y :: rest =>
      if sort_ltb (key y) (key x) then y :: insert x rest else x :: sorted
  end.

Fixpoint stable_sort (l : list A) : list A :=
  match l with
  | [] => []
  | x :: l' => insert x (stable_sort l')
  end.
End StableSort.

Definition argsort (keys : list F) : list nat :=
  map fst (stable_sort snd (enumerate keys)).

(** [np.where(mask)[0]] and [np.delete(arr, positions)]. *)
Definition np_where (mask : list bool) : list nat :=
  map fst (filter snd (enumerate mask)).
Definition np_delete (arr : list nat) (positions : list nat) : list nat :=
  map snd (filter (fun pv => negb (py_in (fst pv) positions)) (enumerate arr)).

(** [a[i]] on a float array. *)
Definition item (a : list F) (i : nat) : F := nth i a (of_int 0).

(** Elementwise arithmetic on two arrays of one length. *)
Definition zip_with (f : F -> F -> F) (a b : list F) : list F :=
  map (fun p => f (fst p) (snd p)) (combine a b).

Section Loop.
Variables (x1 y1 x2 y2 area : list F) (overlapThresh : F).

(** Lines 327-335 at one element [j] of [idxs[:last]].  The division is
    numpy's, which never raises; the properties of the suppression hold
    whatever it yields. *)
Definition overlap_of (i j : nat) : F :=
  let xx1 := maximum (item x1 i) (item x1 j) in
  let yy1 := maximum (item y1 i) (item y1 j) in
  let xx2 := minimum (item x2 i) (item x2 j) in
  let yy2 := minimum (item y2 i) (item y2 j) in
  let w := maximum (of_int 0) (xx2 - xx1 + of_int 1) in
  let h := maximum (of_int 0) (yy2 - yy1 + of_int 1) in
  (w * h) / item area j.

(** The [while len(idxs) > 0] loop, run for at most [fuel] rounds:
    [None] when the loop would still go on. *)
Fixpoint nms_loop (fuel : nat) (idxs pick : list nat) : option (list nat) :=
  if (0 <? length idxs)%nat then
    match fuel with
    | O => None
    | S fuel =>
        let last := (length idxs - 1)%nat in
        let i := nth last idxs 0%nat in
        let pick := pick ++ [i] in
        let overlap := map (overlap_of i) (firstn last idxs) in
        let idxs :=
          np_delete idxs
            ([last] ++ np_where (map (fun o => o >? overlapThresh) overlap)) in
        nms_loop fuel idxs pick
    end
  else Some pick.
End Loop.

Definition non_max_suppression_fast
    (object_list : list (Detection F)) (overlapThresh : F)
  : option (list (Detection F)) :=
  let boxes := map (@centroid F) object_list in
  let corners := map (@bbox F) object_list in
  if (length boxes =? 0)%nat then Some [] else
  let cy := map (@at1 F) boxes in
  let cx := map (@at0 F) boxes in
  let h := map (@at3 F) boxes in
  let w := map (@at2 F) boxes in
  let x1 := map (@at0 F) corners in
  let x2 := map (@at2 F) corners in
  let y1 := map (@at1 F) corners in
  let y2 := map (@at3 F) corners in
  let area := zip_with mul (map (fun v => v + of_int 1) h)
                           (map (fun v => v + of_int 1) w) in
  let idxs := argsort (zip_with add cy (map (fun v => v / of_int 2) h)) in
  match nms_loop x1 y1 x2 y2 area overlapThresh (length idxs) idxs [] with
  | Some pick =>
      Some (map snd (filter (fun ij => py_in (fst ij) pick)
                            (enumerate object_list)))
  | None => None
  end.

(** ** [calculate_distance_of_two_points_of_boxes] *)

Notation "x <- c ;; k" :=
  (match c with Some x => k | None => None end)
    (at level 61, c at next level, right associativity, only parsing).

Definition calculate_distance_of_two_points_of_boxes
    (first_point second_point : F * F * F) : option F :=
  let '(xc1, yc1, h1) := first_point in
  let '(xc2, yc2, h2) := second_point in
  let dx := xc2 - xc1 in
  let dy := yc2 - yc1 in
  r1 <- pydiv (of_int 1) h1 ;;
  r2 <- pydiv (of_int 1) h2 ;;
  let lx := dx * of_int 170 * (r1 + r2) / of_int 2 in
  let ly := dy * of_int 170 * (r1 + r2) / of_int 2 in
  let l := sqrt (square lx + square ly) in
  Some l.

(** ** [transform_to_world_coordinate] *)

(** A 3x3 array, by rows, and [np.matmul] of it with a vector. *)
Definition Vec3 : Type := F * F * F.
Definition Mat3 : Type := Vec3 * Vec3 * Vec3.
Definition dot (r v : Vec3) : F :=
  let '(a, b, c) := r in
  let '(x, y, z) := v in
  a * x + b * y + c * z.
Definition matmul (m : Mat3) (v : Vec3) : Vec3 :=
  let '(r0, r1, r2) := m in (dot r0 v, dot r1 v, dot r2 v).

(** Lines 460-462.  [None] where the homogeneous coordinate is zero:
    numpy's division of arrays does not raise there, it gives inf or nan,
    which the real numbers do not have.  What is stated of the calibrated
    method is stated for homogeneous coordinates that are not zero. *)
Definition transform_to_world_coordinate (h_inv : Mat3) (bbox : Detection F)
  : option (F * F) :=
  let floor_point :=
    (trunc ((at0 (bboxReal bbox) + at2 (bboxReal bbox)) / of_int 2),
     at3 (bboxReal bbox),
     of_int 1) in
  let floor_world_point := matmul h_inv floor_point in
  let '(X, Y, last) := floor_world_point in
  x <- pydiv X last ;;
  y <- pydiv Y last ;;
  Some (x, y).

(** ** [calculate_box_distances] *)

(** scipy's [cdist] with its default metric, the Euclidean distance. *)
Definition euclidean (u v : F * F) : F :=
  sqrt (square (fst u - fst v) + square (snd u - snd v)).
Definition cdist (XA XB : list (F * F)) : list (list F) :=
  map (fun u => map (euclidean u) XB) XA.

(** A list built by a [for] loop whose body may fail. *)
Fixpoint for_each {A B} (f : A -> option B) (l : list A) : option (list B) :=
  match l with
  | [] => Some []
  | a :: l' => b <- f a ;; bs <- for_each f l' ;; Some (b :: bs)
  end.

(** Python's [min(l1, l2, l3, l4)]. *)
Definition pymin4 (l1 l2 l3 l4 : F) : F := pymin (pymin (pymin l1 l2) l3) l4.

Definition subscript (nn_out : list (Detection F)) (i : nat) : option (Detection F) :=
  nth_error nn_out i.

(** One entry of the matrix, lines 403-442. *)
Definition box_distance (dist_method : DistMethod) (nn_out : list (Detection F))
    (i j : nat) : option F :=
  if (i =? j)%nat then Some (of_int 0)
  else
    oi <- subscript nn_out i ;;
    oj <- subscript nn_out j ;;
    match dist_method with
    | FourCornerPointsDistance =>
        let lower_left_of_first_box :=
          (at0 (bboxReal oi), at1 (bboxReal oi), at3 (centroidReal oi)) in
        let lower_right_of_first_box :=
          (at2 (bboxReal oi), at1 (bboxReal oi), at3 (centroidReal oi)) in
        let upper_left_of_first_box :=
          (at0 (bboxReal oi), at3 (bboxReal oi), at3 (centroidReal oi)) in
        let upper_right_of_first_box :=
          (at2 (bboxReal oi), at3 (bboxReal oi), at3 (centroidReal oi)) in
        let lower_left_of_second_box :=
          (at0 (bboxReal oj), at1 (bboxReal oj), at3 (centroidReal oj)) in
        let lower_right_of_second_box :=
          (at2 (bboxReal oj), at1 (bboxReal oj), at3 (centroidReal oj)) in
        let upper_left_of_second_box :=
          (at0 (bboxReal oj), at3 (bboxReal oj), at3 (centroidReal oj)) in
        let upper_right_of_second_box :=
          (at2 (bboxReal oj), at3 (bboxReal oj), at3 (centroidReal oj)) in
        l1 <- calculate_distance_of_two_points_of_boxes
                lower_left_of_first_box lower_left_of_second_box ;;
        l2 <- calculate_distance_of_two_points_of_boxes
                lower_right_of_first_box lower_right_of_second_box ;;
        l3 <- calculate_distance_of_two_points_of_boxes
                upper_left_of_first_box upper_left_of_second_box ;;
        l4 <- calculate_distance_of_two_points_of_boxes
                upper_right_of_first_box upper_right_of_second_box ;;
        Some (pymin4 l1 l2 l3 l4)
    | CenterPointsDistance =>
        let center_of_first_box :=
          (at0 (centroidReal oi), at1 (centroidReal oi), at3 (centroidReal oi)) in
        let center_of_second_box :=
          (at0 (centroidReal oj), at1 (centroidReal oj), at3 (centroidReal oj)) in
        calculate_distance_of_two_points_of_boxes
          center_of_first_box center_of_second_box
    | CalibratedDistance => None   (* not reached: see the caller *)
    end.

Definition calculate_box_distances (dist_method : DistMethod) (h_inv : Mat3)
    (nn_out : list (Detection F)) : option (list (list F)) :=
  match dist_method with
  | CalibratedDistance =>
      world_coordinate_points <-
        for_each (transform_to_world_coordinate h_inv) nn_out ;;
      if (length world_coordinate_points =? 0)%nat then Some []
      else Some (cdist world_coordinate_points world_coordinate_points)
  | _ =>
      distances <-
        for_each
          (fun i =>
             for_each (fun j => box_distance dist_method nn_out i j)
                      (seq 0 (length nn_out)))
          (seq 0 (length nn_out)) ;;
      Some (map (map float32) distances)
  end.

End WithNumber.
End Distancing.

(* ================================================================= *)
(** * [non_max_suppression_fast] for every order that [np.argsort] may give *)

(** Line 322 calls [np.argsort] with its default kind, which sorts the
    keys in ascending order and leaves the order of equal keys open (it
    differs between versions of numpy and between lengths of the array).
    Here the function takes the result of that call as an argument:
    [ascending] says what numpy promises of it. *)
Module Argsort.
Section WithNumber.
Context {F : Type} {num : Number F}.
Local Open Scope num_scope.
Local Open Scope list_scope.

(** The indices of the array, each once, in an order in which no key is
    followed by a smaller one. *)
Definition ascending (keys : list F) (idxs : list nat) : Prop :=
  Permutation idxs (seq 0 (length keys)) /\
  StronglySorted
    (fun i j => sort_ltb (Distancing.item keys j) (Distancing.item keys i) = false)
    idxs.

(** No two keys are equal for the sort: of two of them, one sorts before
    the other. *)
Definition without_ties (keys : list F) : Prop :=
  ForallOrdPairs (fun a b => sort_ltb a b = true \/ sort_ltb b a = true) keys.

(** The array that is sorted, [cy + (h / 2)]. *)
Definition keys (object_list : list (Detection F)) : list F :=
  let boxes := map (@centroid F) object_list in
  let cy := map (@at1 F) boxes in
  let h := map (@at3 F) boxes in
  Distancing.zip_with add cy (map (fun v => v / of_int 2) h).

(** Lines 289-340, with [idxs] the result of line 322. *)
Definition non_max_suppression_fast (idxs : list nat)
    (object_list : list (Detection F)) (overlapThresh : F)
  : option (list (Detection F)) :=
  let boxes := map (@centroid F) object_list in
  let corners := map (@bbox F) object_list in
  if (length boxes =? 0)%nat then Some [] else
  let cy := map (@at1 F) boxes in
  let cx := map (@at0 F) boxes in
  let h := map (@at3 F) boxes in
  let w := map (@at2 F) boxes in
  let x1 := map (@at0 F) corners in
  let x2 := map (@at2 F) corners in
  let y1 := map (@at1 F) corners in
  let y2 := map (@at3 F) corners in
  let area := Distancing.zip_with mul (map (fun v => v + of_int 1) h)
                                      (map (fun v => v + of_int 1) w) in
  match Distancing.nms_loop x1 y1 x2 y2 area overlapThresh (length idxs) idxs [] with
  | Some pick =>
      Some (map snd (filter (fun ij => py_in (fst ij) pick)
                            (enumerate object_list)))
  | None => None
  end.
End WithNumber.
End Argsort.

(* ================================================================= *)
(** * [Distancing.process_video]: the life cycle of one start *)

(** What [process_video] does to the outside world and to [self] is
    recorded as a trace of events; the detector, the capture, the writers
    and the controlling thread are the [World] it runs in. *)
Module Orchestrator.
Local Open Scope string_scope.
Local Open Scope list_scope.

Inductive Event : Type :=
| NewDetector (device : string)        (* Detector(self.config) *)
| Print (what : string)
| NewVideoCapture (video_uri : string) (* cv.VideoCapture(video_uri) *)
| LogInfo (msg : string)
| LogError (msg : string)
| SetRunning (flag : bool)             (* self.running_video = flag *)
| NewWriter (feed : string)            (* self.gstreamer_writer(feed, ..) *)
| Read                                 (* input_cap.read() *)
| Process                              (* self.__process and the drawing *)
| Write (feed : string)                (* out.write, out_birdseye.write *)
| LoggerUpdate                         (* self.logger.update *)
| Release.                             (* the release() calls, del self.detector *)

Inductive Outcome : Type :=
| Returned
| Raised (exn : string)
| StillLooping.     (* the loop goes on beyond the readings of the world *)

Record Self : Type := {
  device : string;
  detector : option string;
  running_video : bool
}.

(** One round of the loop as the world decides it: whether [read] gives an
    image, whether [stop_process_video] is called during the round, and
    whether the capture is still open after it. *)
Record Reading : Type := {
  has_image : bool;
  stop_called : bool;
  still_open : bool
}.

Record World : Type := {
  detector_builds : string -> bool;
  capture_opens : string -> bool;
  writer_opens : string -> bool;
  readings : list Reading
}.

Definition set_detector (self : Self) (d : option string) : Self :=
  {| device := device self; detector := d; running_video := running_video self |}.
Definition set_running (self : Self) (flag : bool) : Self :=
  {| device := device self; detector := detector self; running_video := flag |}.

(** [stop_process_video], line 234. *)
Definition stop_process_video (self : Self) : Self := set_running self false.

(** Lines 167-227: [while input_cap.isOpened() and self.running_video]. *)
Fixpoint frame_loop (video_uri : string) (self : Self) (is_opened : bool)
    (frame_num : nat) (rounds : list Reading) : bool * Self * list Event :=
  if is_opened && running_video self then
    match rounds with
    | [] => (false, self, [])
    | r :: rounds' =>
        let self' := if stop_called r then stop_process_video self else self in
        if has_image r then
          let frame_num := S frame_num in
          let progress :=
            if (frame_num mod 10 =? 1)%nat then [LogInfo (String.append "processed frame for " video_uri)]
            else [] in
          let '(done, self'', trace) :=
            frame_loop video_uri self' (still_open r) frame_num rounds' in
          (done, self'',
           [Read; Process; Write "default"; Write "default-birdseye"]
             ++ progress ++ [LoggerUpdate] ++ trace)
        else
          let '(done, self'', trace) :=
            frame_loop video_uri self' (still_open r) frame_num rounds' in
          (done, self'', Read :: trace)
    end
  else (true, self, []).

Definition supported (device : string) : bool :=
  (device =? "Jetson") || (device =? "EdgeTPU") || (device =? "Dummy") || (device =? "x86").

Definition process_video (w : World) (self : Self) (video_uri : string)
  : Outcome * Self * list Event :=
  (* lines 125-136 *)
  if supported (device self) && negb (detector_builds w (device self))
  then (Raised "Detector", self, [])
  else
  let '(self, t1) :=
    if supported (device self)
    then (set_detector self (Some (device self)), [NewDetector (device self)])
    else (self, []) in
  (* lines 138-141 *)
  if negb (device self =? "Dummy") && match detector self with None => true | Some _ => false end
  then (Raised "AttributeError", self, t1 ++ [Print "Device is: "])
  else
  let t2 :=
    if negb (device self =? "Dummy")
    then [Print "Device is: "; Print "Detector is: "; Print "image size: "]
    else [] in
  (* lines 143-150 *)
  let t3 := [NewVideoCapture video_uri] in
  if negb (capture_opens w video_uri)
  then (Returned, self, t1 ++ t2 ++ t3 ++ [LogError (String.append "failed to load video " video_uri)])
  else
  let t4 := [LogInfo (String.append "opened video " video_uri)] in
  (* line 152 *)
  let self := set_running self true in
  let t5 := [SetRunning true] in
  (* lines 156-162 *)
  if negb (writer_opens w "default")
  then (Raised "RuntimeError", self, t1 ++ t2 ++ t3 ++ t4 ++ t5 ++ [NewWriter "default"])
  else if negb (writer_opens w "default-birdseye")
  then (Raised "RuntimeError", self,
        t1 ++ t2 ++ t3 ++ t4 ++ t5 ++ [NewWriter "default"; NewWriter "default-birdseye"])
  else
  let t6 := [NewWriter "default"; NewWriter "default-birdseye"] in
  (* lines 166-227 *)
  let '(done, self, t7) := frame_loop video_uri self true 0 (readings w) in
  if done then
    (* lines 228-232 *)
    (Returned, set_running (set_detector self None) false,
     t1 ++ t2 ++ t3 ++ t4 ++ t5 ++ t6 ++ t7 ++ [Release; SetRunning false])
  else (StillLooping, self, t1 ++ t2 ++ t3 ++ t4 ++ t5 ++ t6 ++ t7).

(** The per-frame loop was entered: a frame was read. *)
Definition entered_loop (trace : list Event) : bool :=
  existsb (fun e => match e with Read => true | _ => false end) trace.
(** The running flag was raised. *)
Definition entered_running (trace : list Event) : bool :=
  existsb (fun e => match e with SetRunning true => true | _ => false end) trace.
End Orchestrator.

(* ================================================================= *)
(** * [ProcessorAPI.restart_processor]: the control channel *)

Module ProcessorAPI.
Local Open Scope string_scope.
Local Open Scope list_scope.

Inductive Commands : Type := PROCESS_VIDEO_CFG | STOP_PROCESS_VIDEO.

(** The two queues as the API process sees them: the commands it has put
    (oldest first), the results the core delivers (next first), and the
    lines it has logged. *)
Record Queues : Type := {
  cmd_queue : list Commands;
  result_queue : list bool;
  log : list string
}.

(** A step of the API process; [None] when [get()] waits for a result that
    never comes. *)
Definition Api (A : Type) : Type := Queues -> option (A * Queues).

Definition ret {A} (a : A) : Api A := fun q => Some (a, q).
Definition bind {A B} (m : Api A) (k : A -> Api B) : Api B :=
  fun q => match m q with Some (a, q') => k a q' | None => None end.
Notation "x <- m ;; k" := (bind m (fun x => k))
  (at level 61, m at next level, right associativity).
Notation "m ;; k" := (bind m (fun _ => k))
  (at level 61, right associativity).

Definition put (c : Commands) : Api unit :=
  fun q => Some (tt, {| cmd_queue := cmd_queue q ++ [c];
                        result_queue := result_queue q;
                        log := log q |}).
Definition get : Api bool :=
  fun q => match result_queue q with
           | [] => None
           | r :: rest => Some (r, {| cmd_queue := cmd_queue q;
                                      result_queue := rest;
                                      log := log q |})
           end.
Definition logger_info (msg : string) : Api unit :=
  fun q => Some (tt, {| cmd_queue := cmd_queue q;
                        result_queue := result_queue q;
                        log := log q ++ [msg] |}).

(** Lines 173-183. *)
Definition restart_processor : Api bool :=
  logger_info "Restarting video processor..." ;;
  put STOP_PROCESS_VIDEO ;;
  stopped <- get ;;
  if (stopped : bool) then
    put PROCESS_VIDEO_CFG ;;
    started <- get ;;
    if negb started then
      logger_info "Failed to restart video processor..." ;;
      ret false
    else ret true
  else ret true.

(** Lines 223-233 and 271-281: the status the endpoint answers with. *)
Definition restart_status : Api nat :=
  success <- restart_processor ;;
  if negb success then ret 400 else ret 200.

Definition issued (c : Commands) (q : Queues) : bool :=
  existsb (fun c' => match c, c' with
                     | PROCESS_VIDEO_CFG, PROCESS_VIDEO_CFG => true
                     | STOP_PROCESS_VIDEO, STOP_PROCESS_VIDEO => true
                     | _, _ => false
                     end) (cmd_queue q).
End ProcessorAPI.

(* ================================================================= *)
(** * The endpoints that talk to the core *)

(** The endpoints are [async def] functions without an [await]: each runs
    to its end before the next request is served. *)
Module Endpoints.
Import ProcessorAPI.
Local Open Scope string_scope.
Local Open Scope list_scope.

(** Lines 193-199. *)
Definition process_video_cfg : Api bool :=
  logger_info "process-video-cfg requests on api" ;;
  put PROCESS_VIDEO_CFG ;;
  logger_info "waiting for core's response..." ;;
  result <- get ;;
  ret result.

(** Lines 201-207. *)
Definition stop_process_video : Api bool :=
  logger_info "stop-process-video requests on api" ;;
  put STOP_PROCESS_VIDEO ;;
  logger_info "waiting for core's response..." ;;
  result <- get ;;
  ret result.

(** The requests that reach the core, and what each answers with: the
    core's result, or whether the restart went well. *)
Inductive Request : Type :=
| GetProcessVideoCfg      (* GET /process-video-cfg *)
| GetStopProcessVideo     (* GET /stop-process-video *)
| PutConfig.              (* PUT /config, POST /{camera_id}/homography_matrix *)

Definition serve (request : Request) : Api bool :=
  match request with
  | GetProcessVideoCfg => process_video_cfg
  | GetStopProcessVideo => stop_process_video
  | PutConfig => restart_processor
  end.

Fixpoint serve_all (requests : list Request) : Api (list bool) :=
  match requests with
  | [] => ret []
  | request :: requests' =>
      answer <- serve request ;;
      answers <- serve_all requests' ;;
      ret (answer :: answers)
  end.
End Endpoints.

(* ================================================================= *)
(** * [ProcessorAPI._setup_queues]: waiting for the core *)

Module QueueSetup.
Local Open Scope string_scope.
Local Open Scope list_scope.

(** What [self._queue_manager.connect()] does at one attempt. *)
Inductive Attempt : Type :=
| Accepted
| Refused                  (* ConnectionRefusedError *)
| Failed (exn : string).   (* any other exception *)

Inductive Event : Type :=
| Connect
| Warning (msg : string)
| Sleep (seconds : nat)
| Info (msg : string)
| GetCmdQueue
| GetResultQueue.

Inductive Outcome : Type :=
| Connected
| Raised (exn : string)
| StillWaiting.    (* the loop goes on beyond the attempts of the world *)

(** Lines 58-64: [while True]. *)
Fixpoint connect_loop (attempts : list Attempt) : Outcome * list Event :=
  match attempts with
  | [] => (StillWaiting, [])
  | Accepted :: _ => (Connected, [Connect])
  | Failed exn :: _ => (Raised exn, [Connect])
  | Refused :: attempts' =>
      let '(outcome, trace) := connect_loop attempts' in
      (outcome,
       [Connect; Warning "Waiting for core's queue to initiate ... "; Sleep 1] ++ trace)
  end.

(** Lines 58-68. *)
Definition setup_queues (attempts : list Attempt) : Outcome * list Event :=
  let '(outcome, trace) := connect_loop attempts in
  match outcome with
  | Connected =>
      (Connected,
       trace ++ [Info "Connection established to Core's queue";
                 GetCmdQueue; GetResultQueue])
  | _ => (outcome, trace)
  end.

(** The seconds slept, and the attempts made. *)
Definition slept (trace : list Event) : nat :=
  fold_right (fun e total => match e with Sleep seconds => seconds + total | _ => total end)
             0%nat trace.
Definition attempts_made (trace : list Event) : nat :=
  length (filter (fun e => match e with Connect => true | _ => false end) trace).
Definition queues_fetched (trace : list Event) : bool :=
  existsb (fun e => match e with GetCmdQueue => true | _ => false end) trace
  && existsb (fun e => match e with GetResultQueue => true | _ => false end) trace.
End QueueSetup.

(* ================================================================= *)
(** * Python strings *)

Module Py.
Local Open Scope string_scope.
Local Open Scope list_scope.

(** [str(i)] of an [int] that is not negative. *)
Definition str (i : nat) : string := NilEmpty.string_of_uint (Nat.to_uint i).

(** [s.split(sep)] for a separator of one character: the pieces between
    the separators, empty pieces included. *)
Fixpoint split (sep : ascii) (s : string) : list string :=
  match s with
  | EmptyString => [EmptyString]
  | String c s' =>
      if Ascii.eqb c sep then EmptyString :: split sep s'
      else match split sep s' with
           | piece :: pieces => String c piece :: pieces
           | [] => [String c EmptyString]   (* not reached: split is never empty *)
           end
  end.

(** [sep.join(l)]. *)
Fixpoint join (sep : string) (l : list string) : string :=
  match l with
  | [] => EmptyString
  | [x] => x
  | x :: l' => x ++ sep ++ join sep l'
  end.

(** [c in s] for a character. *)
Fixpoint contains (c : ascii) (s : string) : bool :=
  match s with
  | EmptyString => false
  | String c' s' => Ascii.eqb c' c || contains c s'
  end.

(** [s.startswith(p)]. *)
Definition startswith (s p : string) : bool := String.prefix p s.

(** The line feed and the carriage return. *)
Definition LF : ascii := Ascii.ascii_of_nat 10.
Definition CR : ascii := Ascii.ascii_of_nat 13.

(** The first line that a file opened in text mode gives, with its end
    (any of the three line ends) read as a line feed. *)
Fixpoint first_line (content : string) : string :=
  match content with
  | EmptyString => EmptyString
  | String c rest =>
      if Ascii.eqb c LF || Ascii.eqb c CR then String LF EmptyString
      else String c (first_line rest)
  end.

(** [file.readlines()[0]]; [None] is the [IndexError] of an empty file. *)
Definition readlines_0 (content : string) : option string :=
  match content with
  | EmptyString => None
  | _ => Some (first_line content)
  end.
End Py.

(* ================================================================= *)
(** * The camera sections of the configuration *)

(** A Python [dict] with string keys, in the order in which its keys were
    inserted. *)
Module Dict.
Local Open Scope list_scope.

Definition t (V : Type) : Type := list (string * V).

Definition has_key {V} (k : string) (kv : string * V) : bool := String.eqb (fst kv) k.

(** [d.get(k)]. *)
Definition get {V} (d : t V) (k : string) : option V :=
  match find (has_key k) d with
  | Some kv => Some (snd kv)
  | None => None
  end.

(** [d[k] = v]: in place when the key is there, at the end when not. *)
Definition set {V} (d : t V) (k : string) (v : V) : t V :=
  if existsb (has_key k) d
  then map (fun kv => if has_key k kv then (k, v) else kv) d
  else d ++ [(k, v)].

(** [d.keys()]. *)
Definition keys {V} (d : t V) : list string := map fst d.
End Dict.

Module Config.
Section WithSettings.
Local Open Scope string_scope.
Local Open Scope list_scope.
(** The values of [notifyEveryMinutes] and [violationThreshold], and
    Python's [str] of them. *)
Variable Setting : Type.
Variable str_setting : Setting -> string.
(** The encoded screenshot of a camera, read from its directory. *)
Variable screenshot : option string -> string.

(** A camera of the [ConfigDTO] that [PUT /config] receives. *)
Record CameraDTO : Type := {
  id : string;
  name : string;
  videoPath : string;
  emails : string;
  tags : string;
  notifyEveryMinutes : Setting;
  violationThreshold : Setting;
  distMethod : string;
  calibrationFile : string
}.

(** The section that [map_to_config_file_format] writes for a camera,
    lines 148-158. *)
Definition section_of (camera : CameraDTO) : Dict.t string :=
  [("Name", name camera);
   ("VideoPath", videoPath camera);
   ("Id", id camera);
   ("Emails", emails camera);
   ("Tags", tags camera);
   ("NotifyEveryMinutes", str_setting (notifyEveryMinutes camera));
   ("ViolationThreshold", str_setting (violationThreshold camera));
   ("DistMethod", distMethod camera);
   ("CalibrationFile", calibrationFile camera)].

(** Lines 144-160. *)
Definition map_to_config_file_format (cameras : list CameraDTO)
  : Dict.t (Dict.t string) :=
  fold_left
    (fun config_dict count_camera =>
       Dict.set config_dict
                ("Source_" ++ Py.str (fst count_camera))
                (section_of (snd count_camera)))
    (enumerate cameras) [].

(** The key and the section of the camera at a position. *)
Definition source_section (count_camera : nat * CameraDTO)
  : string * Dict.t string :=
  (("Source_" ++ Py.str (fst count_camera))%string, section_of (snd count_camera)).

(** What [map_camera] returns, lines 127-135. *)
Record Camera : Type := {
  camera_id : option string;
  camera_name : option string;
  camera_videoPath : option string;
  camera_emails : option string;
  camera_violationThreshold : option string;
  camera_notifyEveryMinutes : option string;
  camera_image : option string
}.

(** Lines 118-135; [with_image] is ["withImage" in options], and [None]
    the [AttributeError] of a section that is not there. *)
Definition map_camera (camera_name : string) (config : Dict.t (Dict.t string))
    (with_image : bool) : option Camera :=
  match Dict.get config camera_name with
  | None => None
  | Some camera =>
      let camera_id := Dict.get camera "Id" in
      let image := if with_image then Some (screenshot camera_id) else None in
      Some {| camera_id := camera_id;
              camera_name := Dict.get camera "Name";
              camera_videoPath := Dict.get camera "VideoPath";
              camera_emails := Dict.get camera "Emails";
              camera_violationThreshold := Dict.get camera "ViolationThreshold";
              camera_notifyEveryMinutes := Dict.get camera "NotifyEveryMinutes";
              camera_image := image |}
  end.

(** What [map_config] returns, lines 138-142. *)
Record Mapped : Type := {
  host : option string;
  port : option string;
  cameras : list Camera
}.

(** Lines 136-142; [None] is the [AttributeError] of a configuration
    without the section [API]. *)
Definition map_config (config : Dict.t (Dict.t string)) (with_image : bool)
  : option Mapped :=
  let cameras_name := filter (fun x => Py.startswith x "Source") (Dict.keys config) in
  match Dict.get config "API" with
  | None => None
  | Some api =>
      match Distancing.for_each (fun x => map_camera x config with_image) cameras_name with
      | None => None
      | Some cameras =>
          Some {| host := Dict.get api "Host";
                  port := Dict.get api "Port";
                  cameras := cameras |}
      end
  end.

(** The camera that [map_config] gives back for a camera of the DTO. *)
Definition mapped_camera (with_image : bool) (camera : CameraDTO) : Camera :=
  {| camera_id := Some (id camera);
     camera_name := Some (name camera);
     camera_videoPath := Some (videoPath camera);
     camera_emails := Some (emails camera);
     camera_violationThreshold := Some (str_setting (violationThreshold camera));
     camera_notifyEveryMinutes := Some (str_setting (notifyEveryMinutes camera));
     camera_image := if with_image then Some (screenshot (Some (id camera))) else None |}.
End WithSettings.
End Config.

(* ================================================================= *)
(** * The calibration file, written by the API and read by the core *)

Module Calibration.
Section WithNumbers.
Local Open Scope string_scope.
Local Open Scope list_scope.
Context {F : Type}.
(** [str] of a numpy float. *)
Variable str_float : F -> string.

(** [.flatten()], by rows. *)
Definition flatten (m : @Distancing.Mat3 F) : list F :=
  let '((a, b, c), (d, e, f), (g, h, i)) := m in [a; b; c; d; e; f; g; h; i].

(** [compute_and_save_inv_homography_matrix], lines 188-191 of
    processor_api.py: what is written for the inverse [h_inv] of the
    homography. *)
Definition written (h_inv : @Distancing.Mat3 F) : string :=
  let h_inv := flatten h_inv in
  let h_inv := Py.join " " (map str_float h_inv) in
  "h_inv: " ++ h_inv.
End WithNumbers.

(** [Distancing.__init__], line 42 of distancing.py: the strings that are
    taken from the content of the file and handed to [np.array];
    [None] is the [IndexError] of an empty file. *)
Definition read (content : string) : option (list string) :=
  match Py.readlines_0 content with
  | None => None
  | Some line => Some (tl (Py.split " " line))
  end.
End Calibration.

(* ================================================================= *)
(** * [Distancing.__process], [calculate_distancing]: one frame *)

Module Frame.
Section WithNumber.
Context {F : Type} {num : Number F}.

(** Lines 61-70 of [__process]: the loop that derives the fields of every
    object of the detector, given here by its id and its raw box. *)
Definition derive_all (w h : Z) (tmp_objects_list : list (string * Quad F))
  : list (Detection F) :=
  map (fun obj => Distancing.derive_fields w h (fst obj) (snd obj)) tmp_objects_list.

(** Lines 256-259 of [calculate_distancing]: what is handed to the
    tracker. *)
Definition filtered (objects_list : list (Detection F)) (NMSThreshold : F)
  : option (list (Detection F)) :=
  let new_objects_list := Distancing.ignore_large_boxes objects_list in
  Distancing.non_max_suppression_fast new_objects_list NMSThreshold.
End WithNumber.
End Frame.

(* ================================================================= *)
(** * [calculate_distancing]: the tracked objects and their ids *)

(** The tracker keeps the dictionaries of the objects it tracks, and the
    list that [calculate_distancing] builds from [tracked_boxes] holds
    these same dictionaries: an assignment to an item of the list is an
    assignment to the tracker's object.  The objects are kept here in a
    heap, by address, and the list is a list of addresses. *)
Module Tracked.
Section WithNumber.
Context {F : Type} {num : Number F}.
Local Open Scope string_scope.
Local Open Scope list_scope.







End WithNumber.
End Tracked.

(* ================================================================= *)
(** * The vocabulary of the properties *)

(** ** Lists *)

(** [Subsequence s l]: [s] is [l] with some elements left out, the others
    in their order. *)
Inductive Subsequence {A : Type} : list A -> list A -> Prop :=
| Subsequence_nil : Subsequence [] []
| Subsequence_skip x s l : Subsequence s l -> Subsequence s (x :: l)
| Subsequence_take x s l : Subsequence s l -> Subsequence (x :: s) (x :: l).

(** [matrix[i][j]]. *)
Definition entry {A : Type} (matrix : list (list A)) (i j : nat) : option A :=
  match nth_error matrix i with
  | Some row => nth_error row j
  | None => None
  end.

(** The positions of an enumerated list ascend. *)
Definition ascending_positions {A : Type} (l : list (nat * A)) : Prop :=
  StronglySorted (fun x y => (fst x < fst y)%nat) l.

(** ** Detection post-processing *)

Section PostProcessing.
Context {F : Type} {num : Number F}.
Local Open Scope num_scope.

(** Specification 4.1, step 1: a detection is oversized when its
    normalized area [w*h] exceeds 0.25. *)
Definition oversized (d : Detection F) : bool :=
  (at2 (centroid d) * at3 (centroid d)) >? quarter.

(** The same of the detection at a position of the list. *)
Definition oversized_at (object_list : list (Detection F)) (i : nat) : bool :=
  match nth_error object_list i with
  | Some o => oversized o
  | None => false
  end.

(** The sort key [cy + h/2], the bottom edge of the normalized box. *)
Definition bottom_edge (d : Detection F) : F :=
  at1 (centroid d) + at3 (centroid d) / of_int 2.

(** [area = (h + 1) * (w + 1)]. *)
Definition box_area (d : Detection F) : F :=
  (at3 (centroid d) + of_int 1) * (at2 (centroid d) + of_int 1).

(** The overlap of a candidate with the box that is kept: their clipped
    intersection over the candidate's area. *)
Definition box_overlap (kept other : Detection F) : F :=
  let xx1 := maximum (at0 (bbox kept)) (at0 (bbox other)) in
  let yy1 := maximum (at1 (bbox kept)) (at1 (bbox other)) in
  let xx2 := minimum (at2 (bbox kept)) (at2 (bbox other)) in
  let yy2 := minimum (at3 (bbox kept)) (at3 (bbox other)) in
  let w := maximum (of_int 0) (xx2 - xx1 + of_int 1) in
  let h := maximum (of_int 0) (yy2 - yy1 + of_int 1) in
  (w * h) / box_area other.

(** Detections with their positions in the input list. *)
Definition Placed : Type := (nat * Detection F)%type.

Definition placed_key (x : Placed) : F := bottom_edge (snd x).

(** Whether keeping one detection drops another. *)
Definition suppresses (overlapThresh : F) (kept other : Placed) : bool :=
  box_overlap (snd kept) (snd other) >? overlapThresh.

(** The candidates in the order the loop takes them: last of the sorted
    indices first. *)
Definition candidates (placed : list Placed) : list Placed :=
  rev (Distancing.stable_sort placed_key placed).

(** [[j for i, j in enumerate(object_list) if i in pick]]. *)
Definition select (picked : list Placed) (placed : list Placed) : list Placed :=
  filter (fun ij => py_in (fst ij) (map fst picked)) placed.

(** Specification 4.1, step 2, in its words: repeatedly take the undecided
    detection with the largest [cy + h/2] as kept and drop the undecided
    detections whose overlap with it exceeds the threshold, until none
    remains.  The undecided detections are a set: a list read through
    [In]. *)
Inductive spec_nms_rounds (overlap_threshold : F)
  : list Placed -> list Placed -> Prop :=
| rounds_done : spec_nms_rounds overlap_threshold [] []
| rounds_keep undecided undecided' bottom_most kept :
    In bottom_most undecided ->
    (forall other, In other undecided ->
       sort_ltb (bottom_edge (snd bottom_most)) (bottom_edge (snd other)) = false) ->
    (forall other, In other undecided' <->
       In other undecided /\ other <> bottom_most /\
       (box_overlap (snd bottom_most) (snd other) >? overlap_threshold)%num = false) ->
    spec_nms_rounds overlap_threshold undecided' kept ->
    spec_nms_rounds overlap_threshold undecided (bottom_most :: kept).

(** A detection under another position. *)
Definition rename (positions : list nat) (x : Placed) : Placed :=
  (nth (fst x) positions 0%nat, snd x).

(** Whether keeping the box at [i] drops the box at [j], on the arrays of
    [non_max_suppression_fast]. *)
Definition drops_at (x1 y1 x2 y2 area : list F) (overlapThresh : F) (i j : nat) : bool :=
  Distancing.overlap_of x1 y1 x2 y2 area i j >? overlapThresh.

(** [x] comes before [y] in the order of a stable sort: by key, and for
    equal keys by position. *)
Definition earlier {A : Type} (key : A -> F) (tag : A -> nat) (x y : A) : Prop :=
  sort_ltb (key x) (key y) = true \/
  (sort_ltb (key y) (key x) = false /\ (tag x < tag y)%nat).
End PostProcessing.

(** The rounds of the suppression loop, on the candidates in the order in
    which they are taken: the first is kept, the candidates it suppresses
    are left out, and the rounds go on with the others. *)
Section Greedy.
Context {A : Type} (drops : A -> A -> bool).

Definition survivors (kept : A) (others : list A) : list A :=
  filter (fun other => negb (drops kept other)) others.

Inductive Greedy : list A -> list A -> Prop :=
| Greedy_nil : Greedy [] []
| Greedy_cons kept others picked :
    Greedy (survivors kept others) picked ->
    Greedy (kept :: others) (kept :: picked).
End Greedy.

(** ** Distances over the real numbers *)

Section RealDistances.
Import Distancing.
Local Open Scope R_scope.

(** Specification 4.2, method 2: the displacements [dx*170*(1/h1+1/h2)/2]
    and [dy*170*(1/h1+1/h2)/2], combined by the Euclidean norm. *)
Definition pinhole_distance (first_point second_point : R * R * R) : R :=
  let '(x1, y1, h1) := first_point in
  let '(x2, y2, h2) := second_point in
  let dx := x2 - x1 in
  let dy := y2 - y1 in
  R_sqrt.sqrt ((dx * 170 * (1 / h1 + 1 / h2) / 2) ^ 2
               + (dy * 170 * (1 / h1 + 1 / h2) / 2) ^ 2).

(** The points the two pinhole methods measure between. *)
Definition center_point (o : Detection R) : R * R * R :=
  (at0 (centroidReal o), at1 (centroidReal o), at3 (centroidReal o)).
Definition lower_left (o : Detection R) : R * R * R :=
  (at0 (bboxReal o), at1 (bboxReal o), at3 (centroidReal o)).
Definition lower_right (o : Detection R) : R * R * R :=
  (at2 (bboxReal o), at1 (bboxReal o), at3 (centroidReal o)).
Definition upper_left (o : Detection R) : R * R * R :=
  (at0 (bboxReal o), at3 (bboxReal o), at3 (centroidReal o)).
Definition upper_right (o : Detection R) : R * R * R :=
  (at2 (bboxReal o), at3 (bboxReal o), at3 (centroidReal o)).

(** The pixel height of a box, by which the pinhole formula divides. *)
Definition pixel_height (o : Detection R) : R := at3 (centroidReal o).

(** The homogeneous point of a box and the homogeneous coordinate of its
    image, by which [transform_to_world_coordinate] divides. *)
Definition floor_point (o : Detection R) : R * R * R :=
  (Rtrunc ((at0 (bboxReal o) + at2 (bboxReal o)) / 2), at3 (bboxReal o), 1).
Definition homogeneous (h_inv : @Mat3 R) (o : Detection R) : R :=
  snd (matmul h_inv (floor_point o)).

(** No division of [calculate_box_distances] has a zero divisor. *)
Definition no_zero_division (dist_method : DistMethod) (h_inv : @Mat3 R)
    (nn_out : list (Detection R)) : Prop :=
  match dist_method with
  | CalibratedDistance => forall o, In o nn_out -> homogeneous h_inv o <> 0
  | _ => (length nn_out <= 1)%nat \/ forall o, In o nn_out -> pixel_height o <> 0
  end.

(** A homogeneous point through the inverse homography, divided by its
    homogeneous coordinate. *)
Definition project (h_inv : @Distancing.Mat3 R) (point : R * R * R) : R * R :=
  let '(X, Y, W) := Distancing.matmul h_inv point in (X / W, Y / W).

(** Specification 4.2, method 1, in its words: the bottom-center pixel
    [((x0 + x2) / 2, y1, 1)] of the box, projected. *)
Definition claimed_world_point (h_inv : @Distancing.Mat3 R) (o : Detection R) : R * R :=
  project h_inv ((at0 (bboxReal o) + at2 (bboxReal o)) / 2, at3 (bboxReal o), 1).

(** The same with the first coordinate cut to an integer, as
    [transform_to_world_coordinate] has it. *)
Definition world_point (h_inv : @Distancing.Mat3 R) (o : Detection R) : R * R :=
  project h_inv
    (Rtrunc ((at0 (bboxReal o) + at2 (bboxReal o)) / 2), at3 (bboxReal o), 1).
End RealDistances.

(** ** Concrete inputs *)

Section RealInputs.
Local Open Scope R_scope.

(** The boxes A and B of the specification's example, as [__process] builds
    them from the detector's boxes (at the resolution 640x480). *)
Definition box_A : Detection R :=
  Distancing.derive_fields 640 480 "A" (quad 0.1 0.1 0.3 0.3)%R.
Definition box_B : Detection R :=
  Distancing.derive_fields 640 480 "B" (quad 0.12 0.12 0.32 0.32)%R.

(** A detection whose box has no height: [y0 = y1 = 0.5], [x] from 0.5 to
    0.6 (the specification asks for [y0 <= y1] only). *)
Definition flat_box : Detection R :=
  Distancing.derive_fields 640 480 "flat" (quad 0.5 0.5 0.5 0.6).

(** The homography that maps every pixel to itself. *)
Definition identity_homography : @Distancing.Mat3 R :=
  ((1, 0, 0), (0, 1, 0), (0, 0, 1)).
End RealInputs.

(** A camera that does not answer: an idle x86 pipeline whose source does
    not open. *)
Definition idle_pipeline : Orchestrator.Self :=
  {| Orchestrator.device := "x86";
     Orchestrator.detector := None;
     Orchestrator.running_video := false |}.
Definition unreachable_camera : Orchestrator.World :=
  {| Orchestrator.detector_builds := fun _ => true;
     Orchestrator.capture_opens := fun _ => false;
     Orchestrator.writer_opens := fun _ => true;
     Orchestrator.readings := [] |}.

(** The queues of the control channel. *)
Definition queues (cmds : list ProcessorAPI.Commands) (results : list bool)
    (lines : list string) : ProcessorAPI.Queues :=
  {| ProcessorAPI.cmd_queue := cmds;
     ProcessorAPI.result_queue := results;
     ProcessorAPI.log := lines |}.

(** The same inputs as binary64 numbers. *)
Module Binary64Inputs.
#[local] Set Warnings "-inexact-float".
Local Open Scope float_scope.

Definition box (name : string) (x0 y0 x1 y1 : float) : Detection float :=
  @Distancing.derive_fields float Binary64.number 640 480 name (quad y0 x0 y1 x1).

Definition box_A : Detection float := box "A" 0.1 0.1 0.3 0.3.
Definition box_B : Detection float := box "B" 0.12 0.12 0.32 0.32.
Definition whole_frame : Detection float := box "whole" 0 0 0.6 0.6.

(** Two boxes of height 100 pixels with the centers (0,0) and (100,0). *)
Definition at_origin : Detection float :=
  {| id := "origin"; bbox := quad 0 0 0 0; centroid := quad 0 0 0 0;
     bboxReal := quad (-25) (-50) 25 50; centroidReal := quad 0 0 50 100 |}.
Definition at_hundred : Detection float :=
  {| id := "hundred"; bbox := quad 0 0 0 0; centroid := quad 0 0 0 0;
     bboxReal := quad 75 (-50) 125 50; centroidReal := quad 100 0 50 100 |}.

Definition identity : @Distancing.Mat3 float := ((1, 0, 0), (0, 1, 0), (0, 0, 1)).
End Binary64Inputs.


(** ** Boxes as a detector gives them *)

(** A raw box [[y0, x0, y1, x1]] whose corners are in order. *)
Definition ordered_box (box : Quad R) : Prop :=
  (at0 box <= at2 box)%R /\ (at1 box <= at3 box)%R.

(** A detection whose width and height are those of its box, the box
    having its corners in order: what [__process] derives from an ordered
    raw box. *)
Definition consistent (d : Detection R) : Prop :=
  (at2 (centroid d) = at2 (bbox d) - at0 (bbox d) /\
   at3 (centroid d) = at3 (bbox d) - at1 (bbox d) /\
   at0 (bbox d) <= at2 (bbox d) /\
   at1 (bbox d) <= at3 (bbox d))%R.

(** ** The estimator's inputs *)

(** The pinhole methods divide by a pixel height that is zero: there are
    two boxes to compare, and one of the boxes has no height. *)
Definition divides_by_zero_height (nn_out : list (Detection R)) : Prop :=
  (2 <= length nn_out)%nat /\ exists o, In o nn_out /\ pixel_height o = 0%R.

(** ** The trace of a start *)

Section Traces.
Import Orchestrator.

(** How often an event of a kind occurs in a trace. *)
Definition count (kind : Event -> bool) (trace : list Event) : nat :=
  length (filter kind trace).

Definition is_read (e : Event) : bool :=
  match e with Read => true | _ => false end.
Definition is_process (e : Event) : bool :=
  match e with Process => true | _ => false end.
Definition is_write (feed : string) (e : Event) : bool :=
  match e with Write f => String.eqb f feed | _ => false end.
Definition is_logger_update (e : Event) : bool :=
  match e with LoggerUpdate => true | _ => false end.
Definition is_release (e : Event) : bool :=
  match e with Release => true | _ => false end.

(** A round after which the loop test fails: [stop_process_video] was
    called, or the capture is no longer open. *)
Definition ends_loop (r : Reading) : bool :=
  stop_called r || negb (still_open r).

(** The rounds up to the first that ends the loop, that one included. *)
Fixpoint rounds_run (rounds : list Reading) : list Reading :=
  match rounds with
  | [] => []
  | r :: rounds' => if ends_loop r then [r] else r :: rounds_run rounds'
  end.
End Traces.

(** A camera that delivers three frames, the second of them empty; the
    stop request comes while the third is processed.  A fourth frame is
    ready. *)
Definition three_frames : Orchestrator.World :=
  {| Orchestrator.detector_builds := fun _ => true;
     Orchestrator.capture_opens := fun _ => true;
     Orchestrator.writer_opens := fun _ => true;
     Orchestrator.readings :=
       [ {| Orchestrator.has_image := true; Orchestrator.stop_called := false;
            Orchestrator.still_open := true |};
         {| Orchestrator.has_image := false; Orchestrator.stop_called := false;
            Orchestrator.still_open := true |};
         {| Orchestrator.has_image := true; Orchestrator.stop_called := true;
            Orchestrator.still_open := true |};
         {| Orchestrator.has_image := true; Orchestrator.stop_called := false;
            Orchestrator.still_open := true |} ] |}.

(** A camera that opens while the birds-eye sink does not. *)
Definition broken_sink : Orchestrator.World :=
  {| Orchestrator.detector_builds := fun _ => true;
     Orchestrator.capture_opens := fun _ => true;
     Orchestrator.writer_opens := fun feed => String.eqb feed "default";
     Orchestrator.readings := [] |}.

(** ** The control channel *)

(** Between two states of the queues, the API has put some commands and
    taken as many results, the oldest first. *)
Definition in_step (q q' : ProcessorAPI.Queues) : Prop :=
  exists issued consumed,
    ProcessorAPI.cmd_queue q' = ProcessorAPI.cmd_queue q ++ issued /\
    ProcessorAPI.result_queue q = consumed ++ ProcessorAPI.result_queue q' /\
    length issued = length consumed.

(** Two cameras, and the sections of a configuration that are not
    sections of cameras. *)
Definition two_cameras : list (Config.CameraDTO nat) :=
  [ {| Config.id := "0"; Config.name := "Garden"; Config.videoPath := "/repo/data/garden.mp4";
       Config.emails := ""; Config.tags := ""; Config.notifyEveryMinutes := 15%nat;
       Config.violationThreshold := 60%nat; Config.distMethod := "CenterPointsDistance";
       Config.calibrationFile := "" |};
    {| Config.id := "1"; Config.name := "Hall"; Config.videoPath := "rtsp://hall";
       Config.emails := ""; Config.tags := ""; Config.notifyEveryMinutes := 0%nat;
       Config.violationThreshold := 100%nat; Config.distMethod := "CalibratedDistance";
       Config.calibrationFile := "/repo/data/hall.txt" |} ].
Definition other_sections : Dict.t (Dict.t string) :=
  [ ("App"%string, [("Resolution"%string, "640,480"%string)]);
    ("API"%string, [("Host"%string, "0.0.0.0"%string); ("Port"%string, "8000"%string)]) ].




(** ** The image at another size *)


(** ** The pinhole formula in the arithmetic of the code *)

Module Pinhole.
Section WithNumber.
Context {F : Type} {num : Number F}.
Local Open Scope num_scope.


Definition lower_left (o : Detection F) : F * F * F :=
  (at0 (bboxReal o), at1 (bboxReal o), at3 (centroidReal o)).
Definition lower_right (o : Detection F) : F * F * F :=
  (at2 (bboxReal o), at1 (bboxReal o), at3 (centroidReal o)).
Definition upper_left (o : Detection F) : F * F * F :=
  (at0 (bboxReal o), at3 (bboxReal o), at3 (centroidReal o)).
Definition upper_right (o : Detection F) : F * F * F :=
  (at2 (bboxReal o), at3 (bboxReal o), at3 (centroidReal o)).

End WithNumber.
End Pinhole.

(** ** Boxes with equal keys *)

(** Four boxes in binary64: P at the bottom of the frame, Q just above it
    and overlapped by it, and X and Y with the same [cy + h/2], X a point
    on the lower edge of Y. *)
Module TiedBoxes.
#[local] Set Warnings "-inexact-float".
Local Open Scope float_scope.

Definition box_P : Detection float := Binary64Inputs.box "P" 0.75 1 0.75 1.
Definition box_Q : Detection float := Binary64Inputs.box "Q" 0.75 0.9375 0.75 0.9375.
Definition box_X : Detection float := Binary64Inputs.box "X" 0.125 0.75 0.125 0.75.
Definition box_Y : Detection float := Binary64Inputs.box "Y" 0 0.5 0.25 0.75.
Definition threshold : float := 0.9.
End TiedBoxes.

(* ================================================================= *)
(** * Lists with positions *)

Section Positions.
Context {A : Type}.

(** Filtering the enumerated list by a test that, on every position and
    its element, agrees with a test of the element alone. *)
Lemma filter_positions (P : nat * A -> bool) (q : A -> bool) :
  forall (l : list A) (s : nat),
    (forall k x, nth_error l k = Some x -> P ((s + k)%nat, x) = q x) ->
    map snd (filter P (combine (seq s (length l)) l)) = filter q l.
Proof.
  induction l as [|a l IH]; intros s HP; [reflexivity|].
  cbn [length seq combine filter].
  rewrite <- (HP 0%nat a eq_refl), Nat.add_0_r.
  assert (Htail : map snd (filter P (combine (seq (S s) (length l)) l)) = filter q l).
  { apply IH. intros k x Hk.
    rewrite <- (HP (S k) x Hk). f_equal. f_equal. lia. }
  destruct (P (s, a)); cbn [map snd]; now rewrite Htail.
Qed.

Lemma combine_seq_app (l1 l2 : list A) :
  forall s, combine (seq s (length (l1 ++ l2))) (l1 ++ l2)
            = combine (seq s (length l1)) l1
                ++ combine (seq (s + length l1) (length l2)) l2.
Proof.
  induction l1 as [|a l1 IH]; intros s; cbn [length app seq combine].
  - now rewrite Nat.add_0_r.
  - rewrite IH.
    now replace (S s + length l1)%nat with (s + S (length l1))%nat by lia.
Qed.

Lemma enumerate_app (l1 l2 : list A) :
  enumerate (l1 ++ l2) = enumerate l1 ++ combine (seq (length l1) (length l2)) l2.
Proof. unfold enumerate. now rewrite combine_seq_app. Qed.

Lemma in_combine_seq (l : list A) :
  forall s i x, In (i, x) (combine (seq s (length l)) l) <->
                (s <= i)%nat /\ nth_error l (i - s) = Some x.
Proof.
  induction l as [|a l IH]; intros s i x; cbn [length seq combine In].
  - split; [tauto|]. intros [_ H]. now destruct (i - s)%nat.
  - rewrite IH. split.
    + intros [H|[H1 H2]].
      * inversion H; subst. rewrite Nat.sub_diag. split; [lia|reflexivity].
      * split; [lia|]. replace (i - s)%nat with (S (i - S s)) by lia. exact H2.
    + intros [H1 H2]. destruct (Nat.eq_dec s i) as [->|Hne].
      * rewrite Nat.sub_diag in H2. inversion H2. now left.
      * right. split; [lia|].
        replace (i - s)%nat with (S (i - S s)) in H2 by lia. exact H2.
Qed.

Lemma in_enumerate (l : list A) (i : nat) (x : A) :
  In (i, x) (enumerate l) <-> nth_error l i = Some x.
Proof.
  unfold enumerate. rewrite in_combine_seq, Nat.sub_0_r.
  split; [tauto|]. intros H; split; [lia|exact H].
Qed.

Lemma map_fst_combine_seq (l : list A) :
  forall s, map fst (combine (seq s (length l)) l) = seq s (length l).
Proof.
  induction l as [|a l IH]; intros s; cbn [length seq combine map fst];
    [reflexivity|now rewrite IH].
Qed.

Lemma map_snd_combine_seq (l : list A) :
  forall s, map snd (combine (seq s (length l)) l) = l.
Proof.
  induction l as [|a l IH]; intros s; cbn [length seq combine map snd];
    [reflexivity|now rewrite IH].
Qed.

Lemma map_fst_enumerate (l : list A) : map fst (enumerate l) = seq 0 (length l).
Proof. apply map_fst_combine_seq. Qed.

Lemma map_snd_enumerate (l : list A) : map snd (enumerate l) = l.
Proof. apply map_snd_combine_seq. Qed.
End Positions.

Lemma py_in_In (i : nat) (l : list nat) : py_in i l = true <-> In i l.
Proof.
  unfold py_in. rewrite existsb_exists. split.
  - intros [x [Hx He]]. apply Nat.eqb_eq in He. now subst.
  - intros H. exists i. split; [exact H|apply Nat.eqb_refl].
Qed.

Lemma py_in_filter_seq (f : nat -> bool) (s n i : nat) :
  py_in i (filter f (seq s n)) = f i && (s <=? i)%nat && (i <? s + n)%nat.
Proof.
  apply eq_true_iff_eq.
  rewrite py_in_In, filter_In, in_seq, !andb_true_iff, Nat.leb_le, Nat.ltb_lt.
  tauto.
Qed.

(* ================================================================= *)
(** * Oversized-box rejection *)

Section IgnoreLargeBoxes.
Context {F : Type} {num : Number F}.
Import Distancing.
Local Open Scope num_scope.

(** The first loop of [ignore_large_boxes] collects the positions of the
    oversized boxes, in ascending order. *)
Lemma large_boxes_positions (object_list : list (Detection F)) :
  forall (positions acc : list nat),
    fold_left
      (fun large_boxes i =>
         match nth_error object_list i with
         | Some o =>
             if (at2 (centroid o) * at3 (centroid o)) >? quarter
             then large_boxes ++ [i]
             else large_boxes
         | None => large_boxes
         end) positions acc
    = acc ++ filter (oversized_at object_list) positions.
Proof.
  induction positions as [|i positions IH]; intros acc; cbn [fold_left filter].
  - now rewrite app_nil_r.
  - rewrite IH. unfold oversized_at at 2, oversized.
    destruct (nth_error object_list i) as [o|]; [|reflexivity].
    destruct (quarter <? at2 (centroid o) * at3 (centroid o)); [|reflexivity].
    now rewrite <- app_assoc.
Qed.
End IgnoreLargeBoxes.

(** C2.  For every list of detections, [ignore_large_boxes] returns the
    list with exactly the detections of normalized area [w*h > 0.25]
    removed: the others are kept as they are and in their order, which is
    what filtering the input says.  This holds in every number system. *)
Theorem ignore_large_boxes_filter :
  forall (F : Type) (num : Number F) (object_list : list (Detection F)),
    Distancing.ignore_large_boxes object_list
    = filter (fun d => negb (oversized d)) object_list.
Proof.
  intros F num object_list. unfold Distancing.ignore_large_boxes.
  rewrite large_boxes_positions. cbn [app]. unfold enumerate.
  apply filter_positions. intros k x Hk. cbn [fst Nat.add].
  rewrite py_in_filter_seq. unfold oversized_at. rewrite Hk.
  assert (Hlt : (k < length object_list)%nat)
    by (apply nth_error_Some; congruence).
  replace (0 <=? k)%nat with true by (symmetry; apply Nat.leb_le; lia).
  replace (k <? 0 + length object_list)%nat with true
    by (symmetry; apply Nat.ltb_lt; lia).
  now rewrite !andb_true_r.
Qed.

(* ================================================================= *)
(** * Subsequences *)

Section SubsequenceFacts.
Context {A : Type}.

Lemma Subsequence_refl (l : list A) : Subsequence l l.
Proof. induction l; constructor; assumption. Qed.

Lemma Subsequence_filter (f : A -> bool) (l : list A) : Subsequence (filter f l) l.
Proof.
  induction l as [|a l IH]; cbn [filter]; [constructor|].
  destruct (f a); constructor; exact IH.
Qed.

Lemma Subsequence_trans (s m l : list A) :
  Subsequence s m -> Subsequence m l -> Subsequence s l.
Proof.
  intros Hsm Hml. revert s Hsm.
  induction Hml as [|x m l Hml IH|x m l Hml IH]; intros s Hsm.
  - exact Hsm.
  - constructor. now apply IH.
  - inversion Hsm; subst; constructor; now apply IH.
Qed.

Lemma Subsequence_In (s l : list A) (x : A) : Subsequence s l -> In x s -> In x l.
Proof.
  induction 1 as [|y s l H IH|y s l H IH]; cbn [In]; intros Hx; tauto.
Qed.

Lemma Subsequence_length (s l : list A) : Subsequence s l -> (length s <= length l)%nat.
Proof. induction 1; cbn [length]; lia. Qed.

Lemma Subsequence_app (s1 l1 s2 l2 : list A) :
  Subsequence s1 l1 -> Subsequence s2 l2 -> Subsequence (s1 ++ s2) (l1 ++ l2).
Proof.
  intros H1 H2. induction H1; cbn [app]; try constructor; assumption.
Qed.

Lemma Subsequence_rev (s l : list A) : Subsequence s l -> Subsequence (rev s) (rev l).
Proof.
  induction 1 as [|x s l H IH|x s l H IH]; cbn [rev].
  - constructor.
  - rewrite <- (app_nil_r (rev s)). apply Subsequence_app; [exact IH|].
    constructor. constructor.
  - apply Subsequence_app; [exact IH|apply Subsequence_refl].
Qed.

Lemma Subsequence_NoDup (s l : list A) : Subsequence s l -> NoDup l -> NoDup s.
Proof.
  induction 1 as [|x s l H IH|x s l H IH]; intros Hl.
  - constructor.
  - inversion Hl; subst. now apply IH.
  - inversion Hl; subst. constructor; [|now apply IH].
    intros Hx. eapply Subsequence_In in Hx; eauto.
Qed.

Lemma Subsequence_StronglySorted (R : A -> A -> Prop) (s l : list A) :
  Subsequence s l -> StronglySorted R l -> StronglySorted R s.
Proof.
  induction 1 as [|x s l H IH|x s l H IH]; intros Hl.
  - constructor.
  - apply StronglySorted_inv in Hl. now apply IH.
  - apply StronglySorted_inv in Hl. destruct Hl as [Hl Hx].
    constructor; [now apply IH|].
    rewrite Forall_forall in *. intros y Hy. apply Hx.
    eapply Subsequence_In; eauto.
Qed.
End SubsequenceFacts.

Lemma Subsequence_map {A B : Type} (f : A -> B) (s l : list A) :
  Subsequence s l -> Subsequence (map f s) (map f l).
Proof. induction 1; cbn [map]; constructor; assumption. Qed.

(* ================================================================= *)
(** * Greedy suppression *)

Section GreedyFacts.
Context {A : Type} (drops : A -> A -> bool).

Lemma survivors_length (kept : A) (others : list A) :
  (length (survivors drops kept others) <= length others)%nat.
Proof. apply Subsequence_length, Subsequence_filter. Qed.

Lemma Greedy_total_bounded :
  forall n d, (length d <= n)%nat -> exists picked, Greedy drops d picked.
Proof.
  induction n as [|n IH]; intros d Hd.
  - destruct d; [|cbn in Hd; lia]. exists []. constructor.
  - destruct d as [|kept others]; [exists []; constructor|].
    destruct (IH (survivors drops kept others)) as [picked Hp].
    + pose proof (survivors_length kept others). cbn [length] in Hd. lia.
    + exists (kept :: picked). now constructor.
Qed.

Lemma Greedy_total (d : list A) : exists picked, Greedy drops d picked.
Proof. eapply Greedy_total_bounded. apply le_n. Qed.

Lemma Greedy_functional (d p1 p2 : list A) :
  Greedy drops d p1 -> Greedy drops d p2 -> p1 = p2.
Proof.
  intros H1. revert p2. induction H1 as [|kept others picked H1 IH]; intros p2 H2.
  - now inversion H2.
  - inversion H2; subst. f_equal. now apply IH.
Qed.

Lemma Greedy_Subsequence (d picked : list A) :
  Greedy drops d picked -> Subsequence picked d.
Proof.
  induction 1 as [|kept others picked H IH]; [constructor|].
  apply Subsequence_take.
  eapply Subsequence_trans; [exact IH|apply Subsequence_filter].
Qed.

Lemma survivors_all (kept : A) (l : list A) :
  (forall x, In x l -> drops kept x = false) -> survivors drops kept l = l.
Proof.
  induction l as [|a l IH]; intros H; cbn [survivors filter]; [reflexivity|].
  rewrite (H a (or_introl eq_refl)). cbn [negb].
  fold (survivors drops kept l). rewrite IH; [reflexivity|].
  intros x Hx. apply H. now right.
Qed.

(** What was picked suppresses nothing of what was picked after it: the
    rounds on the picked candidates alone pick them all. *)
Lemma Greedy_idempotent (d picked : list A) :
  Greedy drops d picked -> Greedy drops picked picked.
Proof.
  induction 1 as [|kept others picked H IH]; [constructor|].
  constructor. rewrite survivors_all; [exact IH|].
  intros x Hx. apply Greedy_Subsequence in H.
  eapply Subsequence_In in Hx; [|exact H].
  unfold survivors in Hx. apply filter_In in Hx.
  destruct Hx as [_ Hx]. now destruct (drops kept x).
Qed.
End GreedyFacts.

(** The rounds do not depend on how the candidates are named. *)
Lemma Greedy_map {A B : Type} (f : A -> B)
    (dropsA : A -> A -> bool) (dropsB : B -> B -> bool) :
  forall d picked,
    (forall x y, In x d -> In y d -> dropsB (f x) (f y) = dropsA x y) ->
    Greedy dropsA d picked -> Greedy dropsB (map f d) (map f picked).
Proof.
  intros d picked Hf H. induction H as [|kept others picked H IH];
    cbn [map]; constructor.
  assert (Hs : survivors dropsB (f kept) (map f others)
               = map f (survivors dropsA kept others)).
  { unfold survivors. clear IH H.
    assert (Ho : forall y, In y others -> dropsB (f kept) (f y) = dropsA kept y)
      by (intros y Hy; apply Hf; [now left|now right]).
    clear Hf. induction others as [|o others IHo]; [reflexivity|].
    cbn [map filter]. rewrite (Ho o (or_introl eq_refl)).
    destruct (dropsA kept o); cbn [negb map]; rewrite IHo; auto;
      intros y Hy; apply Ho; now right. }
  rewrite Hs. apply IH. intros x y Hx Hy.
  unfold survivors in Hx, Hy. apply filter_In in Hx, Hy.
  apply Hf; right; tauto.
Qed.

(* ================================================================= *)
(** * The suppression loop of [non_max_suppression_fast] *)

Lemma py_in_np_where {F : Type} {num : Number F} (mask : list bool) (k : nat) :
  py_in k (Distancing.np_where mask) = true <-> nth_error mask k = Some true.
Proof.
  unfold Distancing.np_where. rewrite py_in_In, in_map_iff. split.
  - intros [[i b] [Hi Hin]]. cbn [fst] in Hi. subst i.
    apply filter_In in Hin. destruct Hin as [Hin Hb]. cbn [snd] in Hb. subst b.
    now apply in_enumerate.
  - intros H. exists (k, true). split; [reflexivity|].
    apply filter_In. split; [now apply in_enumerate|reflexivity].
Qed.

Lemma last_cases {A : Type} (l : list A) :
  l = [] \/ exists rest x, l = rest ++ [x].
Proof.
  destruct l as [|a l]; [now left|right].
  destruct (exists_last (l := a :: l)) as [rest [x H]]; [discriminate|].
  now exists rest, x.
Qed.

Section SuppressionLoop.
Context {F : Type} {num : Number F}.
Import Distancing.
Local Open Scope num_scope.
Variables (x1 y1 x2 y2 area : list F) (overlapThresh : F).

Lemma np_delete_last (g : nat -> bool) (rest : list nat) (i : nat) :
  np_delete (rest ++ [i]) ([length rest] ++ np_where (map g rest))
  = filter (fun j => negb (g j)) rest.
Proof.
  unfold np_delete. rewrite enumerate_app, filter_app, map_app.
  cbn [length seq combine filter fst app py_in existsb].
  rewrite Nat.eqb_refl. cbn [orb negb map]. rewrite app_nil_r.
  unfold enumerate. apply filter_positions.
  intros k x Hk. cbn [fst Nat.add]. f_equal.
  assert (Hlt : (k < length rest)%nat) by (apply nth_error_Some; congruence).
  replace (k =? length rest)%nat with false
    by (symmetry; apply Nat.eqb_neq; lia).
  cbn [orb]. apply eq_true_iff_eq. fold (py_in k (np_where (map g rest))).
  rewrite py_in_np_where, nth_error_map, Hk. cbn [option_map].
  split; congruence.
Qed.

(** One round of the loop: the last index is picked, and of the others
    those it does not drop stay, in their order. *)
Lemma nms_loop_round (fuel : nat) (rest pick : list nat) (i : nat) :
  nms_loop x1 y1 x2 y2 area overlapThresh (S fuel) (rest ++ [i]) pick
  = nms_loop x1 y1 x2 y2 area overlapThresh fuel
      (filter (fun j => negb (drops_at x1 y1 x2 y2 area overlapThresh i j)) rest) (pick ++ [i]).
Proof.
  cbn [nms_loop].
  replace (0 <? length (rest ++ [i]))%nat with true
    by (symmetry; apply Nat.ltb_lt; rewrite length_app; cbn; lia).
  replace (length (rest ++ [i]) - 1)%nat with (length rest)
    by (rewrite length_app; cbn; lia).
  rewrite nth_middle, firstn_app, Nat.sub_diag, firstn_all, firstn_O, app_nil_r.
  rewrite map_map.
  rewrite (np_delete_last (fun j => overlap_of x1 y1 x2 y2 area i j >? overlapThresh)).
  reflexivity.
Qed.

(** With as many rounds as there are indices the loop ends by its own
    test, and what it picks are the greedy rounds on the indices taken
    from the last to the first. *)
Lemma nms_loop_Greedy :
  forall fuel idxs pick,
    (length idxs <= fuel)%nat ->
    exists picked,
      Greedy (drops_at x1 y1 x2 y2 area overlapThresh) (rev idxs) picked /\
      nms_loop x1 y1 x2 y2 area overlapThresh fuel idxs pick = Some (pick ++ picked).
Proof.
  induction fuel as [|fuel IH]; intros idxs pick Hlen.
  - destruct idxs; [|cbn in Hlen; lia].
    exists []. split; [constructor|]. cbn. now rewrite app_nil_r.
  - destruct (last_cases idxs) as [->|[rest [i ->]]].
    + exists []. split; [constructor|]. cbn. now rewrite app_nil_r.
    + rewrite nms_loop_round.
      destruct (IH (filter (fun j => negb (drops_at x1 y1 x2 y2 area overlapThresh i j)) rest) (pick ++ [i]))
        as [picked [Hg Hl]].
      { pose proof (Subsequence_length (Subsequence_filter (fun j => negb (drops_at x1 y1 x2 y2 area overlapThresh i j)) rest)).
        rewrite length_app in Hlen. cbn [length] in Hlen. lia. }
      exists (i :: picked). split.
      * rewrite rev_app_distr. cbn [rev app]. constructor.
        unfold survivors. rewrite filter_rev. exact Hg.
      * rewrite Hl. now rewrite <- app_assoc.
Qed.
End SuppressionLoop.

(* ================================================================= *)
(** * The stable sort behind [argsort] *)

Section StableSortFacts.
Context {F : Type} {num : Number F}.
Import Distancing.

Lemma insert_Permutation {A : Type} (key : A -> F) (x : A) (l : list A) :
  Permutation (insert key x l) (x :: l).
Proof.
  induction l as [|y l IH]; cbn [insert]; [reflexivity|].
  destruct (sort_ltb (key y) (key x)); [|reflexivity].
  rewrite IH. apply perm_swap.
Qed.

Lemma stable_sort_Permutation {A : Type} (key : A -> F) (l : list A) :
  Permutation (stable_sort key l) l.
Proof.
  induction l as [|x l IH]; cbn [stable_sort]; [reflexivity|].
  rewrite insert_Permutation. now constructor.
Qed.

Lemma stable_sort_In {A : Type} (key : A -> F) (l : list A) (x : A) :
  In x (stable_sort key l) <-> In x l.
Proof.
  split; apply Permutation_in;
    [apply stable_sort_Permutation|symmetry; apply stable_sort_Permutation].
Qed.

(** Sorting looks at the keys only. *)
Lemma insert_map {A B : Type} (f : A -> B) (keyA : A -> F) (keyB : B -> F) :
  (forall x, keyB (f x) = keyA x) ->
  forall x l, insert keyB (f x) (map f l) = map f (insert keyA x l).
Proof.
  intros Hk x l. induction l as [|y l IH]; cbn [insert map]; [reflexivity|].
  rewrite !Hk. destruct (sort_ltb (keyA y) (keyA x)); cbn [map];
    [now rewrite IH|reflexivity].
Qed.

Lemma stable_sort_map {A B : Type} (f : A -> B) (keyA : A -> F) (keyB : B -> F) :
  (forall x, keyB (f x) = keyA x) ->
  forall l, stable_sort keyB (map f l) = map f (stable_sort keyA l).
Proof.
  intros Hk l. induction l as [|x l IH]; cbn [stable_sort map]; [reflexivity|].
  rewrite IH. now apply insert_map.
Qed.

Lemma combine_map_r {A B C : Type} (g : B -> C) (l1 : list A) :
  forall l2, combine l1 (map g l2) = map (fun x => (fst x, g (snd x))) (combine l1 l2).
Proof.
  induction l1 as [|a l1 IH]; intros [|b l2]; cbn [combine map fst snd];
    try reflexivity.
  now rewrite IH.
Qed.

(** [argsort] of the keys of a list, through the list with positions. *)
Lemma argsort_map {A : Type} (key : A -> F) (l : list A) :
  argsort (map key l)
  = map fst (stable_sort (fun x => key (snd x)) (enumerate l)).
Proof.
  unfold argsort, enumerate. rewrite length_map, combine_map_r.
  rewrite (stable_sort_map (fun x : nat * A => (fst x, key (snd x)))
             (fun x => key (snd x)) (@snd nat F)); [|reflexivity].
  rewrite map_map. reflexivity.
Qed.

Lemma zip_with_map {A : Type} (f : F -> F -> F) (g h : A -> F) (l : list A) :
  zip_with f (map g l) (map h l) = map (fun x => f (g x) (h x)) l.
Proof.
  unfold zip_with. induction l as [|a l IH]; cbn [map combine fst snd];
    [reflexivity|now rewrite IH].
Qed.

Lemma item_map {A : Type} (f : A -> F) (l : list A) (i : nat) (x : A) :
  nth_error l i = Some x -> item (map f l) i = f x.
Proof.
  intros H. unfold item. apply nth_error_nth.
  now rewrite nth_error_map, H.
Qed.
End StableSortFacts.

(* ================================================================= *)
(** * [non_max_suppression_fast] on the detections themselves *)

Section ObjectView.
Context {F : Type} {num : Number F}.
Import Distancing.
Local Open Scope num_scope.

Lemma overlap_of_objects (object_list : list (Detection F)) (i j : nat)
      (oi oj : Detection F) :
  nth_error object_list i = Some oi ->
  nth_error object_list j = Some oj ->
  overlap_of
    (map (@at0 F) (map (@bbox F) object_list))
    (map (@at1 F) (map (@bbox F) object_list))
    (map (@at2 F) (map (@bbox F) object_list))
    (map (@at3 F) (map (@bbox F) object_list))
    (zip_with mul
       (map (fun v => v + of_int 1) (map (@at3 F) (map (@centroid F) object_list)))
       (map (fun v => v + of_int 1) (map (@at2 F) (map (@centroid F) object_list))))
    i j
  = box_overlap oi oj.
Proof.
  intros Hi Hj. unfold overlap_of, box_overlap, box_area.
  rewrite !map_map, zip_with_map.
  rewrite !(item_map _ _ _ Hi), !(item_map _ _ _ Hj). reflexivity.
Qed.

(** The function as the source has it, on arrays and indices, is the
    greedy rounds on the detections in the order of [candidates]; the
    loop ends within the rounds it is given. *)
Lemma non_max_suppression_fast_rounds
      (object_list : list (Detection F)) (overlapThresh : F) :
  exists picked,
    Greedy (suppresses overlapThresh) (candidates (enumerate object_list)) picked /\
    non_max_suppression_fast object_list overlapThresh
    = Some (map snd (select picked (enumerate object_list))).
Proof.
  destruct (Greedy_total (suppresses overlapThresh) (candidates (enumerate object_list)))
    as [picked Hpicked].
  exists picked. split; [exact Hpicked|].
  unfold non_max_suppression_fast.
  destruct (length (map (@centroid F) object_list) =? 0)%nat eqn:Hempty.
  { apply Nat.eqb_eq in Hempty. rewrite length_map in Hempty.
    apply length_zero_iff_nil in Hempty. subst object_list.
    inversion Hpicked. reflexivity. }
  clear Hempty. cbv zeta.
  set (x1 := map (@at0 F) (map (@bbox F) object_list)).
  set (y1 := map (@at1 F) (map (@bbox F) object_list)).
  set (x2 := map (@at2 F) (map (@bbox F) object_list)).
  set (y2 := map (@at3 F) (map (@bbox F) object_list)).
  set (area := zip_with mul _ _).
  rewrite !map_map, zip_with_map.
  change (map _ object_list) with (map bottom_edge object_list).
  rewrite argsort_map.
  fold placed_key.
  set (sorted := stable_sort _ (enumerate object_list)).
  destruct (@nms_loop_Greedy F num x1 y1 x2 y2 area overlapThresh
              (length (map fst sorted)) (map fst sorted) [] (le_n _))
    as [picked_at [Hrounds Hloop]].
  rewrite Hloop. cbn [app].
  assert (Hsame : picked_at = map fst picked).
  { eapply Greedy_functional; [exact Hrounds|].
    rewrite <- map_rev. apply Greedy_map with (dropsA := suppresses overlapThresh);
      [|exact Hpicked].
    intros [i oi] [j oj] Hi Hj. unfold candidates in Hi, Hj.
    apply in_rev, stable_sort_In, in_enumerate in Hi.
    apply in_rev, stable_sort_In, in_enumerate in Hj.
    unfold drops_at, suppresses. cbn [fst snd]. f_equal.
    subst x1 y1 x2 y2 area. now apply overlap_of_objects. }
  rewrite Hsame. reflexivity.
Qed.
End ObjectView.

(* ================================================================= *)
(** * Sorted lists *)

Section SortedFacts.
Context {A : Type}.

Lemma StronglySorted_weaken (R S : A -> A -> Prop) (l : list A) :
  (forall x y, R x y -> S x y) -> StronglySorted R l -> StronglySorted S l.
Proof.
  intros HRS. induction 1 as [|a l Hl IH Ha]; constructor; [exact IH|].
  eapply Forall_impl; [|exact Ha]. intros y. apply HRS.
Qed.

Lemma StronglySorted_snoc (R : A -> A -> Prop) (l : list A) (x : A) :
  StronglySorted R l -> Forall (fun y => R y x) l -> StronglySorted R (l ++ [x]).
Proof.
  induction 1 as [|a l Hl IH Ha]; intros Hx; cbn [app].
  - constructor; constructor.
  - inversion Hx; subst. constructor; [now apply IH|].
    apply Forall_app. split; [exact Ha|]. constructor; [assumption|constructor].
Qed.

Lemma StronglySorted_rev (R : A -> A -> Prop) (l : list A) :
  StronglySorted R l -> StronglySorted (fun x y => R y x) (rev l).
Proof.
  induction 1 as [|a l Hl IH Ha]; cbn [rev]; [constructor|].
  apply StronglySorted_snoc; [exact IH|].
  apply Forall_forall. intros y Hy. apply in_rev in Hy.
  rewrite Forall_forall in Ha. now apply Ha.
Qed.

(** Two lists sorted by one strict order, with the same elements, are the
    same list. *)
Lemma StronglySorted_unique (R : A -> A -> Prop) :
  (forall x, ~ R x x) -> (forall x y, R x y -> ~ R y x) ->
  forall l1 l2,
    StronglySorted R l1 -> StronglySorted R l2 -> Permutation l1 l2 -> l1 = l2.
Proof.
  intros Hirr Hasym l1. induction l1 as [|a l1 IH]; intros l2 H1 H2 Hp.
  - apply Permutation_nil in Hp. now subst.
  - destruct l2 as [|b l2].
    { apply Permutation_sym, Permutation_nil in Hp. discriminate. }
    apply StronglySorted_inv in H1. destruct H1 as [H1 Ha].
    apply StronglySorted_inv in H2. destruct H2 as [H2 Hb].
    rewrite Forall_forall in Ha, Hb.
    assert (Hab : a = b).
    { assert (Hin1 : In a (b :: l2))
        by (eapply Permutation_in; [exact Hp|now left]).
      assert (Hin2 : In b (a :: l1))
        by (eapply Permutation_in; [symmetry; exact Hp|now left]).
      destruct Hin1 as [Hin1|Hin1]; [now symmetry|].
      destruct Hin2 as [Hin2|Hin2]; [exact Hin2|].
      exfalso. exact (Hasym _ _ (Ha _ Hin2) (Hb _ Hin1)). }
    subst b. f_equal. apply IH; try assumption.
    eapply Permutation_cons_inv; exact Hp.
Qed.

Lemma filter_all (f : A -> bool) (l : list A) :
  (forall x, In x l -> f x = true) -> filter f l = l.
Proof.
  induction l as [|a l IH]; intros H; cbn [filter]; [reflexivity|].
  rewrite (H a (or_introl eq_refl)), IH; [reflexivity|].
  intros x Hx. apply H. now right.
Qed.
End SortedFacts.

Lemma combine_seq_ascending {A : Type} (l : list A) :
  forall s, ascending_positions (combine (seq s (length l)) l).
Proof.
  induction l as [|a l IH]; intros s; cbn [length seq combine]; [constructor|].
  constructor; [apply IH|].
  apply Forall_forall. intros [i x] Hin. apply in_combine_seq in Hin.
  cbn [fst]. lia.
Qed.

Lemma enumerate_ascending {A : Type} (l : list A) : ascending_positions (enumerate l).
Proof. apply combine_seq_ascending. Qed.

Lemma ascending_positions_NoDup {A : Type} (l : list (nat * A)) :
  ascending_positions l -> NoDup l.
Proof.
  induction 1 as [|a l Hl IH Ha]; constructor; [|exact IH].
  intros Hin. rewrite Forall_forall in Ha. specialize (Ha _ Hin). lia.
Qed.

Lemma ascending_positions_inj {A : Type} (l : list (nat * A)) :
  ascending_positions l ->
  forall x y, In x l -> In y l -> fst x = fst y -> x = y.
Proof.
  induction 1 as [|a l Hl IH Ha]; intros x y Hx Hy Hxy; [contradiction|].
  rewrite Forall_forall in Ha.
  destruct Hx as [Hx|Hx], Hy as [Hy|Hy]; subst.
  - reflexivity.
  - specialize (Ha _ Hy). lia.
  - specialize (Ha _ Hx). lia.
  - now apply IH.
Qed.

(** An enumerated list is any list with positions, renamed. *)
Lemma enumerate_rename {A : Type} (l : list (nat * A)) :
  forall before,
    map (fun x => (nth (fst x) (before ++ map fst l) 0%nat, snd x))
        (combine (seq (length before) (length (map snd l))) (map snd l))
    = l.
Proof.
  induction l as [|[t o] l IH]; intros before; [reflexivity|].
  cbn [map length seq combine fst snd]. rewrite nth_middle. f_equal.
  specialize (IH (before ++ [t])).
  rewrite <- app_assoc, length_app in IH. cbn [app length] in IH.
  rewrite Nat.add_1_r in IH. exact IH.
Qed.

(* ================================================================= *)
(** * The order of the candidates *)

Section SortOrder.
Context {F : Type} {num : Number F}.
Import Distancing.

(** What the proofs need of the order [argsort] sorts by: it is a strict
    weak order. *)
Hypothesis sort_asym :
  forall a b, sort_ltb a b = true -> sort_ltb b a = false.
Hypothesis sort_cotrans :
  forall a b c, sort_ltb a b = true -> sort_ltb a c = true \/ sort_ltb c b = true.

Lemma sort_irrefl (a : F) : sort_ltb a a = false.
Proof.
  destruct (sort_ltb a a) eqn:E; [|reflexivity].
  pose proof (sort_asym _ _ E). congruence.
Qed.

Section Earlier.
Context {A : Type} (key : A -> F) (tag : A -> nat).

Lemma earlier_irrefl (x : A) : ~ earlier key tag x x.
Proof. intros [H|[_ H]]; [rewrite sort_irrefl in H; discriminate|lia]. Qed.

Lemma earlier_trans (x y z : A) : earlier key tag x y -> earlier key tag y z -> earlier key tag x z.
Proof.
  unfold earlier. intros [Hxy|[Hxy Txy]] [Hyz|[Hyz Tyz]].
  - left. destruct (sort_cotrans _ _ (key z) Hxy) as [H|H]; [exact H|].
    pose proof (sort_asym _ _ Hyz). congruence.
  - left. destruct (sort_cotrans _ _ (key z) Hxy) as [H|H]; [exact H|congruence].
  - left. destruct (sort_cotrans _ _ (key x) Hyz) as [H|H]; [congruence|exact H].
  - right. split; [|lia].
    destruct (sort_ltb (key z) (key x)) eqn:E; [|reflexivity].
    destruct (sort_cotrans _ _ (key y) E) as [H|H]; congruence.
Qed.

Lemma earlier_asym (x y : A) : earlier key tag x y -> ~ earlier key tag y x.
Proof. intros H1 H2. exact (earlier_irrefl (earlier_trans H1 H2)). Qed.

(** Nothing that comes later has a smaller key. *)
Lemma earlier_key (x y : A) : earlier key tag x y -> sort_ltb (key y) (key x) = false.
Proof. intros [H|[H _]]; [now apply sort_asym|exact H]. Qed.

Lemma insert_In (x z : A) (l : list A) :
  In z (insert key x l) <-> z = x \/ In z l.
Proof.
  split.
  - intros H. eapply Permutation_in in H; [|apply insert_Permutation].
    destruct H; [left; congruence|now right].
  - intros H. eapply Permutation_in; [symmetry; apply insert_Permutation|].
    destruct H; [left; congruence|now right].
Qed.

Lemma insert_sorted (x : A) (sorted : list A) :
  StronglySorted (earlier key tag) sorted ->
  Forall (fun y => (tag x < tag y)%nat) sorted ->
  StronglySorted (earlier key tag) (insert key x sorted).
Proof.
  induction 1 as [|y rest Hrest IH Hy]; intros Htag; cbn [insert].
  - constructor; constructor.
  - inversion Htag as [|? ? Hty Htrest]; subst.
    destruct (sort_ltb (key y) (key x)) eqn:E.
    + constructor; [now apply IH|].
      apply Forall_forall. intros z Hz. apply insert_In in Hz.
      destruct Hz as [->|Hz]; [now left|].
      rewrite Forall_forall in Hy. now apply Hy.
    + assert (Hxy : earlier key tag x y) by (right; split; assumption).
      constructor; [now constructor|].
      constructor; [exact Hxy|].
      eapply Forall_impl; [|exact Hy].
      intros z Hz. exact (earlier_trans Hxy Hz).
Qed.

Lemma stable_sort_sorted (l : list A) :
  StronglySorted (fun x y => (tag x < tag y)%nat) l ->
  StronglySorted (earlier key tag) (stable_sort key l).
Proof.
  induction 1 as [|x l Hl IH Hx]; cbn [stable_sort]; [constructor|].
  apply insert_sorted; [exact IH|].
  apply Forall_forall. intros y Hy. apply stable_sort_In in Hy.
  rewrite Forall_forall in Hx. now apply Hx.
Qed.
End Earlier.

(** ** The rounds of the specification *)

Lemma spec_nms_rounds_ext (t : F) (u1 u2 kept : list (@Placed F)) :
  (forall x, In x u1 <-> In x u2) ->
  spec_nms_rounds t u1 kept -> spec_nms_rounds t u2 kept.
Proof.
  intros Hu H. destruct H as [|undecided undecided' b kept Hin Hmax Hnext Hrest].
  - destruct u2 as [|x u2]; [constructor|].
    exfalso. apply (proj2 (Hu x)). now left.
  - apply rounds_keep with (undecided' := undecided').
    + now apply Hu.
    + intros other Ho. apply Hmax. now apply Hu.
    + intros other. rewrite Hnext, Hu. reflexivity.
    + exact Hrest.
Qed.

Lemma Greedy_spec_nms_rounds (t : F) (d picked : list (@Placed F)) :
  NoDup d ->
  StronglySorted (fun x y => sort_ltb (placed_key x) (placed_key y) = false) d ->
  Greedy (suppresses t) d picked ->
  spec_nms_rounds t d picked.
Proof.
  intros Hnd Hs Hg. induction Hg as [|kept others picked Hg IH]; [constructor|].
  apply StronglySorted_inv in Hs. destruct Hs as [Hs Hk].
  inversion Hnd as [|? ? Hnotin Hnd']; subst.
  apply rounds_keep with (undecided' := survivors (suppresses t) kept others).
  - now left.
  - intros other [<-|Ho]; [apply sort_irrefl|].
    rewrite Forall_forall in Hk. now apply Hk.
  - intros other. unfold survivors. rewrite filter_In. unfold suppresses.
    split.
    + intros [Ho Hd]. split; [now right|]. split.
      * intros ->. contradiction.
      * now destruct (ltb t (box_overlap (snd kept) (snd other))).
    + intros [[Ho|Ho] [Hne Hd]]; [congruence|]. split; [exact Ho|].
      now rewrite Hd.
  - apply IH.
    + eapply Subsequence_NoDup; [apply Subsequence_filter|exact Hnd'].
    + eapply Subsequence_StronglySorted; [apply Subsequence_filter|exact Hs].
Qed.

(** The candidates of a list with ascending positions: sorted, bottom-most
    first. *)
Lemma candidates_sorted (placed : list (@Placed F)) :
  ascending_positions placed ->
  StronglySorted (fun x y => earlier placed_key fst y x) (candidates placed).
Proof.
  intros H. unfold candidates. apply StronglySorted_rev.
  now apply stable_sort_sorted.
Qed.

Lemma candidates_In (placed : list (@Placed F)) (x : @Placed F) :
  In x (candidates placed) <-> In x placed.
Proof. unfold candidates. now rewrite <- in_rev, stable_sort_In. Qed.

Lemma candidates_NoDup (placed : list (@Placed F)) :
  NoDup placed -> NoDup (candidates placed).
Proof.
  intros H. unfold candidates. apply NoDup_rev.
  eapply Permutation_NoDup; [symmetry; apply stable_sort_Permutation|exact H].
Qed.

Lemma candidates_length (placed : list (@Placed F)) :
  length (candidates placed) = length placed.
Proof.
  unfold candidates. rewrite length_rev.
  apply Permutation_length, stable_sort_Permutation.
Qed.

(** The rounds of the source are rounds of the specification. *)
Lemma candidates_spec_nms_rounds (t : F) (placed picked : list (@Placed F)) :
  ascending_positions placed ->
  Greedy (suppresses t) (candidates placed) picked ->
  spec_nms_rounds t placed picked.
Proof.
  intros Hasc Hg.
  apply spec_nms_rounds_ext with (u1 := candidates placed);
    [apply candidates_In|].
  apply Greedy_spec_nms_rounds; [| |exact Hg].
  - apply candidates_NoDup. now apply ascending_positions_NoDup.
  - eapply StronglySorted_weaken; [|apply candidates_sorted; exact Hasc].
    intros x y Hyx. cbv beta in Hyx. exact (earlier_key Hyx).
Qed.
(** ** Suppression of an already suppressed list *)

Lemma select_In (picked placed : list (@Placed F)) (x : @Placed F) :
  ascending_positions placed ->
  (forall y, In y picked -> In y placed) ->
  In x (select picked placed) <-> In x picked.
Proof.
  intros Hasc Hsub. unfold select. rewrite filter_In, py_in_In, in_map_iff.
  split.
  - intros [Hx [y [Hy Hin]]].
    rewrite (ascending_positions_inj Hasc x y); auto.
  - intros Hx. split; [now apply Hsub|]. now exists x.
Qed.

(** The rounds on what a first run has kept take the kept detections in
    the order in which the first run picked them. *)
Lemma candidates_select (t : F) (placed picked : list (@Placed F)) :
  ascending_positions placed ->
  Greedy (suppresses t) (candidates placed) picked ->
  candidates (select picked placed) = picked.
Proof.
  intros Hasc Hg.
  pose proof (Greedy_Subsequence Hg) as Hsub.
  assert (Hin : forall y, In y picked -> In y placed).
  { intros y Hy. apply candidates_In. eapply Subsequence_In; eauto. }
  assert (Hasc2 : ascending_positions (select picked placed)).
  { eapply Subsequence_StronglySorted; [apply Subsequence_filter|exact Hasc]. }
  unfold candidates at 1.
  rewrite <- (rev_involutive picked) at 2. f_equal.
  apply StronglySorted_unique with (R := earlier placed_key fst).
  - apply earlier_irrefl.
  - apply earlier_asym.
  - now apply stable_sort_sorted.
  - apply Subsequence_rev in Hsub. unfold candidates in Hsub.
    rewrite rev_involutive in Hsub.
    eapply Subsequence_StronglySorted; [exact Hsub|].
    now apply stable_sort_sorted.
  - rewrite stable_sort_Permutation, <- Permutation_rev.
    apply NoDup_Permutation.
    + now apply ascending_positions_NoDup.
    + eapply Subsequence_NoDup; [exact Hsub|].
      apply candidates_NoDup. now apply ascending_positions_NoDup.
    + intros x. now apply select_In.
Qed.

Lemma candidates_rename (positions : list nat) (placed : list (@Placed F)) :
  candidates (map (rename positions) placed)
  = map (rename positions) (candidates placed).
Proof.
  unfold candidates.
  rewrite (stable_sort_map (rename positions) placed_key placed_key);
    [|reflexivity].
  now rewrite map_rev.
Qed.

(** A second run keeps everything the first run kept. *)
Lemma second_run_keeps_all (t : F) (object_list : list (Detection F))
      (picked picked' : list (@Placed F)) :
  Greedy (suppresses t) (candidates (enumerate object_list)) picked ->
  Greedy (suppresses t)
    (candidates (enumerate (map snd (select picked (enumerate object_list)))))
    picked' ->
  select picked' (enumerate (map snd (select picked (enumerate object_list))))
  = enumerate (map snd (select picked (enumerate object_list))).
Proof.
  intros Hg Hg'.
  set (kept := select picked (enumerate object_list)) in *.
  set (again := enumerate (map snd kept)) in *.
  assert (Hkept : map (rename (map fst kept)) again = kept)
    by (apply (enumerate_rename kept [])).
  assert (Hrounds : Greedy (suppresses t) (candidates kept)
                      (map (rename (map fst kept)) picked')).
  { rewrite <- Hkept at 1. rewrite candidates_rename.
    apply Greedy_map with (dropsA := suppresses t); [|exact Hg'].
    intros x y _ _. reflexivity. }
  unfold kept in Hrounds at 1.
  rewrite (candidates_select (enumerate_ascending object_list) Hg) in Hrounds.
  pose proof (Greedy_functional Hrounds (Greedy_idempotent Hg)) as Hsame.
  assert (Hlen : length picked' = length again).
  { rewrite <- (length_map (rename (map fst kept)) picked'), Hsame.
    rewrite <- (candidates_select (enumerate_ascending object_list) Hg).
    fold kept. rewrite candidates_length, <- Hkept. apply length_map. }
  assert (Hall : incl again picked').
  { apply NoDup_length_incl.
    - eapply Subsequence_NoDup; [apply (Greedy_Subsequence Hg')|].
      apply candidates_NoDup, ascending_positions_NoDup, enumerate_ascending.
    - unfold Placed in Hlen. rewrite Hlen. apply le_n.
    - intros x Hx. apply (candidates_In again).
      eapply Subsequence_In; [apply (Greedy_Subsequence Hg')|exact Hx]. }
  unfold select. apply filter_all. intros x Hx.
  apply py_in_In, in_map. now apply Hall.
Qed.
End SortOrder.

(* ================================================================= *)
(** * The order of the real numbers *)

Lemma Rltb_true (a b : R) : Rltb a b = true <-> (a < b)%R.
Proof. unfold Rltb. destruct (Rlt_dec a b); split; intros; try discriminate; tauto. Qed.

Lemma Rltb_false (a b : R) : Rltb a b = false <-> (b <= a)%R.
Proof.
  unfold Rltb. destruct (Rlt_dec a b); split; intros; try discriminate;
    try reflexivity; lra.
Qed.

Lemma R_sort_asym (a b : R) : sort_ltb a b = true -> sort_ltb b a = false.
Proof. cbn [sort_ltb R_number]. rewrite Rltb_true, Rltb_false. lra. Qed.

Lemma R_sort_cotrans (a b c : R) :
  sort_ltb a b = true -> sort_ltb a c = true \/ sort_ltb c b = true.
Proof.
  cbn [sort_ltb R_number]. rewrite !Rltb_true. intros H.
  destruct (Rlt_dec a c); [now left|right; lra].
Qed.

(* ================================================================= *)
(** * Non-maximum suppression: the claims *)

(** C10.  For every list of detections and every threshold,
    [non_max_suppression_fast] returns, and what it returns is a
    subsequence of its input: the kept detections, in the order they have in
    the input list.  This holds in every number system. *)
Theorem non_max_suppression_fast_subsequence :
  forall (F : Type) (num : Number F)
         (object_list : list (Detection F)) (overlapThresh : F),
  exists kept,
    Distancing.non_max_suppression_fast object_list overlapThresh = Some kept /\
    Subsequence kept object_list.
Proof.
  intros F num object_list overlapThresh.
  destruct (non_max_suppression_fast_rounds object_list overlapThresh)
    as [picked [_ Hrun]].
  eexists. split; [exact Hrun|].
  rewrite <- (map_snd_enumerate object_list) at 2.
  apply Subsequence_map, Subsequence_filter.
Qed.

(** Suppression of an already suppressed list changes nothing, whenever
    [argsort] sorts by a strict weak order. *)
Lemma non_max_suppression_fast_again
      (F : Type) (num : Number F)
      (sort_asym : forall a b : F, sort_ltb a b = true -> sort_ltb b a = false)
      (sort_cotrans : forall a b c : F,
          sort_ltb a b = true -> sort_ltb a c = true \/ sort_ltb c b = true)
      (object_list : list (Detection F)) (overlapThresh : F) :
  exists kept,
    Distancing.non_max_suppression_fast object_list overlapThresh = Some kept /\
    Distancing.non_max_suppression_fast kept overlapThresh = Some kept.
Proof.
  destruct (non_max_suppression_fast_rounds object_list overlapThresh)
    as [picked [Hg Hrun]].
  eexists. split; [exact Hrun|].
  destruct (non_max_suppression_fast_rounds
              (map snd (select picked (enumerate object_list))) overlapThresh)
    as [picked' [Hg' Hrun']].
  rewrite Hrun'.
  rewrite (second_run_keeps_all sort_asym sort_cotrans _ Hg Hg').
  now rewrite map_snd_enumerate.
Qed.

(** ** The example of the specification *)

Ltac real_arith :=
  cbv [placed_key bottom_edge suppresses box_overlap box_area snd fst
       box_A box_B Distancing.derive_fields centroid bbox at0 at1 at2 at3
       add sub mul div of_int maximum minimum ltb sort_ltb quarter R_number];
  unfold Rmax, Rmin;
  repeat match goal with
         | |- context [Rle_dec ?a ?b] =>
             lazymatch a with context [Rle_dec] => fail | _ => idtac end;
             lazymatch b with context [Rle_dec] => fail | _ => idtac end;
             destruct (Rle_dec a b); try (exfalso; lra)
         end;
  try (apply Rltb_true; lra); try (apply Rltb_false; lra); try lra.

Lemma bottom_edge_A : bottom_edge box_A = 0.3%R.
Proof. real_arith. Qed.

Lemma bottom_edge_B : bottom_edge box_B = 0.32%R.
Proof. real_arith. Qed.

Lemma B_suppresses_A (i j : nat) : suppresses 0.3%R (i, box_B) (j, box_A) = true.
Proof. real_arith. Qed.

Lemma example_A_then_B :
  Distancing.non_max_suppression_fast [box_A; box_B] 0.3%R = Some [box_B].
Proof.
  destruct (non_max_suppression_fast_rounds [box_A; box_B] 0.3%R)
    as [picked [Hg Hrun]].
  rewrite Hrun.
  assert (Hp : picked = [(1%nat, box_B)]).
  { eapply Greedy_functional; [exact Hg|].
    unfold candidates, enumerate.
    cbn [length seq combine Distancing.stable_sort Distancing.insert].
    replace (sort_ltb (placed_key (1%nat, box_B)) (placed_key (0%nat, box_A)))
      with false by (symmetry; real_arith).
    cbn [rev app]. constructor. unfold survivors. cbn [filter].
    rewrite B_suppresses_A. cbn [negb]. constructor. }
  subst picked. reflexivity.
Qed.

Lemma example_B_then_A :
  Distancing.non_max_suppression_fast [box_B; box_A] 0.3%R = Some [box_B].
Proof.
  destruct (non_max_suppression_fast_rounds [box_B; box_A] 0.3%R)
    as [picked [Hg Hrun]].
  rewrite Hrun.
  assert (Hp : picked = [(0%nat, box_B)]).
  { eapply Greedy_functional; [exact Hg|].
    unfold candidates, enumerate.
    cbn [length seq combine Distancing.stable_sort Distancing.insert].
    replace (sort_ltb (placed_key (1%nat, box_A)) (placed_key (0%nat, box_B)))
      with true by (symmetry; real_arith).
    cbn [Distancing.insert rev app]. constructor. unfold survivors. cbn [filter].
    rewrite B_suppresses_A. cbn [negb]. constructor. }
  subst picked. reflexivity.
Qed.

(** C3.  [non_max_suppression_fast] takes the detections in descending
    order of [cy + h/2]: it returns, in input order, the detections kept by
    the rounds of the specification, each of which keeps an undecided
    detection of largest [cy + h/2] and drops the undecided detections
    whose overlap with it (clipped intersection over [(h+1)*(w+1)]) exceeds
    the threshold.  For the boxes A and B of the example, at threshold 0.3,
    B is kept and A is dropped, in whichever order they come. *)
Theorem non_max_suppression_fast_bottom_most_first :
  (forall (object_list : list (Detection R)) (overlapThresh : R),
      exists kept,
        spec_nms_rounds overlapThresh (enumerate object_list) kept /\
        Distancing.non_max_suppression_fast object_list overlapThresh
        = Some (map snd (select kept (enumerate object_list)))) /\
  Distancing.non_max_suppression_fast [box_A; box_B] 0.3%R = Some [box_B] /\
  Distancing.non_max_suppression_fast [box_B; box_A] 0.3%R = Some [box_B].
Proof.
  split; [|split; [exact example_A_then_B|exact example_B_then_A]].
  intros object_list overlapThresh.
  destruct (non_max_suppression_fast_rounds object_list overlapThresh)
    as [picked [Hg Hrun]].
  exists picked. split; [|exact Hrun].
  apply (candidates_spec_nms_rounds R_sort_asym R_sort_cotrans).
  - apply enumerate_ascending.
  - exact Hg.
Qed.

(* ================================================================= *)
(** * The distance estimator over the real numbers *)

Section Estimator.
Import Distancing.
Local Open Scope R_scope.

(** ** Loops that may fail *)

Lemma for_each_Some {A B : Type} (f : A -> option B) :
  forall (l : list A) (bs : list B),
    for_each f l = Some bs ->
    length bs = length l /\
    forall k a, nth_error l k = Some a ->
                exists b, f a = Some b /\ nth_error bs k = Some b.
Proof.
  induction l as [|a l IH]; intros bs H; cbn [for_each] in H.
  - inversion H; subst. split; [reflexivity|]. intros [|k] x; discriminate.
  - destruct (f a) as [b|] eqn:Hfa; [|discriminate].
    destruct (for_each f l) as [bs'|] eqn:Hl; [|discriminate].
    inversion H; subst. destruct (IH bs' eq_refl) as [Hlen Hnth].
    split; [cbn [length]; now rewrite Hlen|].
    intros [|k] x Hx; cbn [nth_error] in Hx |- *.
    + inversion Hx; subst. now exists b.
    + now apply Hnth.
Qed.

Lemma for_each_total {A B : Type} (f : A -> option B) :
  forall l : list A,
    (forall a, In a l -> exists b, f a = Some b) ->
    exists bs, for_each f l = Some bs.
Proof.
  induction l as [|a l IH]; intros H; cbn [for_each]; [now exists []|].
  destruct (H a (or_introl eq_refl)) as [b ->].
  destruct IH as [bs ->]; [intros x Hx; apply H; now right|].
  now exists (b :: bs).
Qed.

Lemma nth_error_seq (n i : nat) : (i < n)%nat -> nth_error (seq 0 n) i = Some i.
Proof.
  intros H. rewrite (nth_error_nth' _ 0%nat); [|now rewrite length_seq].
  now rewrite seq_nth.
Qed.

(** The matrix built by the two nested loops holds, at [i], [j], what the
    body computes for [i] and [j]. *)
Lemma nested_loops_entries {B : Type} (body : nat -> nat -> option B)
      (n : nat) (matrix : list (list B)) :
  for_each (fun i => for_each (fun j => body i j) (seq 0 n)) (seq 0 n) = Some matrix ->
  length matrix = n /\
  (forall row, In row matrix -> length row = n) /\
  (forall i j, (i < n)%nat -> (j < n)%nat ->
               exists v, body i j = Some v /\ entry matrix i j = Some v).
Proof.
  intros H. destruct (for_each_Some _ _ H) as [Hlen Hrows].
  rewrite length_seq in Hlen. split; [exact Hlen|]. split.
  - intros row Hrow. apply In_nth_error in Hrow. destruct Hrow as [i Hi].
    assert (Hlt : (i < n)%nat)
      by (rewrite <- Hlen; apply nth_error_Some; congruence).
    destruct (Hrows i i (nth_error_seq Hlt)) as [row' [Hrow' Hi']].
    assert (row' = row) by congruence. subst row'.
    destruct (for_each_Some _ _ Hrow') as [Hl _]. now rewrite length_seq in Hl.
  - intros i j Hi Hj.
    destruct (Hrows i i (nth_error_seq Hi)) as [row [Hrow Hnth]].
    destruct (for_each_Some _ _ Hrow) as [_ Hcells].
    destruct (Hcells j j (nth_error_seq Hj)) as [v [Hv Hcell]].
    exists v. split; [exact Hv|]. unfold entry. now rewrite Hnth.
Qed.

Lemma nested_loops_total {B : Type} (body : nat -> nat -> option B) (n : nat) :
  (forall i j, (i < n)%nat -> (j < n)%nat -> exists v, body i j = Some v) ->
  exists matrix, for_each (fun i => for_each (fun j => body i j) (seq 0 n)) (seq 0 n) = Some matrix.
Proof.
  intros H. apply for_each_total. intros i Hi. apply in_seq in Hi.
  apply for_each_total. intros j Hj. apply in_seq in Hj.
  apply H; lia.
Qed.

(** ** The pinhole formula *)

Lemma pydiv_R (a b : R) :
  pydiv a b = if Req_dec_T b 0 then None else Some (a / b).
Proof. unfold pydiv. cbn [is_zero div R_number]. unfold Req_zero.
       now destruct (Req_dec_T b 0). Qed.

Lemma pydiv_nonzero (a b : R) : b <> 0 -> pydiv a b = Some (a / b).
Proof. intros H. rewrite pydiv_R. now destruct (Req_dec_T b 0). Qed.

Lemma pydiv_zero (a : R) : pydiv a 0 = None.
Proof. rewrite pydiv_R. now destruct (Req_dec_T 0 0). Qed.

Lemma two_points_pinhole (x1 y1 h1 x2 y2 h2 : R) :
  h1 <> 0 -> h2 <> 0 ->
  calculate_distance_of_two_points_of_boxes (x1, y1, h1) (x2, y2, h2)
  = Some (pinhole_distance (x1, y1, h1) (x2, y2, h2)).
Proof.
  intros H1 H2. unfold calculate_distance_of_two_points_of_boxes.
  rewrite (pydiv_nonzero _ H1), (pydiv_nonzero _ H2).
  unfold pinhole_distance, square. cbn [add sub mul div of_int sqrt R_number].
  do 2 f_equal. ring.
Qed.

Lemma two_points_zero_height (x1 y1 h1 x2 y2 h2 : R) :
  h1 = 0 \/ h2 = 0 ->
  calculate_distance_of_two_points_of_boxes (x1, y1, h1) (x2, y2, h2) = None.
Proof.
  intros H. unfold calculate_distance_of_two_points_of_boxes.
  rewrite !pydiv_R. cbn [of_int R_number].
  destruct (Req_dec_T h1 0); [reflexivity|].
  destruct (Req_dec_T h2 0); [reflexivity|]. tauto.
Qed.

Lemma pinhole_distance_sym (p q : R * R * R) :
  pinhole_distance p q = pinhole_distance q p.
Proof.
  destruct p as [[x1 y1] h1], q as [[x2 y2] h2]. unfold pinhole_distance.
  f_equal. unfold Rdiv. ring.
Qed.

(** The distance of two points does not depend on their order, whether it
    is a number or a division by zero. *)
Lemma two_points_sym (p q : R * R * R) :
  calculate_distance_of_two_points_of_boxes p q
  = calculate_distance_of_two_points_of_boxes q p.
Proof.
  destruct p as [[x1 y1] h1], q as [[x2 y2] h2].
  destruct (Req_dec_T h1 0) as [Z1|N1].
  { rewrite !two_points_zero_height; tauto. }
  destruct (Req_dec_T h2 0) as [Z2|N2].
  { rewrite !two_points_zero_height; tauto. }
  rewrite !two_points_pinhole by assumption.
  now rewrite pinhole_distance_sym.
Qed.


End Estimator.

(* ================================================================= *)
(** * The distance matrix *)

Section DistanceMatrix.
Import Distancing.
Local Open Scope R_scope.

(** ** One entry of the pinhole methods *)

Lemma box_distance_diagonal (dist_method : DistMethod)
      (nn_out : list (Detection R)) (i : nat) :
  box_distance dist_method nn_out i i = Some 0.
Proof. unfold box_distance. now rewrite Nat.eqb_refl. Qed.

Lemma box_distance_center (nn_out : list (Detection R)) (i j : nat)
      (oi oj : Detection R) :
  nth_error nn_out i = Some oi -> nth_error nn_out j = Some oj -> i <> j ->
  box_distance CenterPointsDistance nn_out i j
  = calculate_distance_of_two_points_of_boxes (center_point oi) (center_point oj).
Proof.
  intros Hi Hj Hne. unfold box_distance, subscript.
  replace (i =? j)%nat with false by (symmetry; now apply Nat.eqb_neq).
  now rewrite Hi, Hj.
Qed.

Lemma box_distance_corners (nn_out : list (Detection R)) (i j : nat)
      (oi oj : Detection R) :
  nth_error nn_out i = Some oi -> nth_error nn_out j = Some oj -> i <> j ->
  box_distance FourCornerPointsDistance nn_out i j
  = match calculate_distance_of_two_points_of_boxes (lower_left oi) (lower_left oj) with
    | Some l1 =>
      match calculate_distance_of_two_points_of_boxes (lower_right oi) (lower_right oj) with
      | Some l2 =>
        match calculate_distance_of_two_points_of_boxes (upper_left oi) (upper_left oj) with
        | Some l3 =>
          match calculate_distance_of_two_points_of_boxes (upper_right oi) (upper_right oj) with
          | Some l4 => Some (pymin4 l1 l2 l3 l4)
          | None => None
          end
        | None => None
        end
      | None => None
      end
    | None => None
    end.
Proof.
  intros Hi Hj Hne. unfold box_distance, subscript.
  replace (i =? j)%nat with false by (symmetry; now apply Nat.eqb_neq).
  now rewrite Hi, Hj.
Qed.

Lemma box_distance_sym (dist_method : DistMethod)
      (nn_out : list (Detection R)) (i j : nat) :
  (i < length nn_out)%nat -> (j < length nn_out)%nat ->
  box_distance dist_method nn_out i j = box_distance dist_method nn_out j i.
Proof.
  intros Hi Hj. destruct (Nat.eq_dec i j) as [->|Hne]; [reflexivity|].
  destruct (nth_error nn_out i) as [oi|] eqn:Ei;
    [|apply nth_error_None in Ei; lia].
  destruct (nth_error nn_out j) as [oj|] eqn:Ej;
    [|apply nth_error_None in Ej; lia].
  destruct dist_method.
  - unfold box_distance, subscript.
    replace (i =? j)%nat with false by (symmetry; now apply Nat.eqb_neq).
    replace (j =? i)%nat with false by (symmetry; apply Nat.eqb_neq; congruence).
    now rewrite Ei, Ej.
  - rewrite (box_distance_center _ Ei Ej), (box_distance_center _ Ej Ei);
      [apply two_points_sym|congruence|exact Hne].
  - rewrite (box_distance_corners _ Ei Ej), (box_distance_corners _ Ej Ei);
      [|congruence|exact Hne].
    rewrite (two_points_sym (lower_left oi)), (two_points_sym (lower_right oi)),
      (two_points_sym (upper_left oi)), (two_points_sym (upper_right oi)).
    reflexivity.
Qed.

Lemma box_distance_defined (dist_method : DistMethod)
      (nn_out : list (Detection R)) (i j : nat) :
  dist_method <> CalibratedDistance ->
  (forall o, In o nn_out -> pixel_height o <> 0) ->
  (i < length nn_out)%nat -> (j < length nn_out)%nat ->
  exists v, box_distance dist_method nn_out i j = Some v.
Proof.
  intros Hm Hh Hi Hj. destruct (Nat.eq_dec i j) as [->|Hne].
  { exists 0. apply box_distance_diagonal. }
  destruct (nth_error nn_out i) as [oi|] eqn:Ei;
    [|apply nth_error_None in Ei; lia].
  destruct (nth_error nn_out j) as [oj|] eqn:Ej;
    [|apply nth_error_None in Ej; lia].
  pose proof (Hh oi (nth_error_In _ _ Ei)) as Hoi.
  pose proof (Hh oj (nth_error_In _ _ Ej)) as Hoj.
  unfold pixel_height in Hoi, Hoj.
  destruct dist_method; [congruence| |].
  - rewrite (box_distance_center _ Ei Ej Hne). unfold center_point.
    rewrite two_points_pinhole by assumption. eauto.
  - rewrite (box_distance_corners _ Ei Ej Hne).
    unfold lower_left, lower_right, upper_left, upper_right.
    rewrite !two_points_pinhole by assumption. eauto.
Qed.

(** ** The matrix of the pinhole methods *)

Lemma map_float32_R (matrix : list (list R)) : map (map float32) matrix = matrix.
Proof.
  cbn [float32 R_number]. rewrite <- (map_id matrix) at 2.
  apply map_ext. intros row. apply map_id.
Qed.

Lemma pinhole_matrix (dist_method : DistMethod) (h_inv : @Mat3 R)
      (nn_out : list (Detection R)) (matrix : list (list R)) :
  dist_method <> CalibratedDistance ->
  calculate_box_distances dist_method h_inv nn_out = Some matrix ->
  length matrix = length nn_out /\
  (forall row, In row matrix -> length row = length nn_out) /\
  (forall i j, (i < length nn_out)%nat -> (j < length nn_out)%nat ->
               exists v, box_distance dist_method nn_out i j = Some v /\
                         entry matrix i j = Some v).
Proof.
  intros Hm H. unfold calculate_box_distances in H.
  destruct dist_method; [congruence| |];
    match type of H with
    | match ?loops with _ => _ end = _ => destruct loops as [d|] eqn:Hd; [|discriminate]
    end;
    rewrite map_float32_R in H; inversion H; subst d;
    exact (nested_loops_entries _ _ Hd).
Qed.

Lemma pinhole_matrix_total (dist_method : DistMethod) (h_inv : @Mat3 R)
      (nn_out : list (Detection R)) :
  dist_method <> CalibratedDistance ->
  (length nn_out <= 1)%nat \/ (forall o, In o nn_out -> pixel_height o <> 0) ->
  exists matrix, calculate_box_distances dist_method h_inv nn_out = Some matrix.
Proof.
  intros Hm Hh.
  assert (Hbody : forall i j, (i < length nn_out)%nat -> (j < length nn_out)%nat ->
                    exists v, box_distance dist_method nn_out i j = Some v).
  { intros i j Hi Hj. destruct Hh as [Hshort|Hh].
    - assert (i = j) by lia. subst j. exists 0. apply box_distance_diagonal.
    - now apply box_distance_defined. }
  destruct (nested_loops_total _ Hbody) as [d Hd].
  exists (map (map float32) d). unfold calculate_box_distances.
  destruct dist_method; [congruence| |]; now rewrite Hd.
Qed.

(** ** The matrix of the calibrated method *)

Lemma entry_cdist (XA XB : list (R * R)) (i j : nat) (u v : R * R) :
  nth_error XA i = Some u -> nth_error XB j = Some v ->
  entry (cdist XA XB) i j = Some (euclidean u v).
Proof.
  intros Hu Hv. unfold entry, cdist.
  rewrite (map_nth_error _ _ _ Hu). now apply map_nth_error.
Qed.

Lemma euclidean_self (u : R * R) : @euclidean R _ u u = 0.
Proof.
  unfold euclidean, square. cbn [add sub mul sqrt R_number].
  replace ((fst u - fst u) * (fst u - fst u) + (snd u - snd u) * (snd u - snd u))
    with 0 by ring.
  apply sqrt_0.
Qed.

Lemma euclidean_sym (u v : R * R) : @euclidean R _ u v = euclidean v u.
Proof.
  unfold euclidean, square. cbn [add sub mul sqrt R_number]. f_equal. ring.
Qed.

Lemma transform_defined (h_inv : @Mat3 R) (o : Detection R) :
  homogeneous h_inv o <> 0 ->
  transform_to_world_coordinate h_inv o
  = Some (fst (fst (matmul h_inv (floor_point o))) / homogeneous h_inv o,
          snd (fst (matmul h_inv (floor_point o))) / homogeneous h_inv o).
Proof.
  intros H. unfold transform_to_world_coordinate, homogeneous in *.
  change (trunc ((at0 (bboxReal o) + at2 (bboxReal o)) / of_int 2)%num,
          at3 (bboxReal o), of_int 1) with (floor_point o).
  destruct (matmul h_inv (floor_point o)) as [[X Y] W]. cbn [fst snd] in *.
  now rewrite !pydiv_nonzero by assumption.
Qed.

Lemma calibrated_matrix (h_inv : @Mat3 R) (nn_out : list (Detection R)) :
  (forall o, In o nn_out -> homogeneous h_inv o <> 0) ->
  exists points,
    for_each (transform_to_world_coordinate h_inv) nn_out = Some points /\
    length points = length nn_out /\
    calculate_box_distances CalibratedDistance h_inv nn_out
    = Some (cdist points points).
Proof.
  intros Hw.
  destruct (for_each_total (transform_to_world_coordinate h_inv) nn_out)
    as [points Hp].
  { intros o Ho. rewrite (transform_defined _ _ (Hw o Ho)). eauto. }
  exists points. destruct (for_each_Some _ _ Hp) as [Hlen _].
  split; [exact Hp|]. split; [exact Hlen|].
  unfold calculate_box_distances. rewrite Hp.
  destruct points; reflexivity.
Qed.
End DistanceMatrix.

(* ================================================================= *)
(** * The distance matrix: the claims *)

Local Open Scope R_scope.

Ltac pixel_arith :=
  cbv [pixel_height center_point lower_left lower_right upper_left upper_right
       flat_box box_A box_B Distancing.derive_fields
       centroidReal bboxReal centroid bbox at0 at1 at2 at3
       add sub mul div of_int R_number];
  lra.

(** C5, as the specification states it, fails on two boxes without height:
    their distance divides by the height, and no matrix is returned. *)
Lemma distance_matrix_flat_boxes :
  Distancing.calculate_box_distances CenterPointsDistance identity_homography
    [flat_box; flat_box] = None
  /\ Distancing.calculate_box_distances FourCornerPointsDistance identity_homography
       [flat_box; flat_box] = None.
Proof.
  assert (Hflat : pixel_height flat_box = 0) by pixel_arith.
  split.
  - unfold Distancing.calculate_box_distances.
    cbn [length seq Distancing.for_each].
    rewrite box_distance_diagonal.
    rewrite (@box_distance_center [flat_box; flat_box] 0 1 flat_box flat_box)
      by (reflexivity || discriminate).
    unfold center_point. fold (pixel_height flat_box). rewrite Hflat.
    rewrite two_points_zero_height by now left. reflexivity.
  - unfold Distancing.calculate_box_distances.
    cbn [length seq Distancing.for_each].
    rewrite box_distance_diagonal.
    rewrite (@box_distance_corners [flat_box; flat_box] 0 1 flat_box flat_box)
      by (reflexivity || discriminate).
    unfold lower_left. fold (pixel_height flat_box). rewrite Hflat.
    rewrite two_points_zero_height by now left. reflexivity.
Qed.

(** C5, amended.  For every list of N >= 0 tracked objects and each of the
    three methods, if no division has a zero divisor (pinhole methods: at
    most one object, or no box of pixel height zero; calibrated method: no
    box whose image has the homogeneous coordinate zero), then
    [calculate_box_distances] returns an N x N matrix with a zero diagonal
    and [matrix[i][j] = matrix[j][i]]; for N = 0 it is the empty matrix. *)
Theorem distance_matrix_symmetric_zero_diagonal :
  forall (dist_method : DistMethod) (h_inv : @Distancing.Mat3 R)
         (nn_out : list (Detection R)),
    no_zero_division dist_method h_inv nn_out ->
    exists matrix,
      Distancing.calculate_box_distances dist_method h_inv nn_out = Some matrix /\
      length matrix = length nn_out /\
      (forall row, In row matrix -> length row = length nn_out) /\
      (forall i, (i < length nn_out)%nat -> entry matrix i i = Some 0) /\
      (forall i j, (i < length nn_out)%nat -> (j < length nn_out)%nat ->
                   exists v, entry matrix i j = Some v /\ entry matrix j i = Some v) /\
      (nn_out = [] -> matrix = []).
Proof.
  intros dist_method h_inv nn_out Hok.
  assert (Hempty : forall matrix : list (list R),
             length matrix = length nn_out -> nn_out = [] -> matrix = []).
  { intros matrix Hlen ->. now apply length_zero_iff_nil. }
  destruct (DistMethod_eq_dec dist_method CalibratedDistance) as [->|Hm].
  - destruct (calibrated_matrix h_inv nn_out Hok) as [points [Hp [Hlen Hrun]]].
    exists (Distancing.cdist points points).
    assert (Hrows : length (Distancing.cdist points points) = length nn_out)
      by (unfold Distancing.cdist; now rewrite length_map).
    split; [exact Hrun|]. split; [exact Hrows|]. split; [|split; [|split]].
    + intros row Hrow. unfold Distancing.cdist in Hrow.
      apply in_map_iff in Hrow. destruct Hrow as [u [<- _]].
      now rewrite length_map.
    + intros i Hi.
      destruct (nth_error points i) as [u|] eqn:Eu;
        [|apply nth_error_None in Eu; lia].
      rewrite (entry_cdist _ _ _ _ Eu Eu). now rewrite euclidean_self.
    + intros i j Hi Hj.
      destruct (nth_error points i) as [u|] eqn:Eu;
        [|apply nth_error_None in Eu; lia].
      destruct (nth_error points j) as [v|] eqn:Ev;
        [|apply nth_error_None in Ev; lia].
      exists (Distancing.euclidean u v).
      rewrite (entry_cdist _ _ _ _ Eu Ev), (entry_cdist _ _ _ _ Ev Eu).
      now rewrite (euclidean_sym v u).
    + now apply Hempty.
  - assert (Hh : (length nn_out <= 1)%nat \/
                 (forall o, In o nn_out -> pixel_height o <> 0))
      by (destruct dist_method; [congruence|exact Hok|exact Hok]).
    destruct (@pinhole_matrix_total dist_method h_inv nn_out Hm Hh) as [matrix Hrun].
    destruct (@pinhole_matrix dist_method h_inv nn_out matrix Hm Hrun)
      as [Hlen [Hrows Hentries]].
    exists matrix. split; [exact Hrun|]. split; [exact Hlen|].
    split; [exact Hrows|]. split; [|split].
    + intros i Hi. destruct (Hentries i i Hi Hi) as [v [Hv He]].
      rewrite box_distance_diagonal in Hv. congruence.
    + intros i j Hi Hj.
      destruct (Hentries i j Hi Hj) as [v [Hv He]].
      destruct (Hentries j i Hj Hi) as [v' [Hv' He']].
      rewrite (@box_distance_sym dist_method nn_out i j Hi Hj) in Hv.
      exists v. split; [exact He|]. congruence.
    + now apply Hempty.
Qed.

(* ================================================================= *)
(** * The calibrated method: world coordinates *)

Lemma Rtrunc_between (z : Z) (x : R) :
  (0 <= z)%Z -> IZR z <= x < IZR z + 1 -> Rtrunc x = IZR z.
Proof.
  intros Hz Hx. unfold Rtrunc.
  assert (0 <= IZR z) by now apply IZR_le.
  destruct (Rle_dec 0 x); [|lra].
  now rewrite (Zfloor_eq z x).
Qed.

Lemma transform_world_point (h_inv : @Distancing.Mat3 R) (o : Detection R) :
  homogeneous h_inv o <> 0 ->
  Distancing.transform_to_world_coordinate h_inv o = Some (world_point h_inv o).
Proof.
  intros H. rewrite (transform_defined _ _ H).
  unfold world_point, project, homogeneous.
  change (Rtrunc ((at0 (bboxReal o) + at2 (bboxReal o)) / 2), at3 (bboxReal o), 1)
    with (floor_point o).
  now destruct (Distancing.matmul h_inv (floor_point o)) as [[X Y] W].
Qed.

Lemma homogeneous_identity (o : Detection R) : homogeneous identity_homography o = 1.
Proof.
  unfold homogeneous, identity_homography, floor_point.
  cbn [Distancing.matmul Distancing.dot snd add mul R_number]. ring.
Qed.

Lemma project_identity (x y : R) : project identity_homography (x, y, 1) = (x, y).
Proof.
  unfold project, identity_homography.
  cbn [Distancing.matmul Distancing.dot add mul R_number]. f_equal; field.
Qed.

(** C8, as the specification states it, fails on box B under the identity
    homography: the bottom center of B is at x = 140.8, and the function
    projects x = 140. *)
Lemma world_point_of_box_B :
  Distancing.transform_to_world_coordinate identity_homography box_B
  = Some (140, 153.6) /\
  claimed_world_point identity_homography box_B = (140.8, 153.6) /\
  (140, 153.6) <> (140.8, 153.6).
Proof.
  assert (Hx : (at0 (bboxReal box_B) + at2 (bboxReal box_B)) / 2 = 140.8)
    by pixel_arith.
  assert (Hy : at3 (bboxReal box_B) = 153.6) by pixel_arith.
  split; [|split].
  - rewrite transform_world_point by (rewrite homogeneous_identity; lra).
    unfold world_point. rewrite Hx, Hy, project_identity.
    rewrite (@Rtrunc_between 140 140.8) by (try lia; lra). reflexivity.
  - unfold claimed_world_point. now rewrite Hx, Hy, project_identity.
  - intros H. inversion H. lra.
Qed.

Lemma euclidean_formula (u v : R * R) :
  @Distancing.euclidean R _ u v
  = R_sqrt.sqrt ((fst u - fst v) ^ 2 + (snd u - snd v) ^ 2).
Proof.
  unfold Distancing.euclidean, square. cbn [add sub mul sqrt R_number].
  f_equal. ring.
Qed.

(** C8, amended.  Under CalibratedDistance the world point of an object is
    the homogeneous point [(int((x0 + x2) / 2), y1, 1)] (the first
    coordinate cut to an integer, toward zero) projected through the
    inverse homography and divided by the resulting homogeneous coordinate,
    and the matrix entry [i][j] is the Euclidean distance between the world
    points of the objects i and j (no homogeneous coordinate being zero). *)
Theorem calibrated_distance_world_points :
  forall (h_inv : @Distancing.Mat3 R) (nn_out : list (Detection R)),
    (forall o, In o nn_out -> homogeneous h_inv o <> 0) ->
    (forall o, In o nn_out ->
       Distancing.transform_to_world_coordinate h_inv o = Some (world_point h_inv o)) /\
    exists matrix,
      Distancing.calculate_box_distances CalibratedDistance h_inv nn_out = Some matrix /\
      forall i j oi oj,
        nth_error nn_out i = Some oi -> nth_error nn_out j = Some oj ->
        entry matrix i j
        = Some (R_sqrt.sqrt
                  ((fst (world_point h_inv oi) - fst (world_point h_inv oj)) ^ 2
                   + (snd (world_point h_inv oi) - snd (world_point h_inv oj)) ^ 2)).
Proof.
  intros h_inv nn_out Hw. split.
  - intros o Ho. apply transform_world_point. now apply Hw.
  - destruct (calibrated_matrix h_inv nn_out Hw) as [points [Hp [Hlen Hrun]]].
    exists (Distancing.cdist points points). split; [exact Hrun|].
    intros i j oi oj Hi Hj.
    destruct (for_each_Some _ _ Hp) as [_ Hnth].
    destruct (Hnth i oi Hi) as [pi [Hpi Hni]].
    destruct (Hnth j oj Hj) as [pj [Hpj Hnj]].
    rewrite transform_world_point in Hpi
      by (apply Hw; eapply nth_error_In; eassumption).
    rewrite transform_world_point in Hpj
      by (apply Hw; eapply nth_error_In; eassumption).
    inversion Hpi; inversion Hpj; subst pi pj.
    rewrite (entry_cdist _ _ _ _ Hni Hnj). now rewrite euclidean_formula.
Qed.

(* ================================================================= *)
(** * A start whose source does not open *)

Section SourceFailsToOpen.
Import Orchestrator.
Local Open Scope string_scope.
Local Open Scope list_scope.

Lemma existsb_app_false {A : Type} (f : A -> bool) (l1 l2 : list A) :
  existsb f l1 = false -> existsb f l2 = false -> existsb f (l1 ++ l2) = false.
Proof. intros H1 H2. now rewrite existsb_app, H1, H2. Qed.

(** The start up to the opening of the source, for a device that has a
    detector. *)
Lemma process_video_not_opened (w : World) (self : Self) (video_uri : string) :
  supported (device self) = true ->
  detector_builds w (device self) = true ->
  capture_opens w video_uri = false ->
  process_video w self video_uri
  = (Returned,
     set_detector self (Some (device self)),
     [NewDetector (device self)]
       ++ (if negb (device self =? "Dummy")
           then [Print "Device is: "; Print "Detector is: "; Print "image size: "]
           else [])
       ++ [NewVideoCapture video_uri]
       ++ [LogError (String.append "failed to load video " video_uri)]).
Proof.
  intros Hs Hd Ho. unfold process_video.
  rewrite Hs, Hd. cbn [negb andb set_detector device detector].
  rewrite andb_false_r, Ho. reflexivity.
Qed.

(** A start does not look at the detector an earlier start has left. *)
Lemma process_video_fresh_detector (w : World) (self : Self)
      (old : option string) (video_uri : string) :
  supported (device self) = true ->
  detector_builds w (device self) = true ->
  process_video w (set_detector self old) video_uri
  = process_video w self video_uri.
Proof.
  intros Hs Hd. unfold process_video, set_detector.
  cbn [device detector running_video]. rewrite Hs, Hd. reflexivity.
Qed.

(** A start whose source and sinks open raises the running flag. *)
Lemma process_video_opened (w : World) (self : Self) (video_uri : string) :
  supported (device self) = true ->
  detector_builds w (device self) = true ->
  capture_opens w video_uri = true ->
  writer_opens w "default" = true ->
  writer_opens w "default-birdseye" = true ->
  entered_running (snd (process_video w self video_uri)) = true.
Proof.
  intros Hs Hd Ho H1 H2. unfold process_video.
  rewrite Hs, Hd. cbn [negb andb set_detector device detector].
  rewrite andb_false_r, Ho, H1, H2. cbn [negb].
  destruct (frame_loop _ _ _ _ _) as [[done self'] trace].
  unfold entered_running.
  destruct done; cbn [snd]; rewrite !existsb_app; cbn [existsb];
    now rewrite !orb_true_r.
Qed.
End SourceFailsToOpen.

(** C9.  If the video source fails to open, [process_video] (of a device
    that has a detector) returns without entering Running: the running flag
    is left as it was, false in the idle state; the flag is never raised
    and no frame is read; and a later start proceeds as from the state
    before the failed one, so that it enters Running once its source and
    sinks open. *)
Theorem process_video_source_fails_to_open :
  forall (w : Orchestrator.World) (self : Orchestrator.Self) (video_uri : string),
    Orchestrator.supported (Orchestrator.device self) = true ->
    Orchestrator.detector_builds w (Orchestrator.device self) = true ->
    Orchestrator.capture_opens w video_uri = false ->
    exists self' trace,
      Orchestrator.process_video w self video_uri
      = (Orchestrator.Returned, self', trace) /\
      Orchestrator.running_video self' = Orchestrator.running_video self /\
      Orchestrator.entered_running trace = false /\
      Orchestrator.entered_loop trace = false /\
      (forall w' uri',
          Orchestrator.detector_builds w' (Orchestrator.device self) = true ->
          Orchestrator.process_video w' self' uri'
          = Orchestrator.process_video w' self uri') /\
      (forall w' uri',
          Orchestrator.detector_builds w' (Orchestrator.device self) = true ->
          Orchestrator.capture_opens w' uri' = true ->
          Orchestrator.writer_opens w' "default" = true ->
          Orchestrator.writer_opens w' "default-birdseye" = true ->
          Orchestrator.entered_running
            (snd (Orchestrator.process_video w' self' uri')) = true).
Proof.
  intros w self video_uri Hs Hd Ho.
  rewrite (process_video_not_opened w self video_uri Hs Hd Ho).
  do 2 eexists. split; [reflexivity|]. split; [reflexivity|].
  split; [|split; [|split]].
  - unfold Orchestrator.entered_running.
    destruct (negb (Orchestrator.device self =? "Dummy")%string); reflexivity.
  - unfold Orchestrator.entered_loop.
    destruct (negb (Orchestrator.device self =? "Dummy")%string); reflexivity.
  - intros w' uri' Hd'. now apply process_video_fresh_detector.
  - intros w' uri' Hd' Ho' H1 H2.
    rewrite process_video_fresh_detector by assumption.
    now apply process_video_opened.
Qed.

(* ================================================================= *)
(** * The restart protocol *)

(** C1, as the specification states it, fails when the stop step answers
    false: the start command is not issued, but the result reported to the
    caller is [True], and the endpoint answers 200. *)
Lemma restart_after_failed_stop :
  ProcessorAPI.restart_processor (queues [] [false] [])
  = Some (true, queues [ProcessorAPI.STOP_PROCESS_VIDEO] []
                       ["Restarting video processor..."%string])
  /\ ProcessorAPI.restart_status (queues [] [false] [])
     = Some (200%nat, queues [ProcessorAPI.STOP_PROCESS_VIDEO] []
                             ["Restarting video processor..."%string]).
Proof. split; reflexivity. Qed.

(** C1, amended.  In the restart sequence, if the stop step returns false,
    the start command PROCESS_VIDEO_CFG is never issued and the result
    reported to the caller is [True]; if the stop step returns true, the
    start command is issued and the overall result is the result of the
    start step.  The overall result is false only if stop succeeded and
    start failed. *)
Theorem restart_processor_results :
  forall (cmds : list ProcessorAPI.Commands) (results : list bool)
         (lines : list string) (started : bool),
    ProcessorAPI.restart_processor (queues cmds (false :: results) lines)
    = Some (true,
            queues (cmds ++ [ProcessorAPI.STOP_PROCESS_VIDEO]) results
                   (lines ++ ["Restarting video processor..."%string]))
    /\
    ProcessorAPI.restart_processor (queues cmds (true :: started :: results) lines)
    = Some (started,
            queues (cmds ++ [ProcessorAPI.STOP_PROCESS_VIDEO;
                             ProcessorAPI.PROCESS_VIDEO_CFG]) results
                   (lines ++ ["Restarting video processor..."%string]
                          ++ (if started then []
                              else ["Failed to restart video processor..."%string]))).
Proof.
  intros cmds results lines started. split.
  - reflexivity.
  - unfold ProcessorAPI.restart_processor, ProcessorAPI.bind, ProcessorAPI.put,
      ProcessorAPI.get, ProcessorAPI.logger_info, ProcessorAPI.ret, queues.
    cbn [ProcessorAPI.cmd_queue ProcessorAPI.result_queue ProcessorAPI.log].
    destruct started; cbn [negb ProcessorAPI.cmd_queue ProcessorAPI.result_queue
                                ProcessorAPI.log];
      rewrite <- !app_assoc; cbn [app]; rewrite ?app_nil_r; reflexivity.
Qed.

(* ================================================================= *)
(** * The theorems at concrete inputs *)

Lemma boxes_A_B_have_height :
  forall o, In o [box_A; box_B] -> pixel_height o <> 0.
Proof. intros o [<-|[<-|[]]]; pixel_arith. Defined.

Lemma boxes_A_B_project :
  forall o, In o [box_A; box_B] -> homogeneous identity_homography o <> 0.
Proof. intros o _. rewrite homogeneous_identity. lra. Defined.

(** The distance matrix of the boxes A and B, by the four-corner method. *)
Lemma distance_matrix_of_boxes_A_B :
  no_zero_division FourCornerPointsDistance identity_homography [box_A; box_B] /\
  exists matrix,
    Distancing.calculate_box_distances FourCornerPointsDistance
      identity_homography [box_A; box_B] = Some matrix /\
    length matrix = 2%nat /\
    entry matrix 0 0 = Some 0 /\
    entry matrix 1 1 = Some 0 /\
    entry matrix 0 1 = entry matrix 1 0.
Proof.
  assert (Hok : no_zero_division FourCornerPointsDistance identity_homography
                  [box_A; box_B]) by (right; exact boxes_A_B_have_height).
  split; [exact Hok|].
  destruct (@distance_matrix_symmetric_zero_diagonal
              FourCornerPointsDistance identity_homography [box_A; box_B] Hok)
    as [matrix [Hrun [Hlen [_ [Hdiag [Hsym _]]]]]].
  exists matrix. split; [exact Hrun|]. split; [exact Hlen|].
  split; [apply Hdiag; cbn; lia|]. split; [apply Hdiag; cbn; lia|].
  destruct (Hsym 0%nat 1%nat) as [v [H01 H10]]; [cbn; lia|cbn; lia|].
  now rewrite H01, H10.
Defined.

(** The calibrated distance of the boxes A and B under the identity
    homography. *)
Lemma calibrated_distance_of_boxes_A_B :
  (forall o, In o [box_A; box_B] -> homogeneous identity_homography o <> 0) /\
  Distancing.transform_to_world_coordinate identity_homography box_B
  = Some (world_point identity_homography box_B) /\
  exists matrix,
    Distancing.calculate_box_distances CalibratedDistance
      identity_homography [box_A; box_B] = Some matrix /\
    entry matrix 0 1
    = Some (R_sqrt.sqrt
              ((fst (world_point identity_homography box_A)
                - fst (world_point identity_homography box_B)) ^ 2
               + (snd (world_point identity_homography box_A)
                  - snd (world_point identity_homography box_B)) ^ 2)).
Proof.
  split; [exact boxes_A_B_project|].
  destruct (@calibrated_distance_world_points identity_homography
              [box_A; box_B] boxes_A_B_project) as [Hpoints [matrix [Hrun Hentries]]].
  split; [apply Hpoints; right; now left|].
  exists matrix. split; [exact Hrun|].
  exact (Hentries 0%nat 1%nat box_A box_B eq_refl eq_refl).
Defined.

Lemma process_video_unreachable_camera :
  Orchestrator.supported (Orchestrator.device idle_pipeline) = true /\
  Orchestrator.detector_builds unreachable_camera
    (Orchestrator.device idle_pipeline) = true /\
  Orchestrator.capture_opens unreachable_camera "rtsp://camera" = false /\
  exists self' trace,
    Orchestrator.process_video unreachable_camera idle_pipeline "rtsp://camera"
    = (Orchestrator.Returned, self', trace) /\
    Orchestrator.running_video self' = false /\
    Orchestrator.entered_running trace = false /\
    Orchestrator.entered_loop trace = false.
Proof.
  split; [reflexivity|]. split; [reflexivity|]. split; [reflexivity|].
  destruct (@process_video_source_fails_to_open unreachable_camera idle_pipeline
              "rtsp://camera" eq_refl eq_refl eq_refl)
    as [self' [trace [Hrun [Hflag [Hrunning [Hloop _]]]]]].
  exists self', trace. split; [exact Hrun|]. split; [exact Hflag|].
  split; [exact Hrunning|exact Hloop].
Defined.

(* ================================================================= *)
(** * The model of [np.argsort] *)

Lemma StronglySorted_strengthen {A : Type} (R S : A -> A -> Prop) (l : list A) :
  (forall x y, In x l -> In y l -> x <> y -> R x y -> S x y) ->
  NoDup l -> StronglySorted R l -> StronglySorted S l.
Proof.
  intros HRS Hnd Hs. induction Hs as [|a l Hl IH Ha]; [constructor|].
  inversion Hnd as [|? ? Hnotin Hnd']; subst.
  constructor.
  - apply IH; [|exact Hnd']. intros x y Hx Hy. apply HRS; now right.
  - rewrite Forall_forall in *. intros y Hy.
    apply HRS; [now left|now right|intros ->; contradiction|now apply Ha].
Qed.

Lemma StronglySorted_map_fst {A B : Type} (R : A -> A -> Prop) (l : list (A * B)) :
  StronglySorted (fun x y => R (fst x) (fst y)) l -> StronglySorted R (map fst l).
Proof.
  induction 1 as [|a l Hl IH Ha]; cbn [map]; constructor; [exact IH|].
  rewrite Forall_forall in *. intros y Hy. apply in_map_iff in Hy.
  destruct Hy as [x [<- Hx]]. now apply Ha.
Qed.

Section ArgsortWithoutTies.
Context {F : Type} {num : Number F}.
Import Distancing.
Hypothesis sort_asym :
  forall a b, sort_ltb a b = true -> sort_ltb b a = false.
Hypothesis sort_cotrans :
  forall a b c, sort_ltb a b = true -> sort_ltb a c = true \/ sort_ltb c b = true.

(** When the keys are pairwise different, the indices in ascending order of
    their keys are one list only: every sort, stable or not, returns what
    [argsort] returns. *)
Lemma argsort_without_ties (keys : list F) (idxs : list nat) :
  (forall i j, (i < length keys)%nat -> (j < length keys)%nat -> i <> j ->
     sort_ltb (item keys i) (item keys j) = true \/
     sort_ltb (item keys j) (item keys i) = true) ->
  Permutation idxs (seq 0 (length keys)) ->
  StronglySorted (fun i j => sort_ltb (item keys j) (item keys i) = false) idxs ->
  idxs = argsort keys.
Proof.
  intros Hties Hperm Hsorted.
  assert (Hargsort : Permutation (argsort keys) (seq 0 (length keys))).
  { unfold argsort. rewrite stable_sort_Permutation. now rewrite map_fst_enumerate. }
  apply StronglySorted_unique
    with (R := fun i j => sort_ltb (item keys i) (item keys j) = true).
  - intros x. rewrite (sort_irrefl sort_asym). discriminate.
  - intros x y Hxy. rewrite (sort_asym _ _ Hxy). discriminate.
  - eapply StronglySorted_strengthen; [| |exact Hsorted].
    + intros x y Hx Hy Hne Hle.
      apply (Permutation_in _ Hperm), in_seq in Hx.
      apply (Permutation_in _ Hperm), in_seq in Hy.
      destruct (Hties x y) as [H|H]; try lia; [exact H|congruence].
    + eapply Permutation_NoDup; [symmetry; exact Hperm|apply seq_NoDup].
  - unfold argsort. apply StronglySorted_map_fst.
    eapply StronglySorted_strengthen;
      [| |apply (stable_sort_sorted sort_asym sort_cotrans snd fst);
          apply enumerate_ascending].
    + intros [i a] [j b] Hx Hy Hne Hearlier. cbn [fst snd] in *.
      apply stable_sort_In, in_enumerate in Hx.
      apply stable_sort_In, in_enumerate in Hy.
      assert (Hi : (i < length keys)%nat) by (apply nth_error_Some; congruence).
      assert (Hj : (j < length keys)%nat) by (apply nth_error_Some; congruence).
      unfold item. rewrite (nth_error_nth _ _ _ Hx), (nth_error_nth _ _ _ Hy).
      destruct Hearlier as [H|[H Hij]]; [exact H|].
      cbn [fst snd] in H, Hij.
      assert (Hij' : i <> j) by lia.
      destruct (Hties i j Hi Hj Hij') as [H'|H'];
        unfold item in H';
        rewrite (nth_error_nth _ _ _ Hx), (nth_error_nth _ _ _ Hy) in H';
        [exact H'|congruence].
    + eapply Permutation_NoDup;
        [symmetry; apply stable_sort_Permutation|].
      apply ascending_positions_NoDup, enumerate_ascending.
  - rewrite Hperm. now symmetry.
Qed.
End ArgsortWithoutTies.

(* ================================================================= *)
(** * The same in binary64 arithmetic *)

Module Binary64Facts.
Import Binary64Order.
Local Open Scope Z_scope.

Lemma spec_sort_ltb_rank (a b : spec_float) :
  spec_sort_ltb a b = true <-> lexlt (rank a) (rank b).
Proof.
  unfold spec_sort_ltb, SFltb, SFeqb, lexlt.
  destruct a as [[|]|[|]| |[|] m1 e1], b as [[|]|[|]| |[|] m2 e2];
    cbn [SFcompare rank fst snd orb andb negb];
    try (split; [intros; try discriminate; lia | intros; try reflexivity; lia]).
  all: rewrite ?Pos.compare_cont_refl, ?Z.compare_refl; cbn [CompOpp orb andb negb].
  all: try (split; [intros; try discriminate; lia | intros; try reflexivity; lia]).
  all: rewrite ?Pos.compare_cont_spec; cbn [Pos.switch_Eq].
  all: destruct (Z.compare_spec e1 e2); destruct (Pos.compare_spec m1 m2);
    cbn [CompOpp Pos.switch_Eq orb andb negb];
    (split; [intros; try discriminate; lia | intros; try reflexivity; lia]).
Qed.

Lemma np_sort_ltb_rank (x y : float) :
  Binary64.np_sort_ltb x y = true <-> lexlt (rank (Prim2SF x)) (rank (Prim2SF y)).
Proof.
  rewrite <- spec_sort_ltb_rank.
  unfold Binary64.np_sort_ltb, spec_sort_ltb, PrimFloat.is_nan.
  now rewrite ltb_spec, !eqb_spec.
Qed.

Lemma np_sort_asym (a b : float) :
  @sort_ltb float Binary64.number a b = true ->
  @sort_ltb float Binary64.number b a = false.
Proof.
  cbn [sort_ltb Binary64.number]. intros H.
  destruct (Binary64.np_sort_ltb b a) eqn:E; [|reflexivity].
  apply np_sort_ltb_rank in H, E. unfold lexlt in *. lia.
Qed.

Lemma np_sort_cotrans (a b c : float) :
  @sort_ltb float Binary64.number a b = true ->
  @sort_ltb float Binary64.number a c = true \/
  @sort_ltb float Binary64.number c b = true.
Proof.
  cbn [sort_ltb Binary64.number]. rewrite !np_sort_ltb_rank.
  unfold lexlt. lia.
Qed.
End Binary64Facts.

(** The examples of the specification, run on binary64 numbers. *)
Module Binary64Examples.
Import Binary64Inputs.
#[local] Set Warnings "-inexact-float".
Local Open Scope float_scope.

Lemma ignore_large_boxes_run :
  @Distancing.ignore_large_boxes float Binary64.number [box_A; whole_frame; box_B]
  = [box_A; box_B].
Proof. vm_compute. reflexivity. Qed.

Lemma non_max_suppression_fast_run :
  @Distancing.non_max_suppression_fast float Binary64.number [box_A; box_B] 0.3
  = Some [box_B]
  /\ @Distancing.non_max_suppression_fast float Binary64.number [box_B; box_A] 0.3
     = Some [box_B].
Proof. split; vm_compute; reflexivity. Qed.

Lemma center_points_distance_run :
  @Distancing.calculate_box_distances float Binary64.number
    CenterPointsDistance identity [at_origin; at_hundred]
  = Some [[0; 170]; [170; 0]].
Proof. vm_compute. reflexivity. Qed.

Lemma world_point_run :
  @Distancing.transform_to_world_coordinate float Binary64.number identity box_B
  = Some (140, 153.59999999999999).
Proof. vm_compute. reflexivity. Qed.
End Binary64Examples.

(* ================================================================= *)
(** * What non-maximum suppression keeps and what it drops *)

Section GreedyInvariants.
Context {A : Type} (drops : A -> A -> bool).

(** No picked candidate drops a candidate picked after it. *)
Lemma Greedy_later_survive (d picked : list A) :
  Greedy drops d picked ->
  StronglySorted (fun x y => drops x y = false) picked.
Proof.
  induction 1 as [|kept others picked H IH]; constructor; [exact IH|].
  apply Forall_forall. intros y Hy.
  apply Greedy_Subsequence in H. eapply Subsequence_In in Hy; [|exact H].
  unfold survivors in Hy. apply filter_In in Hy.
  destruct Hy as [_ Hy]. now destruct (drops kept y).
Qed.

(** Every candidate is picked, or dropped by a picked candidate that was
    taken before it. *)
Lemma Greedy_dropped_by_picked (R : A -> A -> Prop) (d picked : list A) :
  StronglySorted R d ->
  Greedy drops d picked ->
  forall x, In x d ->
    In x picked \/ exists k, In k picked /\ drops k x = true /\ R k x.
Proof.
  intros Hs Hg. induction Hg as [|kept others picked Hg IH];
    intros x Hx; [contradiction|].
  apply StronglySorted_inv in Hs. destruct Hs as [Hs Hk].
  destruct Hx as [<-|Hx]; [left; now left|].
  destruct (drops kept x) eqn:E.
  - right. exists kept. split; [now left|]. split; [exact E|].
    rewrite Forall_forall in Hk. now apply Hk.
  - destruct (IH (Subsequence_StronglySorted (Subsequence_filter _ _) Hs) x)
      as [Hin|[k [Hk1 Hk2]]].
    + unfold survivors. apply filter_In. split; [exact Hx|now rewrite E].
    + left. now right.
    + right. exists k. split; [now right|exact Hk2].
Qed.

Lemma Greedy_head (x : A) (rest picked : list A) :
  Greedy drops (x :: rest) picked -> In x picked.
Proof. intros H. inversion H; subst. now left. Qed.
End GreedyInvariants.

Lemma StronglySorted_and {A : Type} (R S : A -> A -> Prop) (l : list A) :
  StronglySorted R l -> StronglySorted S l ->
  StronglySorted (fun x y => R x y /\ S x y) l.
Proof.
  induction 1 as [|a l Hl IH Ha]; intros HS; [constructor|].
  apply StronglySorted_inv in HS. destruct HS as [HS Hb].
  constructor; [now apply IH|].
  rewrite Forall_forall in *. intros y Hy. split; [now apply Ha|now apply Hb].
Qed.

Lemma StronglySorted_pair {A : Type} (R : A -> A -> Prop) (l : list A) (x y : A) :
  StronglySorted R l -> In x l -> In y l -> x = y \/ R x y \/ R y x.
Proof.
  induction 1 as [|a l Hl IH Ha]; intros Hx Hy; [contradiction|].
  rewrite Forall_forall in Ha.
  destruct Hx as [<-|Hx], Hy as [<-|Hy]; auto.
Qed.

Section KeptAndDropped.
Context {F : Type} {num : Number F}.
Hypothesis sort_asym :
  forall a b, sort_ltb a b = true -> sort_ltb b a = false.
Hypothesis sort_cotrans :
  forall a b c, sort_ltb a b = true -> sort_ltb a c = true \/ sort_ltb c b = true.

Lemma picked_placed (t : F) (placed picked : list (@Placed F)) :
  Greedy (suppresses t) (candidates placed) picked ->
  forall x, In x picked -> In x placed.
Proof.
  intros Hg x Hx. apply (candidates_In placed).
  eapply Subsequence_In; [exact (Greedy_Subsequence Hg)|exact Hx].
Qed.

(** A picked detection does not suppress a picked detection whose key is
    smaller. *)
Lemma picked_do_not_suppress (t : F) (placed picked : list (@Placed F))
      (x y : @Placed F) :
  ascending_positions placed ->
  Greedy (suppresses t) (candidates placed) picked ->
  In x picked -> In y picked ->
  sort_ltb (placed_key y) (placed_key x) = true ->
  suppresses t x y = false.
Proof.
  intros Hasc Hg Hx Hy Hlt.
  assert (Hs : StronglySorted
                 (fun a b => earlier placed_key fst b a /\ suppresses t a b = false)
                 picked).
  { apply StronglySorted_and; [|exact (Greedy_later_survive Hg)].
    eapply Subsequence_StronglySorted; [exact (Greedy_Subsequence Hg)|].
    now apply candidates_sorted. }
  destruct (StronglySorted_pair x y Hs Hx Hy) as [<-|[[_ H]|[H _]]].
  - rewrite (sort_irrefl sort_asym) in Hlt. discriminate.
  - exact H.
  - pose proof (earlier_key sort_asym H) as Hk. congruence.
Qed.

(** A detection of the input is picked, or suppressed by a picked
    detection whose key is not smaller. *)
Lemma dropped_are_suppressed (t : F) (placed picked : list (@Placed F))
      (x : @Placed F) :
  ascending_positions placed ->
  Greedy (suppresses t) (candidates placed) picked ->
  In x placed ->
  In x picked \/
  exists k, In k picked /\ suppresses t k x = true /\
            sort_ltb (placed_key k) (placed_key x) = false.
Proof.
  intros Hasc Hg Hx.
  destruct (Greedy_dropped_by_picked (candidates_sorted sort_asym sort_cotrans Hasc)
              Hg x (proj2 (candidates_In placed x) Hx))
    as [H|[k [Hk [Hd Hr]]]]; [now left|].
  right. exists k. split; [exact Hk|]. split; [exact Hd|].
  cbv beta in Hr. exact (earlier_key sort_asym Hr).
Qed.

(** The first candidate has the largest key. *)
Lemma candidates_head_largest (placed rest : list (@Placed F)) (x : @Placed F) :
  ascending_positions placed ->
  candidates placed = x :: rest ->
  forall y, In y placed -> sort_ltb (placed_key x) (placed_key y) = false.
Proof.
  intros Hasc Hc y Hy.
  pose proof (candidates_sorted sort_asym sort_cotrans Hasc) as Hs.
  rewrite Hc in Hs. apply StronglySorted_inv in Hs. destruct Hs as [_ Hx].
  apply (candidates_In placed) in Hy. rewrite Hc in Hy.
  destruct Hy as [<-|Hy]; [apply (sort_irrefl sort_asym)|].
  rewrite Forall_forall in Hx. exact (earlier_key sort_asym (Hx y Hy)).
Qed.
End KeptAndDropped.

Lemma kept_from_picked {F : Type} (placed picked : list (@Placed F))
      (a : Detection F) :
  ascending_positions placed ->
  (forall x, In x picked -> In x placed) ->
  In a (map snd (select picked placed)) <-> exists x, In x picked /\ snd x = a.
Proof.
  intros Hasc Hsub. rewrite in_map_iff. split.
  - intros [x [Hx Hin]]. exists x. split; [|exact Hx].
    now apply (select_In picked x Hasc Hsub).
  - intros [x [Hin Hx]]. exists x. split; [exact Hx|].
    now apply (select_In picked x Hasc Hsub).
Qed.

(** Among the detections that [non_max_suppression_fast] returns, a
    detection never overlaps one with a smaller [cy + h/2] by more than
    the threshold. *)
Theorem non_max_suppression_fast_kept_apart :
  forall (object_list : list (Detection R)) (overlapThresh : R),
  exists kept,
    Distancing.non_max_suppression_fast object_list overlapThresh = Some kept /\
    forall a b, In a kept -> In b kept ->
      bottom_edge b < bottom_edge a ->
      box_overlap a b <= overlapThresh.
Proof.
  intros object_list overlapThresh.
  destruct (non_max_suppression_fast_rounds object_list overlapThresh)
    as [picked [Hg Hrun]].
  eexists. split; [exact Hrun|]. intros a b Ha Hb Hlt.
  pose proof (@enumerate_ascending _ object_list) as Hasc.
  pose proof (picked_placed _ Hg) as Hsub.
  apply (kept_from_picked picked a Hasc Hsub) in Ha. destruct Ha as [x [Hx <-]].
  apply (kept_from_picked picked b Hasc Hsub) in Hb. destruct Hb as [y [Hy <-]].
  assert (Hk : sort_ltb (placed_key y) (placed_key x) = true)
    by (apply Rltb_true; exact Hlt).
  pose proof (picked_do_not_suppress R_sort_asym R_sort_cotrans x y Hasc Hg Hx Hy Hk) as H.
  unfold suppresses in H. cbn [ltb R_number] in H. now apply Rltb_false in H.
Qed.

(** Every detection that [non_max_suppression_fast] leaves out overlaps a
    returned detection, whose [cy + h/2] is not smaller, by more than the
    threshold. *)
Theorem non_max_suppression_fast_dropped_overlap :
  forall (object_list : list (Detection R)) (overlapThresh : R),
  exists kept,
    Distancing.non_max_suppression_fast object_list overlapThresh = Some kept /\
    forall d, In d object_list ->
      In d kept \/
      exists k, In k kept /\ overlapThresh < box_overlap k d /\
                bottom_edge d <= bottom_edge k.
Proof.
  intros object_list overlapThresh.
  destruct (non_max_suppression_fast_rounds object_list overlapThresh)
    as [picked [Hg Hrun]].
  eexists. split; [exact Hrun|]. intros d Hd.
  pose proof (@enumerate_ascending _ object_list) as Hasc.
  pose proof (picked_placed _ Hg) as Hsub.
  apply In_nth_error in Hd. destruct Hd as [i Hi].
  apply in_enumerate in Hi.
  destruct (dropped_are_suppressed R_sort_asym R_sort_cotrans (i, d) Hasc Hg Hi)
    as [H|[k [Hk [Hs Hkey]]]].
  - left. apply (kept_from_picked picked d Hasc Hsub). now exists (i, d).
  - right. exists (snd k). split; [|split].
    + apply (kept_from_picked picked (snd k) Hasc Hsub). now exists k.
    + unfold suppresses in Hs. cbn [ltb R_number snd] in Hs.
      now apply Rltb_true in Hs.
    + cbn [sort_ltb R_number] in Hkey. now apply Rltb_false in Hkey.
Qed.

(** Of a list that is not empty, [non_max_suppression_fast] returns a
    detection whose [cy + h/2] is the largest of the list. *)
Theorem non_max_suppression_fast_keeps_bottom_most :
  forall (first : Detection R) (others : list (Detection R)) (overlapThresh : R),
  exists kept bottom_most,
    Distancing.non_max_suppression_fast (first :: others) overlapThresh = Some kept /\
    In bottom_most kept /\
    forall d, In d (first :: others) -> bottom_edge d <= bottom_edge bottom_most.
Proof.
  intros first others overlapThresh.
  destruct (non_max_suppression_fast_rounds (first :: others) overlapThresh)
    as [picked [Hg Hrun]].
  pose proof (@enumerate_ascending _ (first :: others)) as Hasc.
  pose proof (picked_placed _ Hg) as Hsub.
  destruct (candidates (enumerate (first :: others))) as [|x rest] eqn:Hc.
  { exfalso.
    assert (Hin : In (0%nat, first) (candidates (enumerate (first :: others)))).
    { apply candidates_In. apply in_enumerate. reflexivity. }
    rewrite Hc in Hin. exact Hin. }
  exists (map snd (select picked (enumerate (first :: others)))), (snd x).
  split; [exact Hrun|]. split.
  - apply (kept_from_picked picked (snd x) Hasc Hsub). exists x.
    split; [exact (Greedy_head Hg)|reflexivity].
  - intros d Hd. apply In_nth_error in Hd. destruct Hd as [i Hi].
    apply in_enumerate in Hi.
    pose proof (candidates_head_largest R_sort_asym R_sort_cotrans Hasc Hc (i, d) Hi) as H.
    cbn [sort_ltb R_number] in H. now apply Rltb_false in H.
Qed.

(* ================================================================= *)
(** * The frame before tracking *)

Lemma ignore_large_boxes_not_oversized {F : Type} {num : Number F}
      (object_list : list (Detection F)) :
  Distancing.ignore_large_boxes object_list
  = filter (fun d => negb (oversized d)) object_list.
Proof.
  unfold Distancing.ignore_large_boxes.
  rewrite large_boxes_positions. cbn [app]. unfold enumerate.
  apply filter_positions. intros k x Hk. cbn [fst Nat.add].
  rewrite py_in_filter_seq. unfold oversized_at. rewrite Hk.
  assert (Hlt : (k < length object_list)%nat)
    by (apply nth_error_Some; congruence).
  replace (0 <=? k)%nat with true by (symmetry; apply Nat.leb_le; lia).
  replace (k <? 0 + length object_list)%nat with true
    by (symmetry; apply Nat.ltb_lt; lia).
  now rewrite !andb_true_r.
Qed.

(** A consistent detection is overlapped entirely by a detection with the
    same box. *)
Lemma box_overlap_same_box (a b : Detection R) :
  consistent b -> bbox a = bbox b -> box_overlap a b = 1.
Proof.
  intros [Hw [Hh [Hx Hy]]] Hab. unfold box_overlap, box_area.
  rewrite Hab, Hw, Hh. cbn [add sub mul div of_int maximum minimum R_number].
  assert (Hmax : forall x, Rmax x x = x) by (intros x; apply Rmax_left; lra).
  assert (Hmin : forall x, Rmin x x = x) by (intros x; apply Rmin_left; lra).
  rewrite !Hmax, !Hmin. rewrite !Rmax_right by lra. field. split; lra.
Qed.

Lemma derive_fields_consistent (w h : Z) (name : string) (box : Quad R) :
  ordered_box box -> consistent (Distancing.derive_fields w h name box).
Proof.
  intros [Hy Hx]. unfold consistent, Distancing.derive_fields.
  cbn [centroid bbox at0 at1 at2 at3 sub R_number]. repeat split; lra.
Qed.

(** With a threshold below 1, suppression leaves no two detections with
    the same box. *)
Lemma non_max_suppression_fast_distinct
      (object_list : list (Detection R)) (overlapThresh : R) :
  Forall consistent object_list -> overlapThresh < 1 ->
  exists kept,
    Distancing.non_max_suppression_fast object_list overlapThresh = Some kept /\
    NoDup (map (@bbox R) kept).
Proof.
  intros Hc Ht.
  destruct (non_max_suppression_fast_rounds object_list overlapThresh)
    as [picked [Hg Hrun]].
  eexists. split; [exact Hrun|].
  pose proof (@enumerate_ascending _ object_list) as Hasc.
  pose proof (picked_placed _ Hg) as Hsub.
  rewrite map_map. apply NoDup_map_NoDup_ForallPairs.
  - intros x y Hx Hy Hxy.
    assert (Hcx : consistent (snd x) /\ consistent (snd y)).
    { rewrite Forall_forall in Hc. split; apply Hc.
      - apply filter_In in Hx. destruct Hx as [Hx _]. destruct x as [i a].
        apply in_enumerate in Hx. exact (nth_error_In _ _ Hx).
      - apply filter_In in Hy. destruct Hy as [Hy _]. destruct y as [j b].
        apply in_enumerate in Hy. exact (nth_error_In _ _ Hy). }
    destruct Hcx as [Hcx Hcy].
    apply (select_In picked x Hasc Hsub) in Hx.
    apply (select_In picked y Hasc Hsub) in Hy.
    destruct (StronglySorted_pair x y (Greedy_later_survive Hg) Hx Hy)
      as [H|[H|H]]; [exact H| |]; exfalso;
      unfold suppresses in H; cbn [ltb R_number] in H; apply Rltb_false in H.
    + rewrite (@box_overlap_same_box (snd x) (snd y) Hcy Hxy) in H. lra.
    + rewrite (@box_overlap_same_box (snd y) (snd x) Hcx (eq_sym Hxy)) in H. lra.
  - eapply Subsequence_NoDup; [apply Subsequence_filter|].
    now apply ascending_positions_NoDup.
Qed.

(** What [calculate_distancing] hands to the tracker, for the objects that
    [__process] derives from raw boxes with their corners in order and a
    suppression threshold below 1: detections with pairwise different
    boxes. *)
Theorem filtered_boxes_distinct :
  forall (w h : Z) (tmp_objects_list : list (string * Quad R)) (NMSThreshold : R),
    Forall (fun obj => ordered_box (snd obj)) tmp_objects_list ->
    NMSThreshold < 1 ->
    exists kept,
      Frame.filtered (Frame.derive_all w h tmp_objects_list) NMSThreshold = Some kept /\
      NoDup (map (@bbox R) kept).
Proof.
  intros w h tmp_objects_list NMSThreshold Hord Ht.
  unfold Frame.filtered. cbv zeta.
  apply non_max_suppression_fast_distinct; [|exact Ht].
  rewrite ignore_large_boxes_not_oversized.
  apply Forall_forall. intros d Hd. apply filter_In in Hd. destruct Hd as [Hd _].
  unfold Frame.derive_all in Hd. apply in_map_iff in Hd.
  destruct Hd as [obj [<- Hobj]]. apply derive_fields_consistent.
  rewrite Forall_forall in Hord. now apply Hord.
Qed.

Lemma keys_bottom_edges {F : Type} {num : Number F}
      (object_list : list (Detection F)) :
  Argsort.keys object_list = map (@bottom_edge F num) object_list.
Proof.
  unfold Argsort.keys. cbv zeta. rewrite !map_map, zip_with_map. reflexivity.
Qed.

(** With the stable order, the function of [Argsort] is the function of
    [Distancing]. *)
Lemma stable_order_run {F : Type} {num : Number F}
      (object_list : list (Detection F)) (overlapThresh : F) :
  Argsort.non_max_suppression_fast
    (Distancing.argsort (Argsort.keys object_list)) object_list overlapThresh
  = Distancing.non_max_suppression_fast object_list overlapThresh.
Proof. reflexivity. Qed.

(** Whatever the order of the indices, the loop ends and what is kept is
    a subsequence of the list. *)
Lemma any_order_Subsequence {F : Type} {num : Number F} (idxs : list nat)
      (object_list : list (Detection F)) (overlapThresh : F) :
  exists kept,
    Argsort.non_max_suppression_fast idxs object_list overlapThresh = Some kept /\
    Subsequence kept object_list.
Proof.
  unfold Argsort.non_max_suppression_fast.
  destruct (length (map (@centroid F) object_list) =? 0)%nat eqn:Hempty.
  { apply Nat.eqb_eq in Hempty. rewrite length_map in Hempty.
    apply length_zero_iff_nil in Hempty. subst object_list.
    exists []. split; [reflexivity|constructor]. }
  cbv zeta.
  set (x1 := map (@at0 F) (map (@bbox F) object_list)).
  set (y1 := map (@at1 F) (map (@bbox F) object_list)).
  set (x2 := map (@at2 F) (map (@bbox F) object_list)).
  set (y2 := map (@at3 F) (map (@bbox F) object_list)).
  set (area := Distancing.zip_with mul _ _).
  destruct (@nms_loop_Greedy F num x1 y1 x2 y2 area overlapThresh
              (length idxs) idxs [] (le_n _)) as [picked_at [_ Hloop]].
  rewrite Hloop. eexists. split; [reflexivity|].
  rewrite <- (map_snd_enumerate object_list) at 2.
  apply Subsequence_map, Subsequence_filter.
Qed.

(** What [calculate_distancing] hands to the tracker is a subsequence of
    the objects of the frame that holds no detection of area [w*h > 0.25];
    and so it is whatever order of the indices [np.argsort] returns. *)
Theorem filtered_subsequence_without_large_boxes :
  forall (objects_list : list (Detection R)) (NMSThreshold : R),
    (exists kept,
        Frame.filtered objects_list NMSThreshold = Some kept /\
        Subsequence kept objects_list /\
        (forall d, In d kept -> at2 (centroid d) * at3 (centroid d) <= 0.25)) /\
    (forall idxs : list nat,
        exists kept,
          Argsort.non_max_suppression_fast idxs
            (Distancing.ignore_large_boxes objects_list) NMSThreshold = Some kept /\
          Subsequence kept objects_list /\
          (forall d, In d kept -> at2 (centroid d) * at3 (centroid d) <= 0.25)).
Proof.
  intros objects_list NMSThreshold.
  assert (Hany : forall idxs : list nat,
             exists kept,
               Argsort.non_max_suppression_fast idxs
                 (Distancing.ignore_large_boxes objects_list) NMSThreshold
               = Some kept /\
               Subsequence kept objects_list /\
               (forall d, In d kept -> at2 (centroid d) * at3 (centroid d) <= 0.25)).
  { intros idxs.
    destruct (any_order_Subsequence idxs
                (Distancing.ignore_large_boxes objects_list) NMSThreshold)
      as [kept [Hrun Hsub]].
    exists kept. split; [exact Hrun|].
    rewrite ignore_large_boxes_not_oversized in Hsub.
    split.
    - eapply Subsequence_trans; [exact Hsub|apply Subsequence_filter].
    - intros d Hd. eapply Subsequence_In in Hd; [|exact Hsub].
      apply filter_In in Hd. destruct Hd as [_ Hd].
      unfold oversized in Hd. cbn [ltb mul quarter R_number] in Hd.
      destruct (Rltb _ _) eqn:E; [discriminate|]. now apply Rltb_false in E. }
  split; [|exact Hany].
  unfold Frame.filtered. cbv zeta. rewrite <- stable_order_run. apply Hany.
Qed.

(** The box A reported twice by the detector. *)
Lemma filtered_boxes_distinct_twice_A :
  Forall (fun obj : string * Quad R => ordered_box (snd obj))
         [("A"%string, quad 0.1 0.1 0.3 0.3); ("A"%string, quad 0.1 0.1 0.3 0.3)] /\
  0.3 < 1 /\
  exists kept,
    Frame.filtered
      (Frame.derive_all 640 480
         [("A"%string, quad 0.1 0.1 0.3 0.3); ("A"%string, quad 0.1 0.1 0.3 0.3)])
      0.3 = Some kept /\
    NoDup (map (@bbox R) kept).
Proof.
  assert (Hord : Forall (fun obj : string * Quad R => ordered_box (snd obj))
                   [("A"%string, quad 0.1 0.1 0.3 0.3);
                    ("A"%string, quad 0.1 0.1 0.3 0.3)]).
  { repeat constructor; cbn [snd at0 at1 at2 at3]; lra. }
  assert (Ht : 0.3 < 1) by lra.
  split; [exact Hord|]. split; [exact Ht|].
  exact (@filtered_boxes_distinct 640 480 _ 0.3 Hord Ht).
Defined.

(* ================================================================= *)
(** * When the estimator answers, and with what *)

Lemma for_each_None {A B : Type} (f : A -> option B) (l : list A) (a : A) :
  In a l -> f a = None -> Distancing.for_each f l = None.
Proof.
  induction l as [|x l IH]; intros Hin Hf; [contradiction|].
  cbn [Distancing.for_each]. destruct Hin as [->|Hin].
  - now rewrite Hf.
  - destruct (f x); [|reflexivity]. now rewrite (IH Hin Hf).
Qed.

Lemma box_distance_zero_height (dist_method : DistMethod)
      (nn_out : list (Detection R)) (i j : nat) (oi oj : Detection R) :
  dist_method <> CalibratedDistance ->
  nth_error nn_out i = Some oi -> nth_error nn_out j = Some oj -> i <> j ->
  pixel_height oi = 0 \/ pixel_height oj = 0 ->
  Distancing.box_distance dist_method nn_out i j = None.
Proof.
  intros Hm Hi Hj Hne Hflat. unfold pixel_height in Hflat.
  destruct dist_method; [congruence| |].
  - rewrite (box_distance_center _ Hi Hj Hne). unfold center_point.
    now apply two_points_zero_height.
  - rewrite (box_distance_corners _ Hi Hj Hne). unfold lower_left.
    now rewrite two_points_zero_height.
Qed.

Lemma pinhole_matrix_undefined (dist_method : DistMethod)
      (h_inv : @Distancing.Mat3 R) (nn_out : list (Detection R)) :
  dist_method <> CalibratedDistance ->
  (Distancing.calculate_box_distances dist_method h_inv nn_out = None
   <-> divides_by_zero_height nn_out).
Proof.
  intros Hm. split.
  - intros Hnone.
    assert (Hlong : (2 <= length nn_out)%nat).
    { destruct (le_lt_dec 2 (length nn_out)) as [H|H]; [exact H|].
      destruct (@pinhole_matrix_total dist_method h_inv nn_out Hm) as [m Hsome];
        [left; lia|congruence]. }
    split; [exact Hlong|].
    destruct (Exists_dec (fun o => pixel_height o = 0) nn_out) as [H|H].
    { intros o. apply Req_dec_T. }
    + apply Exists_exists in H. exact H.
    + destruct (@pinhole_matrix_total dist_method h_inv nn_out Hm) as [m Hsome];
        [|congruence].
      right. intros o Ho Hflat. apply H. apply Exists_exists. now exists o.
  - intros [Hlong [o [Ho Hflat]]].
    apply In_nth_error in Ho. destruct Ho as [i Hi].
    assert (Hilt : (i < length nn_out)%nat) by (apply nth_error_Some; congruence).
    set (j := if (i =? 0)%nat then 1%nat else 0%nat).
    assert (Hj : (j < length nn_out)%nat /\ i <> j).
    { unfold j. destruct (Nat.eqb_spec i 0); lia. }
    destruct Hj as [Hjlt Hne].
    destruct (nth_error nn_out j) as [oj|] eqn:Ej;
      [|apply nth_error_None in Ej; lia].
    assert (Hcell : Distancing.box_distance dist_method nn_out i j = None)
      by (apply (@box_distance_zero_height dist_method nn_out i j o oj Hm Hi Ej Hne);
          now left).
    assert (Hrow : Distancing.for_each
                     (fun j => Distancing.box_distance dist_method nn_out i j)
                     (seq 0 (length nn_out)) = None).
    { apply (for_each_None _ _ j); [apply in_seq; lia|exact Hcell]. }
    unfold Distancing.calculate_box_distances.
    destruct dist_method; [congruence| |];
      rewrite (for_each_None
                 (fun i => Distancing.for_each
                             (fun j => Distancing.box_distance _ nn_out i j)
                             (seq 0 (length nn_out)))
                 (seq 0 (length nn_out)) i); try reflexivity;
      try (apply in_seq; lia); exact Hrow.
Qed.

(** The two pinhole methods raise for a division by zero exactly when the
    list has at least two boxes and one of them has the pixel height 0;
    otherwise they return the matrix. *)
Theorem pinhole_methods_fail_exactly :
  forall (h_inv : @Distancing.Mat3 R) (nn_out : list (Detection R)),
    (Distancing.calculate_box_distances CenterPointsDistance h_inv nn_out = None
     <-> divides_by_zero_height nn_out) /\
    (Distancing.calculate_box_distances FourCornerPointsDistance h_inv nn_out = None
     <-> divides_by_zero_height nn_out).
Proof.
  intros h_inv nn_out. split; apply pinhole_matrix_undefined; discriminate.
Qed.


(* ================================================================= *)
(** * A start that reaches the frame loop *)

Section FrameLoop.
Import Orchestrator.
Local Open Scope nat_scope.

Lemma count_app (kind : Event -> bool) (t1 t2 : list Event) :
  count kind (t1 ++ t2) = count kind t1 + count kind t2.
Proof. unfold count. now rewrite filter_app, length_app. Qed.

Lemma frame_loop_test_fails (video_uri : string) (self : Self) (is_opened : bool)
      (frame_num : nat) (rounds : list Reading) :
  is_opened && running_video self = false ->
  frame_loop video_uri self is_opened frame_num rounds = (true, self, []).
Proof. intros H. destruct rounds; cbn [frame_loop]; now rewrite H. Qed.

(** What the loop does with the readings it is given: it takes the rounds
    up to the first that ends it, reads once in each, and processes,
    writes and logs the frames that have an image. *)
Lemma frame_loop_rounds (video_uri : string) :
  forall (rounds : list Reading) (self : Self) (frame_num : nat),
    running_video self = true ->
    exists self' trace,
      frame_loop video_uri self true frame_num rounds
      = (existsb ends_loop rounds, self', trace) /\
      device self' = device self /\
      detector self' = detector self /\
      (existsb ends_loop rounds = false -> running_video self' = true) /\
      count is_read trace = length (rounds_run rounds) /\
      count is_process trace = length (filter has_image (rounds_run rounds)) /\
      count (is_write "default") trace = count is_process trace /\
      count (is_write "default-birdseye") trace = count is_process trace /\
      count is_logger_update trace = count is_process trace /\
      count is_release trace = 0.
Proof.
  induction rounds as [|r rounds IH]; intros self frame_num Hrun.
  { exists self, []. cbn [frame_loop]. rewrite Hrun. cbn. tauto. }
  assert (Hnext : exists self1 trace1,
             frame_loop video_uri
               (if stop_called r then stop_process_video self else self)
               (still_open r) (if has_image r then S frame_num else frame_num) rounds
             = (ends_loop r || existsb ends_loop rounds, self1, trace1) /\
             device self1 = device self /\
             detector self1 = detector self /\
             (ends_loop r || existsb ends_loop rounds = false ->
              running_video self1 = true) /\
             count is_read trace1 = length (rounds_run (r :: rounds)) - 1 /\
             count is_process trace1
             = length (filter has_image (rounds_run (r :: rounds)))
               - (if has_image r then 1 else 0) /\
             count (is_write "default") trace1 = count is_process trace1 /\
             count (is_write "default-birdseye") trace1 = count is_process trace1 /\
             count is_logger_update trace1 = count is_process trace1 /\
             count is_release trace1 = 0).
  { cbn [rounds_run]. destruct (ends_loop r) eqn:Hend.
    - eexists _, []. split.
      + apply frame_loop_test_fails. unfold ends_loop in Hend.
        destruct (stop_called r), (still_open r); cbn in Hend |- *;
          try reflexivity; discriminate.
      + cbn [orb filter length]. destruct (stop_called r), (has_image r);
          cbn; repeat split; try reflexivity; discriminate.
    - unfold ends_loop in Hend. apply orb_false_elim in Hend.
      destruct Hend as [Hstop Hopen]. apply negb_false_iff in Hopen.
      rewrite Hstop, Hopen. cbn [orb].
      destruct (IH self (if has_image r then S frame_num else frame_num) Hrun)
        as [self1 [trace1 [H1 [H2 [H3 [H4 [H5 [H6 [H7 [H8 [H9 H10]]]]]]]]]]].
      exists self1, trace1. cbn [filter length].
      destruct (has_image r); cbn [length]; rewrite ?Nat.sub_0_r;
        repeat split; try assumption; lia. }
  destruct Hnext as [self1 [trace1 [H1 [H2 [H3 [H4 [H5 [H6 [H7 [H8 [H9 H10]]]]]]]]]]].
  assert (Hlen : 1 <= length (rounds_run (r :: rounds))).
  { cbn [rounds_run]. destruct (ends_loop r); cbn [length]; lia. }
  assert (Himg : has_image r = true ->
                 1 <= length (filter has_image (rounds_run (r :: rounds)))).
  { intros Hi. cbn [rounds_run].
    destruct (ends_loop r); cbn [filter]; rewrite Hi; cbn [length]; lia. }
  cbn [frame_loop existsb]. rewrite Hrun. cbn [andb].
  destruct (has_image r) eqn:Hi; rewrite H1.
  - eexists _, _. split; [reflexivity|].
    specialize (Himg eq_refl).
    rewrite !count_app.
    destruct (S frame_num mod 10 =? 1); cbn [count filter is_read is_process
      is_write is_logger_update is_release length app String.eqb Ascii.eqb
      Bool.eqb andb] in *;
      repeat split; try assumption; unfold count in *; lia.
  - eexists _, _. split; [reflexivity|].
    cbn [count filter is_read is_process is_write is_logger_update is_release
           length] in *.
    repeat split; try assumption; unfold count in *; lia.
Qed.
End FrameLoop.

(** Once the source and both sinks have opened, [process_video] runs the
    rounds up to the first in which [stop_process_video] is called or
    after which the capture is closed, that round included, and no round
    after it: it reads once per round, and processes, writes to either
    sink and logs exactly the readings that have an image (the processing
    of a frame is taken not to raise).  It then releases, drops the
    detector and lowers the running flag; as long as no round ends the
    loop it goes on, with the flag raised. *)
Theorem process_video_runs_until_stopped :
  forall (w : Orchestrator.World) (self : Orchestrator.Self) (video_uri : string),
    Orchestrator.supported (Orchestrator.device self) = true ->
    Orchestrator.detector_builds w (Orchestrator.device self) = true ->
    Orchestrator.capture_opens w video_uri = true ->
    Orchestrator.writer_opens w "default" = true ->
    Orchestrator.writer_opens w "default-birdseye" = true ->
    exists self' trace,
      Orchestrator.process_video w self video_uri
      = (if existsb ends_loop (Orchestrator.readings w)
         then Orchestrator.Returned else Orchestrator.StillLooping, self', trace) /\
      count is_read trace = length (rounds_run (Orchestrator.readings w)) /\
      count is_process trace
      = length (filter Orchestrator.has_image (rounds_run (Orchestrator.readings w))) /\
      count (is_write "default") trace = count is_process trace /\
      count (is_write "default-birdseye") trace = count is_process trace /\
      count is_logger_update trace = count is_process trace /\
      (existsb ends_loop (Orchestrator.readings w) = true ->
       Orchestrator.running_video self' = false /\
       Orchestrator.detector self' = None /\
       count is_release trace = 1%nat) /\
      (existsb ends_loop (Orchestrator.readings w) = false ->
       Orchestrator.running_video self' = true /\
       count is_release trace = 0%nat).
Proof.
  intros w self video_uri Hs Hd Ho H1 H2. unfold Orchestrator.process_video.
  rewrite Hs, Hd.
  cbn [negb andb Orchestrator.set_detector Orchestrator.device Orchestrator.detector].
  rewrite andb_false_r, Ho, H1, H2. cbn [negb].
  destruct (@frame_loop_rounds video_uri (Orchestrator.readings w)
              (Orchestrator.set_running
                 (Orchestrator.set_detector self (Some (Orchestrator.device self)))
                 true) 0%nat eq_refl)
    as [self1 [trace1 [E [_ [_ [Hflag [Hr [Hp [Hw1 [Hw2 [Hl Hrel]]]]]]]]]]].
  rewrite E. clear E.
  assert (Hprefix : forall kind,
             kind (Orchestrator.NewDetector (Orchestrator.device self)) = false ->
             (forall what, kind (Orchestrator.Print what) = false) ->
             kind (Orchestrator.NewVideoCapture video_uri) = false ->
             (forall msg, kind (Orchestrator.LogInfo msg) = false) ->
             kind (Orchestrator.SetRunning true) = false ->
             (forall feed, kind (Orchestrator.NewWriter feed) = false) ->
             forall rest,
               count kind
                 ([Orchestrator.NewDetector (Orchestrator.device self)]
                    ++ (if negb (Orchestrator.device self =? "Dummy")%string
                        then [Orchestrator.Print "Device is: ";
                              Orchestrator.Print "Detector is: ";
                              Orchestrator.Print "image size: "]
                        else [])
                    ++ [Orchestrator.NewVideoCapture video_uri]
                    ++ [Orchestrator.LogInfo (String.append "opened video " video_uri)]
                    ++ [Orchestrator.SetRunning true]
                    ++ [Orchestrator.NewWriter "default";
                        Orchestrator.NewWriter "default-birdseye"]
                    ++ rest)
               = count kind rest).
  { intros kind K1 K2 K3 K4 K5 K6 rest. unfold count.
    destruct (negb (Orchestrator.device self =? "Dummy")%string);
      cbn [app filter]; now rewrite ?K1, ?K2, ?K3, ?K4, ?K5, ?K6. }
  destruct (existsb ends_loop (Orchestrator.readings w)).
  - eexists _, _. split; [reflexivity|].
    rewrite !Hprefix by reflexivity. rewrite !count_app.
    cbn [count filter is_read is_process is_write is_logger_update is_release
           length] in *.
    unfold count in *. rewrite !Nat.add_0_r.
    repeat split; try assumption; try discriminate; lia.
  - eexists _, _. split; [reflexivity|].
    rewrite !Hprefix by reflexivity.
    repeat split; try assumption; try discriminate. now apply Hflag.
Qed.

(** The camera of three frames: three rounds are run, the two frames with
    an image are processed, the fourth frame is not read. *)
Lemma process_video_three_frames :
  exists self' trace,
    Orchestrator.process_video three_frames idle_pipeline "rtsp://camera"
    = (Orchestrator.Returned, self', trace) /\
    count is_read trace = 3%nat /\
    count is_process trace = 2%nat /\
    Orchestrator.running_video self' = false.
Proof.
  destruct (@process_video_runs_until_stopped three_frames idle_pipeline
              "rtsp://camera" eq_refl eq_refl eq_refl eq_refl eq_refl)
    as [self' [trace [Hrun [Hr [Hp [_ [_ [_ [Hdone _]]]]]]]]].
  exists self', trace. split; [exact Hrun|]. split; [exact Hr|].
  split; [exact Hp|]. exact (proj1 (Hdone eq_refl)).
Defined.

(** If a sink does not open, [gstreamer_writer] raises [RuntimeError] out
    of [process_video] after the running flag has been raised: the flag
    stays raised and the detector in place, no frame is read and nothing
    is released. *)
Theorem process_video_sink_fails_to_open :
  forall (w : Orchestrator.World) (self : Orchestrator.Self) (video_uri : string),
    Orchestrator.supported (Orchestrator.device self) = true ->
    Orchestrator.detector_builds w (Orchestrator.device self) = true ->
    Orchestrator.capture_opens w video_uri = true ->
    Orchestrator.writer_opens w "default" = false \/
    Orchestrator.writer_opens w "default-birdseye" = false ->
    exists self' trace,
      Orchestrator.process_video w self video_uri
      = (Orchestrator.Raised "RuntimeError", self', trace) /\
      Orchestrator.running_video self' = true /\
      Orchestrator.detector self' = Some (Orchestrator.device self) /\
      Orchestrator.entered_running trace = true /\
      count is_read trace = 0%nat /\
      count is_release trace = 0%nat.
Proof.
  intros w self video_uri Hs Hd Ho Hsink. unfold Orchestrator.process_video.
  rewrite Hs, Hd.
  cbn [negb andb Orchestrator.set_detector Orchestrator.device Orchestrator.detector].
  rewrite andb_false_r, Ho. cbn [negb].
  assert (Hcase : Orchestrator.writer_opens w "default" = false \/
                  (Orchestrator.writer_opens w "default" = true /\
                   Orchestrator.writer_opens w "default-birdseye" = false)).
  { destruct (Orchestrator.writer_opens w "default"); [right|left; reflexivity].
    destruct Hsink as [H|H]; [discriminate|now split]. }
  destruct Hcase as [H1|[H1 H2]]; rewrite H1; [|rewrite H2]; cbn [negb];
    eexists _, _; (split; [reflexivity|]);
    unfold Orchestrator.entered_running, count;
    destruct (negb (Orchestrator.device self =? "Dummy")%string);
    cbn; repeat split; reflexivity.
Qed.

(** The camera whose birds-eye sink does not open. *)
Lemma process_video_broken_sink :
  exists self' trace,
    Orchestrator.process_video broken_sink idle_pipeline "rtsp://camera"
    = (Orchestrator.Raised "RuntimeError", self', trace) /\
    Orchestrator.running_video self' = true /\
    count is_release trace = 0%nat.
Proof.
  destruct (@process_video_sink_fails_to_open broken_sink idle_pipeline
              "rtsp://camera" eq_refl eq_refl eq_refl (or_intror eq_refl))
    as [self' [trace [Hrun [Hflag [_ [_ [_ Hrel]]]]]]].
  exists self', trace. split; [exact Hrun|]. split; [exact Hflag|exact Hrel].
Defined.

(* ================================================================= *)
(** * Strings: splitting, joining, printing a number *)

Section PyFacts.
Local Open Scope string_scope.
Local Open Scope list_scope.

Lemma contains_append (c : ascii) (a b : string) :
  Py.contains c (a ++ b)%string = Py.contains c a || Py.contains c b.
Proof.
  induction a as [|x a IH]; cbn [String.append Py.contains]; [reflexivity|].
  now rewrite IH, orb_assoc.
Qed.

Lemma split_not_empty (sep : ascii) (s : string) : Py.split sep s <> [].
Proof.
  destruct s as [|c s]; cbn [Py.split]; [discriminate|].
  destruct (Ascii.eqb c sep); [discriminate|].
  destruct (Py.split sep s); discriminate.
Qed.

(** A string without the separator is one piece. *)
Lemma split_without (sep : ascii) (s : string) :
  Py.contains sep s = false -> Py.split sep s = [s].
Proof.
  induction s as [|c s IH]; cbn [Py.split Py.contains]; [reflexivity|].
  intros H. apply orb_false_elim in H. destruct H as [Hc Hs].
  rewrite Hc, (IH Hs). reflexivity.
Qed.

(** The first piece ends at the first separator. *)
Lemma split_append (sep : ascii) (a b : string) :
  Py.contains sep a = false ->
  Py.split sep (a ++ String sep b)%string = a :: Py.split sep b.
Proof.
  induction a as [|c a IH]; cbn [String.append Py.split Py.contains].
  - intros _. now rewrite Ascii.eqb_refl.
  - intros H. apply orb_false_elim in H. destruct H as [Hc Ha].
    rewrite Hc, (IH Ha). reflexivity.
Qed.


(** Splitting what was joined gives the pieces back, when no piece holds
    the separator and there is a piece at all. *)
Lemma split_join (sep : ascii) (pieces : list string) :
  pieces <> [] ->
  Forall (fun piece => Py.contains sep piece = false) pieces ->
  Py.split sep (Py.join (String sep "") pieces) = pieces.
Proof.
  induction pieces as [|x pieces IH]; intros Hne Hall; [congruence|].
  apply Forall_cons_iff in Hall. destruct Hall as [Hx Hall].
  destruct pieces as [|y pieces].
  - cbn [Py.join]. now apply split_without.
  - change (Py.join (String sep "") (x :: y :: pieces))
      with (x ++ String sep (Py.join (String sep "") (y :: pieces)))%string.
    rewrite (@split_append sep x _ Hx), IH; [reflexivity|discriminate|exact Hall].
Qed.

Lemma first_line_without (s : string) :
  Py.contains Py.LF s = false -> Py.contains Py.CR s = false ->
  Py.first_line s = s.
Proof.
  induction s as [|c s IH]; cbn [Py.first_line Py.contains]; [reflexivity|].
  intros H1 H2. apply orb_false_elim in H1, H2.
  destruct H1 as [Hc1 Hs1], H2 as [Hc2 Hs2].
  rewrite Hc1, Hc2, (IH Hs1 Hs2). reflexivity.
Qed.

Lemma contains_join (c : ascii) (sep : string) (pieces : list string) :
  Py.contains c sep = false ->
  Forall (fun piece => Py.contains c piece = false) pieces ->
  Py.contains c (Py.join sep pieces) = false.
Proof.
  intros Hsep. induction 1 as [|x pieces Hx Hall IH]; [reflexivity|].
  destruct pieces as [|y pieces]; [exact Hx|].
  change (Py.join sep (x :: y :: pieces))
    with (x ++ sep ++ Py.join sep (y :: pieces))%string.
  now rewrite !contains_append, Hx, Hsep, IH.
Qed.


Lemma str_injective (i j : nat) : Py.str i = Py.str j -> i = j.
Proof.
  unfold Py.str. intros H.
  apply (f_equal NilEmpty.uint_of_string) in H. rewrite !NilEmpty.usu in H.
  inversion H as [H']. apply (f_equal Nat.of_uint) in H'.
  now rewrite !Unsigned.of_to in H'.
Qed.

Lemma append_cancel (a u v : string) : (a ++ u = a ++ v)%string -> u = v.
Proof.
  induction a as [|c a IH]; cbn [String.append]; intros H; [exact H|].
  inversion H. now apply IH.
Qed.
End PyFacts.

(* ================================================================= *)
(** * The calibration file *)

Section CalibrationFile.
Local Open Scope string_scope.
Local Open Scope list_scope.

Lemma read_written_strings (printed : list string) :
  printed <> [] ->
  Forall (fun piece => Py.contains " " piece = false) printed ->
  Forall (fun piece => Py.contains Py.LF piece = false) printed ->
  Forall (fun piece => Py.contains Py.CR piece = false) printed ->
  Calibration.read ("h_inv: " ++ Py.join " " printed) = Some printed.
Proof.
  intros Hne Hblank Hlf Hcr. unfold Calibration.read.
  assert (Hline : Py.readlines_0 ("h_inv: " ++ Py.join " " printed)%string
                  = Some ("h_inv: " ++ Py.join " " printed)%string).
  { cbn [String.append Py.readlines_0]. f_equal.
    change (String "h" (String "_" (String "i" (String "n" (String "v"
              (String ":" (String " " (Py.join " " printed))))))))
      with ("h_inv: " ++ Py.join " " printed)%string.
    apply first_line_without; rewrite contains_append;
      (rewrite contains_join; [reflexivity|reflexivity|assumption]). }
  rewrite Hline.
  change ("h_inv: " ++ Py.join " " printed)%string
    with ("h_inv:" ++ String " " (Py.join " " printed))%string.
  rewrite split_append by reflexivity. cbn [tl].
  now rewrite split_join.
Qed.
End CalibrationFile.

(** From the file that the API writes for a calibration matrix
    ([compute_and_save_inv_homography_matrix]), the core
    ([Distancing.__init__]) takes the nine printed entries, as they were
    printed and row by row, whenever no printed entry holds a blank or a
    line end. *)
Theorem calibration_file_round_trip :
  forall (F : Type) (str_float : F -> string) (h_inv : @Distancing.Mat3 F),
    Forall (fun x => Py.contains " " (str_float x) = false /\
                     Py.contains Py.LF (str_float x) = false /\
                     Py.contains Py.CR (str_float x) = false)
           (Calibration.flatten h_inv) ->
    Calibration.read (Calibration.written str_float h_inv)
    = Some (map str_float (Calibration.flatten h_inv)) /\
    length (map str_float (Calibration.flatten h_inv)) = 9%nat.
Proof.
  intros F str_float h_inv unbroken.
  split; [|destruct h_inv as [[[[a b] c] [[d e] f]] [[g h] i]]; reflexivity].
  unfold Calibration.written. cbv zeta.
  rewrite Forall_forall in unbroken.
  apply read_written_strings.
  - destruct h_inv as [[[[a b] c] [[d e] f]] [[g h] i]]. discriminate.
  - apply Forall_forall. intros t Ht. apply in_map_iff in Ht.
    destruct Ht as [x [<- Hx]]. apply (unbroken x Hx).
  - apply Forall_forall. intros t Ht. apply in_map_iff in Ht.
    destruct Ht as [x [<- Hx]]. apply (unbroken x Hx).
  - apply Forall_forall. intros t Ht. apply in_map_iff in Ht.
    destruct Ht as [x [<- Hx]]. apply (unbroken x Hx).
Qed.

(** A matrix whose entries are given by what is printed of them. *)
Lemma calibration_file_of_printed_entries :
  Forall (fun x : string => Py.contains " " x = false /\
                            Py.contains Py.LF x = false /\
                            Py.contains Py.CR x = false)
         (Calibration.flatten
            (("1.0", "0.0", "-12.5"), ("0.0", "1.0", "7e-05"),
             ("0.0", "0.0", "1.0"))%string) /\
  Calibration.read
    (Calibration.written (fun printed : string => printed)
       (("1.0", "0.0", "-12.5"), ("0.0", "1.0", "7e-05"),
        ("0.0", "0.0", "1.0"))%string)
  = Some ["1.0"; "0.0"; "-12.5"; "0.0"; "1.0"; "7e-05"; "0.0"; "0.0"; "1.0"]%string.
Proof.
  assert (H : Forall (fun x : string => Py.contains " " x = false /\
                                        Py.contains Py.LF x = false /\
                                        Py.contains Py.CR x = false)
                (Calibration.flatten
                   (("1.0", "0.0", "-12.5"), ("0.0", "1.0", "7e-05"),
                    ("0.0", "0.0", "1.0"))%string)).
  { repeat constructor. }
  split; [exact H|].
  exact (proj1 (@calibration_file_round_trip string (fun printed => printed)
                  (("1.0", "0.0", "-12.5"), ("0.0", "1.0", "7e-05"),
                   ("0.0", "0.0", "1.0"))%string H)).
Defined.

(* ================================================================= *)
(** * Commands and results in step *)

Section Lockstep.
Import ProcessorAPI.
Local Open Scope list_scope.

Lemma in_step_refl (q : Queues) : in_step q q.
Proof. exists [], []. now rewrite app_nil_r. Qed.

Lemma in_step_trans (q1 q2 q3 : Queues) :
  in_step q1 q2 -> in_step q2 q3 -> in_step q1 q3.
Proof.
  intros [i1 [c1 [Ha [Hb Hc]]]] [i2 [c2 [Hd [He Hf]]]].
  exists (i1 ++ i2), (c1 ++ c2). rewrite Hd, Ha, Hb, He, !length_app.
  now rewrite !app_assoc, Hc, Hf.
Qed.

Lemma put_get_in_step (c : Commands) (q q1 q2 : Queues) (r : bool) :
  put c q = Some (tt, q1) -> get q1 = Some (r, q2) -> in_step q q2.
Proof.
  unfold put, get. intros H1 H2. inversion H1; subst q1. clear H1.
  cbn [result_queue cmd_queue log] in H2.
  destruct (result_queue q) as [|x rest] eqn:E; [discriminate|].
  inversion H2; subst. eexists [c], [_]. cbn [cmd_queue result_queue].
  rewrite E. repeat split; reflexivity.
Qed.

Lemma logger_info_in_step (msg : string) (q q' : Queues) :
  logger_info msg q = Some (tt, q') -> in_step q q'.
Proof.
  unfold logger_info. intros H. inversion H; subst.
  exists [], []. cbn [cmd_queue result_queue]. now rewrite app_nil_r.
Qed.

Lemma restart_processor_in_step (q q' : Queues) (r : bool) :
  restart_processor q = Some (r, q') -> in_step q q'.
Proof.
  unfold restart_processor, bind, put, get, logger_info, ret.
  cbn [cmd_queue result_queue log].
  destruct (result_queue q) as [|stopped rest] eqn:E; [discriminate|].
  destruct stopped.
  - cbn [cmd_queue result_queue log].
    destruct rest as [|started rest']; [discriminate|].
    destruct started; cbn [negb cmd_queue result_queue log]; intros H;
      inversion H; subst;
      eexists [STOP_PROCESS_VIDEO; PROCESS_VIDEO_CFG], [true; _];
      cbn [cmd_queue result_queue length app];
      rewrite <- app_assoc, E; repeat split; reflexivity.
  - intros H. inversion H; subst.
    exists [STOP_PROCESS_VIDEO], [false]. cbn [cmd_queue result_queue].
    now rewrite E.
Qed.

Lemma endpoint_in_step (c : Commands) (first second : string)
      (q q' : Queues) (r : bool) :
  (logger_info first ;; put c ;; logger_info second ;; result <- get ;; ret result) q
  = Some (r, q') ->
  in_step q q'.
Proof.
  unfold bind, put, get, logger_info, ret. cbn [cmd_queue result_queue log].
  destruct (result_queue q) as [|x rest] eqn:E; [discriminate|].
  intros H. inversion H; subst. eexists [c], [_].
  cbn [cmd_queue result_queue]. rewrite E. repeat split; reflexivity.
Qed.

Lemma serve_in_step (request : Endpoints.Request) (q q' : Queues) (r : bool) :
  Endpoints.serve request q = Some (r, q') -> in_step q q'.
Proof.
  destruct request; cbn [Endpoints.serve].
  - apply endpoint_in_step.
  - apply endpoint_in_step.
  - apply restart_processor_in_step.
Qed.

(** Whatever requests the API serves, one after the other, and whatever
    the core answers: when the last request has been answered, the API has
    taken one result from the result queue for every command it has put on
    the command queue, and has given one answer per request. *)
Theorem serve_all_in_step :
  forall (requests : list Endpoints.Request) (q q' : Queues) (answers : list bool),
    Endpoints.serve_all requests q = Some (answers, q') ->
    in_step q q' /\ length answers = length requests.
Proof.
  induction requests as [|request requests IH]; intros q q' answers H.
  - cbn [Endpoints.serve_all] in H. unfold ret in H. inversion H; subst.
    split; [apply in_step_refl|reflexivity].
  - cbn [Endpoints.serve_all] in H. unfold bind at 1 in H.
    destruct (Endpoints.serve request q) as [[answer q1]|] eqn:E1; [|discriminate].
    unfold bind in H.
    destruct (Endpoints.serve_all requests q1) as [[rest q2]|] eqn:E2;
      [|discriminate].
    unfold ret in H. inversion H; subst.
    destruct (IH _ _ _ E2) as [Hstep Hlen].
    split; [|cbn [length]; now rewrite Hlen].
    eapply in_step_trans; [exact (serve_in_step _ _ E1)|exact Hstep].
Qed.
End Lockstep.

(** A stop and a change of the configuration, with a core that answers
    three times. *)
Lemma serve_all_stop_then_put_config :
  exists answers q',
    Endpoints.serve_all [Endpoints.GetStopProcessVideo; Endpoints.PutConfig]
      (queues [] [true; true; true] [])
    = Some (answers, q') /\
    in_step (queues [] [true; true; true] []) q' /\
    length answers = 2%nat.
Proof.
  eexists _, _. split; [reflexivity|].
  exact (@serve_all_in_step
           [Endpoints.GetStopProcessVideo; Endpoints.PutConfig]
           (queues [] [true; true; true] []) _ _ eq_refl).
Defined.

(** [restart_processor] never returns exactly when the core gives no
    answer to the stop, or answers it with [True] and gives no answer to
    the start that follows.  When it returns, it returns [False] exactly
    when it has logged the failure. *)
Theorem restart_processor_waits_exactly :
  forall q : ProcessorAPI.Queues,
    (ProcessorAPI.restart_processor q = None <->
     ProcessorAPI.result_queue q = [] \/ ProcessorAPI.result_queue q = [true]) /\
    (forall r q', ProcessorAPI.restart_processor q = Some (r, q') ->
       (r = false <->
        ProcessorAPI.log q'
        = ProcessorAPI.log q ++ ["Restarting video processor..."%string;
                                 "Failed to restart video processor..."%string])).
Proof.
  intros q.
  unfold ProcessorAPI.restart_processor, ProcessorAPI.bind, ProcessorAPI.put,
    ProcessorAPI.get, ProcessorAPI.logger_info, ProcessorAPI.ret.
  cbn [ProcessorAPI.cmd_queue ProcessorAPI.result_queue ProcessorAPI.log].
  destruct (ProcessorAPI.result_queue q) as [|stopped rest].
  { split; [split; [now left|reflexivity]|discriminate]. }
  destruct stopped.
  - cbn [ProcessorAPI.cmd_queue ProcessorAPI.result_queue ProcessorAPI.log].
    destruct rest as [|started rest'].
    { split; [split; [now right|reflexivity]|discriminate]. }
    destruct started;
      cbn [negb ProcessorAPI.cmd_queue ProcessorAPI.result_queue ProcessorAPI.log].
    + split; [split; [discriminate|intros [H|H]; discriminate]|].
      intros r q' H. inversion H; subst. cbn [ProcessorAPI.log].
      split; [discriminate|]. intros E. apply app_inv_head in E. discriminate.
    + split; [split; [discriminate|intros [H|H]; discriminate]|].
      intros r q' H. inversion H; subst. cbn [ProcessorAPI.log].
      split; [intros _|reflexivity]. now rewrite <- app_assoc.
  - split; [split; [discriminate|intros [H|H]; discriminate]|].
    intros r q' H. inversion H; subst. cbn [ProcessorAPI.log].
    split; [discriminate|]. intros E. apply app_inv_head in E. discriminate.
Qed.

(* ================================================================= *)
(** * The cameras through the configuration *)

Section CameraSections.
Local Open Scope string_scope.
Local Open Scope list_scope.
Variable Setting : Type.
Variable str_setting : Setting -> string.
Variable screenshot : option string -> string.

Lemma source_name_injective (i j : nat) :
  ("Source_" ++ Py.str i = "Source_" ++ Py.str j)%string -> i = j.
Proof. intros H. apply append_cancel in H. now apply str_injective. Qed.

Lemma source_name_startswith (i : nat) :
  Py.startswith ("Source_" ++ Py.str i)%string "Source" = true.
Proof. reflexivity. Qed.

Lemma find_app_first {A : Type} (f : A -> bool) (l1 l2 : list A) :
  find f (l1 ++ l2)
  = match find f l1 with Some x => Some x | None => find f l2 end.
Proof.
  induction l1 as [|a l1 IH]; cbn [app find]; [reflexivity|].
  now destruct (f a).
Qed.

Lemma find_app_none {A : Type} (f : A -> bool) (l1 l2 : list A) :
  (forall x, In x l1 -> f x = false) -> find f (l1 ++ l2) = find f l2.
Proof.
  induction l1 as [|a l1 IH]; intros H; [reflexivity|].
  cbn [app find]. rewrite (H a (or_introl eq_refl)).
  apply IH. intros x Hx. apply H. now right.
Qed.

Lemma find_none {A : Type} (f : A -> bool) (l : list A) :
  (forall x, In x l -> f x = false) -> find f l = None.
Proof.
  intros H. rewrite <- (app_nil_r l), find_app_none by exact H. reflexivity.
Qed.

Lemma existsb_none {A : Type} (f : A -> bool) (l : list A) :
  (forall x, In x l -> f x = false) -> existsb f l = false.
Proof.
  induction l as [|a l IH]; intros H; [reflexivity|].
  cbn [existsb]. rewrite (H a (or_introl eq_refl)).
  apply IH. intros x Hx. apply H. now right.
Qed.

(** Every camera gets a section of its own, in the order of the cameras:
    an assignment never meets a key that is there. *)
Lemma sections_appended (cameras : list (Config.CameraDTO Setting)) :
  forall (s : nat) (config_dict : Dict.t (Dict.t string)),
    (forall kv, In kv config_dict ->
                exists j, (j < s)%nat /\ fst kv = ("Source_" ++ Py.str j)%string) ->
    fold_left
      (fun config_dict count_camera =>
         Dict.set config_dict
                  ("Source_" ++ Py.str (fst count_camera))%string
                  (Config.section_of str_setting (snd count_camera)))
      (combine (seq s (length cameras)) cameras) config_dict
    = config_dict ++ map (Config.source_section str_setting) (combine (seq s (length cameras)) cameras).
Proof.
  induction cameras as [|camera cameras IH]; intros s config_dict Hkeys.
  { cbn [length seq combine fold_left map]. now rewrite app_nil_r. }
  cbn [length seq combine fold_left map fst snd].
  assert (Hnew : existsb (Dict.has_key ("Source_" ++ Py.str s)%string) config_dict = false).
  { apply existsb_none. intros kv Hkv. destruct (Hkeys kv Hkv) as [j [Hj Hname]].
    unfold Dict.has_key. rewrite Hname. apply String.eqb_neq.
    intros E. apply source_name_injective in E. lia. }
  unfold Dict.set at 2. rewrite Hnew. rewrite IH.
  - now rewrite <- app_assoc.
  - intros kv Hkv. apply in_app_or in Hkv. destruct Hkv as [Hkv|[<-|[]]].
    + destruct (Hkeys kv Hkv) as [j [Hj Hname]]. exists j. split; [lia|exact Hname].
    + exists s. split; [lia|reflexivity].
Qed.

Lemma map_to_config_file_format_sections (cameras : list (Config.CameraDTO Setting)) :
  Config.map_to_config_file_format str_setting cameras
  = map (Config.source_section str_setting) (enumerate cameras).
Proof.
  unfold Config.map_to_config_file_format, enumerate.
  rewrite sections_appended; [reflexivity|]. intros kv [].
Qed.

(** The section of a camera is found under its name. *)
Lemma find_source_section (cameras : list (Config.CameraDTO Setting)) :
  forall (s i : nat) (camera : Config.CameraDTO Setting),
    nth_error cameras i = Some camera ->
    find (Dict.has_key ("Source_" ++ Py.str (s + i))%string)
         (map (Config.source_section str_setting) (combine (seq s (length cameras)) cameras))
    = Some (Config.source_section str_setting ((s + i)%nat, camera)).
Proof.
  induction cameras as [|c cameras IH]; intros s i camera Hi.
  { destruct i; discriminate. }
  cbn [length seq combine map find]. unfold Dict.has_key at 1.
  cbn [Config.source_section fst snd].
  destruct i as [|i].
  - cbn [nth_error] in Hi. inversion Hi; subst.
    now rewrite Nat.add_0_r, String.eqb_refl.
  - cbn [nth_error] in Hi.
    replace (String.eqb ("Source_" ++ Py.str s)%string
                        ("Source_" ++ Py.str (s + S i))%string)
      with false
      by (symmetry; apply String.eqb_neq; intros E;
          apply source_name_injective in E; lia).
    replace (s + S i)%nat with (S s + i)%nat by lia. now apply IH.
Qed.

Lemma for_each_map {A B C : Type} (f : B -> option C) (g : A -> B) (h : A -> C)
      (l : list A) :
  (forall x, In x l -> f (g x) = Some (h x)) ->
  Distancing.for_each f (map g l) = Some (map h l).
Proof.
  induction l as [|a l IH]; intros H; cbn [map Distancing.for_each];
    [reflexivity|].
  rewrite (H a (or_introl eq_refl)), IH; [reflexivity|].
  intros x Hx. apply H. now right.
Qed.

Lemma filter_none {A : Type} (f : A -> bool) (l : list A) :
  (forall x, In x l -> f x = false) -> filter f l = [].
Proof.
  induction l as [|a l IH]; intros H; [reflexivity|].
  cbn [filter]. rewrite (H a (or_introl eq_refl)).
  apply IH. intros x Hx. apply H. now right.
Qed.

Lemma map_config_sections (cameras : list (Config.CameraDTO Setting))
      (others : Dict.t (Dict.t string)) (with_image : bool) :
  Forall (fun kv => Py.startswith (fst kv) "Source" = false) others ->
  Config.map_config screenshot
    (others ++ Config.map_to_config_file_format str_setting cameras) with_image
  = match Dict.get others "API" with
    | None => None
    | Some api =>
        Some {| Config.host := Dict.get api "Host";
                Config.port := Dict.get api "Port";
                Config.cameras :=
                  map (Config.mapped_camera str_setting screenshot with_image)
                      cameras |}
    end.
Proof.
  intros Hothers. rewrite Forall_forall in Hothers.
  rewrite map_to_config_file_format_sections.
  unfold Config.map_config. cbv zeta.
  assert (Hapi : Dict.get (others ++ map (Config.source_section str_setting) (enumerate cameras)) "API"
                 = Dict.get others "API").
  { unfold Dict.get. rewrite find_app_first.
    destruct (find (Dict.has_key "API") others); [reflexivity|].
    rewrite find_none; [reflexivity|].
    intros kv Hkv. apply in_map_iff in Hkv. destruct Hkv as [ic [<- _]].
    reflexivity. }
  rewrite Hapi. destruct (Dict.get others "API") as [api|]; [|reflexivity].
  assert (Hnames : filter (fun x => Py.startswith x "Source")
                     (Dict.keys (others ++ map (Config.source_section str_setting) (enumerate cameras)))
                   = map (fun ic => fst (Config.source_section str_setting ic)) (enumerate cameras)).
  { unfold Dict.keys. rewrite map_app, filter_app, map_map.
    rewrite filter_none.
    - cbn [app]. apply filter_all. intros x Hx. apply in_map_iff in Hx.
      destruct Hx as [ic [<- _]]. reflexivity.
    - intros x Hx. apply in_map_iff in Hx. destruct Hx as [kv [<- Hkv]].
      now apply Hothers. }
  rewrite Hnames.
  rewrite (for_each_map _ _
             (fun ic => Config.mapped_camera str_setting screenshot with_image (snd ic))).
  - now rewrite <- map_map, map_snd_enumerate.
  - intros [i camera] Hic. apply in_enumerate in Hic.
    unfold Config.map_camera, Dict.get at 1.
    rewrite find_app_none.
    + cbn [Config.source_section fst snd]. unfold enumerate.
      pose proof (find_source_section cameras 0 i Hic) as Hfind.
      cbn [Nat.add] in Hfind. rewrite Hfind. reflexivity.
    + intros kv Hkv. unfold Dict.has_key. apply String.eqb_neq. intros E.
      pose proof (Hothers kv Hkv) as Hno. rewrite E in Hno.
      cbn [Config.source_section fst] in Hno. discriminate.
Qed.
End CameraSections.

(** The cameras that [PUT /config] writes ([map_to_config_file_format])
    are the cameras that [GET /config] reads ([map_config]): every camera
    gets a section of its own, [Source_0], [Source_1], ..., no section
    is overwritten, and from these sections, beside any sections whose
    names do not start with [Source], [map_config] gives the cameras back
    in their order, with their id, name, video path and emails and with
    the two numbers as strings. *)
Theorem cameras_through_configuration :
  forall (Setting : Type) (str_setting : Setting -> string)
         (screenshot : option string -> string)
         (cameras : list (Config.CameraDTO Setting))
         (others : Dict.t (Dict.t string)) (with_image : bool),
    Forall (fun kv => Py.startswith (fst kv) "Source" = false) others ->
    Dict.keys (Config.map_to_config_file_format str_setting cameras)
    = map (fun count => ("Source_" ++ Py.str count)%string) (seq 0 (length cameras)) /\
    NoDup (Dict.keys (Config.map_to_config_file_format str_setting cameras)) /\
    Config.map_config screenshot
      (others ++ Config.map_to_config_file_format str_setting cameras) with_image
    = match Dict.get others "API" with
      | None => None
      | Some api =>
          Some {| Config.host := Dict.get api "Host";
                  Config.port := Dict.get api "Port";
                  Config.cameras :=
                    map (Config.mapped_camera str_setting screenshot with_image)
                        cameras |}
      end.
Proof.
  intros Setting str_setting screenshot cameras others with_image Hothers.
  assert (Hkeys : Dict.keys (Config.map_to_config_file_format str_setting cameras)
                  = map (fun count => ("Source_" ++ Py.str count)%string)
                        (seq 0 (length cameras))).
  { rewrite map_to_config_file_format_sections. unfold Dict.keys, enumerate.
    rewrite <- (map_fst_combine_seq cameras 0) at 2. rewrite !map_map.
    reflexivity. }
  split; [exact Hkeys|]. split.
  - rewrite Hkeys. apply NoDup_map_NoDup_ForallPairs; [|apply seq_NoDup].
    intros i j _ _ E. now apply source_name_injective.
  - now apply map_config_sections.
Qed.

(** Two cameras beside the sections [App] and [API]. *)
Lemma two_cameras_through_configuration :
  Forall (fun kv : string * Dict.t string => Py.startswith (fst kv) "Source" = false)
         other_sections /\
  Config.map_config (fun _ => EmptyString)
    (other_sections ++ Config.map_to_config_file_format Py.str two_cameras) false
  = Some {| Config.host := Some "0.0.0.0"%string;
            Config.port := Some "8000"%string;
            Config.cameras :=
              map (Config.mapped_camera Py.str (fun _ => EmptyString) false)
                  two_cameras |}.
Proof.
  assert (H : Forall (fun kv : string * Dict.t string =>
                        Py.startswith (fst kv) "Source" = false) other_sections).
  { repeat constructor. }
  split; [exact H|].
  exact (proj2 (proj2 (@cameras_through_configuration nat Py.str
                         (fun _ => EmptyString) two_cameras other_sections false H))).
Defined.

(* ================================================================= *)
(** * The ids of the tracked objects *)

Section TrackedIds.
Context {F : Type} {num : Number F}.
Local Open Scope list_scope.







End TrackedIds.




(* ================================================================= *)
(** * Waiting for the core's queues *)

(** [_setup_queues] tries to connect until an attempt is not refused, and
    sleeps a second after every refusal: after [n] refusals it has tried
    [n + 1] times and slept [n] seconds when the next attempt is accepted
    (it then fetches the two queues) or fails otherwise (the exception is
    raised, the queues are not fetched); as long as every attempt is
    refused it goes on. *)
Theorem setup_queues_retries :
  forall (n : nat) (later : list QueueSetup.Attempt),
    (exists trace,
        QueueSetup.setup_queues (repeat QueueSetup.Refused n ++ QueueSetup.Accepted :: later)
        = (QueueSetup.Connected, trace) /\
        QueueSetup.attempts_made trace = S n /\
        QueueSetup.slept trace = n /\
        QueueSetup.queues_fetched trace = true) /\
    (forall exn, exists trace,
        QueueSetup.setup_queues
          (repeat QueueSetup.Refused n ++ QueueSetup.Failed exn :: later)
        = (QueueSetup.Raised exn, trace) /\
        QueueSetup.attempts_made trace = S n /\
        QueueSetup.slept trace = n /\
        QueueSetup.queues_fetched trace = false) /\
    (exists trace,
        QueueSetup.setup_queues (repeat QueueSetup.Refused n)
        = (QueueSetup.StillWaiting, trace) /\
        QueueSetup.attempts_made trace = n /\
        QueueSetup.slept trace = n).
Proof.
  intros n later.
  assert (Hloop : forall (next : list QueueSetup.Attempt),
             exists trace,
               QueueSetup.connect_loop (repeat QueueSetup.Refused n ++ next)
               = (fst (QueueSetup.connect_loop next),
                  trace ++ snd (QueueSetup.connect_loop next)) /\
               QueueSetup.attempts_made trace = n /\
               QueueSetup.slept trace = n /\
               QueueSetup.queues_fetched trace = false /\
               (forall rest, QueueSetup.attempts_made (trace ++ rest)
                             = (n + QueueSetup.attempts_made rest)%nat) /\
               (forall rest, QueueSetup.slept (trace ++ rest)
                             = (n + QueueSetup.slept rest)%nat) /\
               (forall rest, QueueSetup.queues_fetched (trace ++ rest)
                             = QueueSetup.queues_fetched rest)).
  { intros next. induction n as [|n IH].
    - exists []. cbn [repeat app]. destruct (QueueSetup.connect_loop next).
      repeat split.
    - destruct IH as [trace [E [H1 [H2 [H3 [H4 [H5 H6]]]]]]].
      exists ([QueueSetup.Connect;
               QueueSetup.Warning "Waiting for core's queue to initiate ... ";
               QueueSetup.Sleep 1] ++ trace).
      cbn [repeat app QueueSetup.connect_loop]. rewrite E.
      cbn [app]. split; [reflexivity|].
      unfold QueueSetup.attempts_made, QueueSetup.slept, QueueSetup.queues_fetched
        in *.
      cbn [filter length fold_right existsb orb Nat.add app].
      repeat split.
      + now rewrite H1.
      + now rewrite H2.
      + exact H3.
      + intros rest. now rewrite H4.
      + intros rest. now rewrite H5.
      + intros rest. now rewrite H6. }
  split; [|split].
  - destruct (Hloop (QueueSetup.Accepted :: later))
      as [trace [E [_ [_ [_ [H4 [H5 H6]]]]]]].
    eexists. unfold QueueSetup.setup_queues. rewrite E.
    cbn [QueueSetup.connect_loop fst snd]. split; [reflexivity|].
    rewrite <- app_assoc, H4, H5, H6. cbn. repeat split; lia.
  - intros exn. destruct (Hloop (QueueSetup.Failed exn :: later))
      as [trace [E [_ [_ [_ [H4 [H5 H6]]]]]]].
    eexists. unfold QueueSetup.setup_queues. rewrite E.
    cbn [QueueSetup.connect_loop fst snd]. split; [reflexivity|].
    rewrite H4, H5, H6. cbn. repeat split; lia.
  - destruct (Hloop []) as [trace [E [H1 [H2 _]]]].
    exists trace. unfold QueueSetup.setup_queues.
    rewrite app_nil_r in E. rewrite E. cbn [QueueSetup.connect_loop fst snd].
    rewrite app_nil_r. repeat split; assumption.
Qed.

(* ================================================================= *)
(** * Suppression and the order of the input *)

Section OrderOfTheInput.
Local Open Scope R_scope.

Lemma candidates_Permutation {F : Type} {num : Number F}
      (placed : list (@Placed F)) :
  Permutation (candidates placed) placed.
Proof.
  unfold candidates. etransitivity; [symmetry; apply Permutation_rev|].
  apply stable_sort_Permutation.
Qed.

(** The detections in the order in which the loop takes them. *)
Lemma taken_Permutation (object_list : list (Detection R)) :
  Permutation (map snd (candidates (enumerate object_list))) object_list.
Proof.
  rewrite <- (map_snd_enumerate object_list) at 2.
  apply Permutation_map, candidates_Permutation.
Qed.

Lemma descending_strict (l : list (Detection R)) :
  StronglySorted (fun a b => bottom_edge b <= bottom_edge a) l ->
  NoDup (map (@bottom_edge R _) l) ->
  StronglySorted (fun a b => bottom_edge b < bottom_edge a) l.
Proof.
  induction 1 as [|a l Hl IH Ha]; intros Hnodup; [constructor|].
  cbn [map] in Hnodup. apply NoDup_cons_iff in Hnodup.
  destruct Hnodup as [Hfresh Hnodup].
  constructor; [now apply IH|].
  rewrite Forall_forall in *. intros b Hb.
  destruct (Rle_lt_or_eq_dec _ _ (Ha b Hb)) as [Hlt|Heq]; [exact Hlt|].
  exfalso. apply Hfresh. rewrite <- Heq. now apply in_map.
Qed.

Lemma taken_descending (object_list : list (Detection R)) :
  NoDup (map (@bottom_edge R _) object_list) ->
  StronglySorted (fun a b => bottom_edge b < bottom_edge a)
                 (map snd (candidates (enumerate object_list))).
Proof.
  intros Hnodup. apply descending_strict.
  - pose proof (candidates_sorted R_sort_asym R_sort_cotrans
                  (@enumerate_ascending _ object_list)) as Hs.
    induction Hs as [|x l Hl IH Hx]; cbn [map]; constructor; [exact IH|].
    rewrite Forall_forall in *. intros b Hb. apply in_map_iff in Hb.
    destruct Hb as [y [<- Hy]].
    pose proof (earlier_key R_sort_asym (Hx y Hy)) as Hk.
    cbn [sort_ltb R_number] in Hk. now apply Rltb_false in Hk.
  - eapply Permutation_NoDup; [|exact Hnodup].
    apply Permutation_map. symmetry. apply taken_Permutation.
Qed.

Lemma kept_Permutation (object_list : list (Detection R)) (overlapThresh : R)
      (picked : list (@Placed R)) :
  Greedy (suppresses overlapThresh) (candidates (enumerate object_list)) picked ->
  Permutation (map snd (select picked (enumerate object_list))) (map snd picked).
Proof.
  intros Hg. apply Permutation_map.
  rewrite <- (candidates_select R_sort_asym R_sort_cotrans
                (@enumerate_ascending _ object_list) Hg) at 2.
  symmetry. apply candidates_Permutation.
Qed.

Lemma taken_equal (object_list object_list' : list (Detection R)) :
  Permutation object_list object_list' ->
  NoDup (map (@bottom_edge R _) object_list) ->
  map snd (candidates (enumerate object_list))
  = map snd (candidates (enumerate object_list')).
Proof.
  intros Hperm Hnodup.
  apply (@StronglySorted_unique _ (fun a b => bottom_edge b < bottom_edge a)).
  - intros x. lra.
  - intros x y. lra.
  - now apply taken_descending.
  - apply taken_descending. eapply Permutation_NoDup; [|exact Hnodup].
    now apply Permutation_map.
  - etransitivity; [apply taken_Permutation|].
    etransitivity; [exact Hperm|]. symmetry. apply taken_Permutation.
Qed.
End OrderOfTheInput.

(** When no two detections have the same [cy + h/2], what
    [non_max_suppression_fast] keeps does not depend on the order of its
    input: for two lists with the same detections, the two results have
    the same detections. *)
Theorem non_max_suppression_fast_order_independent :
  forall (object_list object_list' : list (Detection R)) (overlapThresh : R),
    Permutation object_list object_list' ->
    NoDup (map (@bottom_edge R _) object_list) ->
    exists kept kept',
      Distancing.non_max_suppression_fast object_list overlapThresh = Some kept /\
      Distancing.non_max_suppression_fast object_list' overlapThresh = Some kept' /\
      Permutation kept kept'.
Proof.
  intros object_list object_list' overlapThresh Hperm Hnodup.
  destruct (non_max_suppression_fast_rounds object_list overlapThresh)
    as [picked [Hg Hrun]].
  destruct (non_max_suppression_fast_rounds object_list' overlapThresh)
    as [picked' [Hg' Hrun']].
  eexists _, _. split; [exact Hrun|]. split; [exact Hrun'|].
  etransitivity; [exact (@kept_Permutation object_list overlapThresh picked Hg)|].
  etransitivity;
    [|symmetry; exact (@kept_Permutation object_list' overlapThresh picked' Hg')].
  assert (Hdrops : forall (d : list (@Placed R)) x y, In x d -> In y d ->
             (fun a b : Detection R => box_overlap a b >? overlapThresh)%num
               (snd x) (snd y)
             = suppresses overlapThresh x y) by reflexivity.
  pose proof (@Greedy_map _ _ (@snd nat (Detection R)) _ _ _ _ (Hdrops _) Hg) as H.
  pose proof (@Greedy_map _ _ (@snd nat (Detection R)) _ _ _ _ (Hdrops _) Hg') as H'.
  rewrite (@taken_equal object_list object_list' Hperm Hnodup) in H.
  now rewrite (Greedy_functional H H').
Qed.

(** The boxes A and B in their two orders. *)
Lemma non_max_suppression_fast_boxes_A_B_order :
  Permutation [box_A; box_B] [box_B; box_A] /\
  NoDup (map (@bottom_edge R _) [box_A; box_B]) /\
  exists kept kept',
    Distancing.non_max_suppression_fast [box_A; box_B] 0.3 = Some kept /\
    Distancing.non_max_suppression_fast [box_B; box_A] 0.3 = Some kept' /\
    Permutation kept kept'.
Proof.
  assert (Hperm : Permutation [box_A; box_B] [box_B; box_A]) by apply perm_swap.
  assert (Hnodup : NoDup (map (@bottom_edge R _) [box_A; box_B])).
  { cbn [map]. rewrite bottom_edge_A, bottom_edge_B.
    repeat constructor; cbn [In]; lra. }
  split; [exact Hperm|]. split; [exact Hnodup|].
  exact (@non_max_suppression_fast_order_independent [box_A; box_B]
           [box_B; box_A] 0.3 Hperm Hnodup).
Defined.

(* ================================================================= *)
(** * The pinhole methods and the size of the image *)

Section ImageSize.
Local Open Scope R_scope.





End ImageSize.



(* ================================================================= *)
(** * Suppression on its own output *)

Section AnyAscendingOrder.
Context {F : Type} {num : Number F}.
Hypothesis sort_asym :
  forall a b : F, sort_ltb a b = true -> sort_ltb b a = false.
Hypothesis sort_cotrans :
  forall a b c : F, sort_ltb a b = true -> sort_ltb a c = true \/ sort_ltb c b = true.

Lemma without_ties_items (keys : list F) (i j : nat) :
  Argsort.without_ties keys ->
  (i < length keys)%nat -> (j < length keys)%nat -> i <> j ->
  sort_ltb (Distancing.item keys i) (Distancing.item keys j) = true \/
  sort_ltb (Distancing.item keys j) (Distancing.item keys i) = true.
Proof.
  intros H. revert i j.
  induction H as [|a l Ha _ IH]; intros i j Hi Hj Hne; [cbn in Hi; lia|].
  cbn [length] in Hi, Hj. rewrite Forall_forall in Ha.
  unfold Distancing.item in *.
  destruct i as [|i], j as [|j]; cbn [nth]; [lia| | |].
  - apply Ha, nth_In. lia.
  - destruct (Ha (nth i l (of_int 0))) as [H|H]; [apply nth_In; lia|now right|now left].
  - apply IH; lia.
Qed.

Lemma without_ties_Subsequence (s l : list F) :
  Subsequence s l -> Argsort.without_ties l -> Argsort.without_ties s.
Proof.
  unfold Argsort.without_ties.
  induction 1 as [|x s l Hsub IH|x s l Hsub IH]; intros H.
  - constructor.
  - inversion H; subst. now apply IH.
  - inversion H as [|? ? Hx Hl]; subst. constructor; [|now apply IH].
    rewrite Forall_forall in *. intros y Hy. apply Hx.
    eapply Subsequence_In; eauto.
Qed.

(** Without equal keys there is one ascending order, the stable one. *)
Lemma ascending_without_ties (object_list : list (Detection F)) (idxs : list nat) :
  Argsort.without_ties (Argsort.keys object_list) ->
  Argsort.ascending (Argsort.keys object_list) idxs ->
  idxs = Distancing.argsort (Argsort.keys object_list).
Proof.
  intros Hties [Hperm Hsorted].
  apply (argsort_without_ties sort_asym sort_cotrans); [|exact Hperm|exact Hsorted].
  intros i j Hi Hj Hne. now apply without_ties_items.
Qed.

Lemma kept_without_ties (object_list kept : list (Detection F)) (overlapThresh : F) :
  Argsort.without_ties (Argsort.keys object_list) ->
  Distancing.non_max_suppression_fast object_list overlapThresh = Some kept ->
  Argsort.without_ties (Argsort.keys kept).
Proof.
  intros Hties Hrun.
  destruct (non_max_suppression_fast_rounds object_list overlapThresh)
    as [picked [_ Hrun']].
  assert (E : kept = map snd (select picked (enumerate object_list))) by congruence.
  apply (@without_ties_Subsequence _ (Argsort.keys object_list)); [|exact Hties].
  rewrite !keys_bottom_edges.
  apply Subsequence_map. rewrite E.
  rewrite <- (map_snd_enumerate object_list) at 2.
  apply Subsequence_map, Subsequence_filter.
Qed.

Lemma twice_without_ties (object_list : list (Detection F)) (overlapThresh : F)
      (idxs : list nat) :
  Argsort.without_ties (Argsort.keys object_list) ->
  Argsort.ascending (Argsort.keys object_list) idxs ->
  exists kept,
    Argsort.non_max_suppression_fast idxs object_list overlapThresh = Some kept /\
    forall idxs',
      Argsort.ascending (Argsort.keys kept) idxs' ->
      Argsort.non_max_suppression_fast idxs' kept overlapThresh = Some kept.
Proof.
  intros Hties Hasc.
  destruct (@non_max_suppression_fast_again F num sort_asym sort_cotrans
              object_list overlapThresh) as [kept [Hrun Hagain]].
  exists kept. split.
  - rewrite (@ascending_without_ties object_list idxs Hties Hasc).
    exact Hrun.
  - intros idxs' Hasc'.
    rewrite (@ascending_without_ties kept idxs'
               (@kept_without_ties object_list kept overlapThresh Hties Hrun)
               Hasc').
    exact Hagain.
Qed.
End AnyAscendingOrder.

(** C4, amended.  When no two detections have the same [cy + h/2],
    [non_max_suppression_fast] applied to its own output, with the same
    threshold, returns that output again, whatever ascending order
    [np.argsort] gives in either run (there is then one only); over the
    real numbers and in binary64. *)
Theorem non_max_suppression_fast_idempotent_without_ties :
  (forall (object_list : list (Detection R)) (overlapThresh : R) (idxs : list nat),
      Argsort.without_ties (Argsort.keys object_list) ->
      Argsort.ascending (Argsort.keys object_list) idxs ->
      exists kept,
        Argsort.non_max_suppression_fast idxs object_list overlapThresh = Some kept /\
        forall idxs',
          Argsort.ascending (Argsort.keys kept) idxs' ->
          Argsort.non_max_suppression_fast idxs' kept overlapThresh = Some kept) /\
  (forall (object_list : list (Detection float)) (overlapThresh : float)
          (idxs : list nat),
      @Argsort.without_ties float Binary64.number
        (@Argsort.keys float Binary64.number object_list) ->
      @Argsort.ascending float Binary64.number
        (@Argsort.keys float Binary64.number object_list) idxs ->
      exists kept,
        @Argsort.non_max_suppression_fast float Binary64.number
          idxs object_list overlapThresh = Some kept /\
        forall idxs',
          @Argsort.ascending float Binary64.number
            (@Argsort.keys float Binary64.number kept) idxs' ->
          @Argsort.non_max_suppression_fast float Binary64.number
            idxs' kept overlapThresh = Some kept).
Proof.
  split.
  - intros object_list overlapThresh idxs.
    exact (@twice_without_ties R R_number R_sort_asym R_sort_cotrans
             object_list overlapThresh idxs).
  - intros object_list overlapThresh idxs.
    exact (@twice_without_ties float Binary64.number
             Binary64Facts.np_sort_asym Binary64Facts.np_sort_cotrans
             object_list overlapThresh idxs).
Qed.

(** The boxes A and B in binary64, whose keys are 0.3 and 0.32. *)
Lemma non_max_suppression_fast_twice_boxes_A_B :
  @Argsort.without_ties float Binary64.number
    (@Argsort.keys float Binary64.number
       [Binary64Inputs.box_A; Binary64Inputs.box_B]) /\
  @Argsort.ascending float Binary64.number
    (@Argsort.keys float Binary64.number
       [Binary64Inputs.box_A; Binary64Inputs.box_B]) [0; 1]%nat /\
  exists kept,
    @Argsort.non_max_suppression_fast float Binary64.number [0; 1]%nat
      [Binary64Inputs.box_A; Binary64Inputs.box_B] 0.5%float = Some kept /\
    forall idxs',
      @Argsort.ascending float Binary64.number
        (@Argsort.keys float Binary64.number kept) idxs' ->
      @Argsort.non_max_suppression_fast float Binary64.number
        idxs' kept 0.5%float = Some kept.
Proof.
  assert (Hties : @Argsort.without_ties float Binary64.number
                    (@Argsort.keys float Binary64.number
                       [Binary64Inputs.box_A; Binary64Inputs.box_B])).
  { repeat constructor. }
  assert (Hasc : @Argsort.ascending float Binary64.number
                   (@Argsort.keys float Binary64.number
                      [Binary64Inputs.box_A; Binary64Inputs.box_B]) [0; 1]%nat).
  { split; [apply Permutation_refl|].
    repeat constructor; vm_compute; reflexivity. }
  split; [exact Hties|]. split; [exact Hasc|].
  destruct non_max_suppression_fast_idempotent_without_ties as [_ Binary64].
  exact (Binary64 [Binary64Inputs.box_A; Binary64Inputs.box_B] 0.5%float
           [0; 1]%nat Hties Hasc).
Defined.

(** With equal keys the second run may change the result.  For the boxes
    P, Q, X and Y, whose keys are 1, 0.9375, 0.75 and 0.75, the order
    3, 2, 1, 0 is ascending and gives P, X and Y; for these three, whose
    keys are 1, 0.75 and 0.75, the order 1, 2, 0 is ascending and gives P
    and Y. *)
Lemma non_max_suppression_fast_twice_on_ties :
  @Argsort.ascending float Binary64.number
    (@Argsort.keys float Binary64.number [TiedBoxes.box_P; TiedBoxes.box_Q; TiedBoxes.box_X; TiedBoxes.box_Y])
    [3; 2; 1; 0]%nat /\
  @Argsort.non_max_suppression_fast float Binary64.number [3; 2; 1; 0]%nat
    [TiedBoxes.box_P; TiedBoxes.box_Q; TiedBoxes.box_X; TiedBoxes.box_Y]
    TiedBoxes.threshold
  = Some [TiedBoxes.box_P; TiedBoxes.box_X; TiedBoxes.box_Y] /\
  @Argsort.ascending float Binary64.number
    (@Argsort.keys float Binary64.number [TiedBoxes.box_P; TiedBoxes.box_X; TiedBoxes.box_Y])
    [1; 2; 0]%nat /\
  @Argsort.non_max_suppression_fast float Binary64.number [1; 2; 0]%nat
    [TiedBoxes.box_P; TiedBoxes.box_X; TiedBoxes.box_Y] TiedBoxes.threshold
  = Some [TiedBoxes.box_P; TiedBoxes.box_Y] /\
  [TiedBoxes.box_P; TiedBoxes.box_X; TiedBoxes.box_Y]
  <> [TiedBoxes.box_P; TiedBoxes.box_Y].
Proof.
  split; [|split; [|split; [|split]]].
  - split.
    + change (seq 0 (length (@Argsort.keys float Binary64.number
                [TiedBoxes.box_P; TiedBoxes.box_Q; TiedBoxes.box_X; TiedBoxes.box_Y])))
        with (rev [3; 2; 1; 0]%nat).
      apply Permutation_rev.
    + repeat constructor; vm_compute; reflexivity.
  - vm_compute. reflexivity.
  - split.
    + symmetry. exact (Permutation_cons_app [1; 2]%nat [] 0%nat (Permutation_refl _)).
    + repeat constructor; vm_compute; reflexivity.
  - vm_compute. reflexivity.
  - discriminate.
Qed.

(* ================================================================= *)
(** * The pinhole entries in every number system *)

Section PinholeEntries.
Context {F : Type} {num : Number F}.
Import Distancing.
Local Open Scope num_scope.

Lemma entry_map {A B : Type} (f : A -> B) (matrix : list (list A)) (i j : nat) :
  entry (map (map f) matrix) i j = option_map f (entry matrix i j).
Proof.
  unfold entry. rewrite nth_error_map.
  destruct (nth_error matrix i) as [row|]; cbn [option_map]; [|reflexivity].
  apply nth_error_map.
Qed.




End PinholeEntries.







(* ================================================================= *)
(** * The shape of the pinhole matrix *)

(** Under the two pinhole methods and in every number system, a matrix
    that [calculate_box_distances] returns has a row for every box and an
    entry for every box in every row, and on its diagonal it holds the
    cast to [np.float32] of 0. *)
Theorem distance_matrix_square_zero_diagonal :
  forall (F : Type) (num : Number F) (dist_method : DistMethod)
         (h_inv : @Distancing.Mat3 F) (nn_out : list (Detection F))
         (matrix : list (list F)),
    dist_method <> CalibratedDistance ->
    Distancing.calculate_box_distances dist_method h_inv nn_out = Some matrix ->
    length matrix = length nn_out /\
    (forall row, In row matrix -> length row = length nn_out) /\
    (forall i, (i < length nn_out)%nat ->
               entry matrix i i = Some (float32 (of_int 0))).
Proof.
  intros F num dist_method h_inv nn_out matrix Hm H.
  unfold Distancing.calculate_box_distances in H.
  assert (Hloops : exists d,
             Distancing.for_each
               (fun i => Distancing.for_each
                           (fun j => Distancing.box_distance dist_method nn_out i j)
                           (seq 0 (length nn_out)))
               (seq 0 (length nn_out)) = Some d /\
             matrix = map (map float32) d).
  { destruct dist_method; [congruence| |];
      (match type of H with
       | match ?loops with _ => _ end = _ => destruct loops as [d|] eqn:Hd
       end;
       [exists d; split; [reflexivity|]; now inversion H|discriminate]). }
  destruct Hloops as [d [Hd ->]].
  destruct (nested_loops_entries _ _ Hd) as [Hrows [Hcols Hentries]].
  split; [now rewrite length_map|]. split.
  - intros row Hrow. apply in_map_iff in Hrow. destruct Hrow as [r [<- Hr]].
    rewrite length_map. now apply Hcols.
  - intros i Hi. destruct (Hentries i i Hi Hi) as [v [Hv He]].
    rewrite entry_map, He. cbn [option_map].
    unfold Distancing.box_distance in Hv. rewrite Nat.eqb_refl in Hv.
    now inversion Hv.
Qed.

(** The boxes A and B in binary64, by their center points. *)
Lemma distance_matrix_square_zero_diagonal_boxes_A_B :
  CenterPointsDistance <> CalibratedDistance /\
  exists matrix,
    @Distancing.calculate_box_distances float Binary64.number CenterPointsDistance
      Binary64Inputs.identity [Binary64Inputs.box_A; Binary64Inputs.box_B]
    = Some matrix /\
    length matrix = 2%nat /\
    (forall row, In row matrix -> length row = 2%nat) /\
    (forall i, (i < 2)%nat ->
               entry matrix i i
               = Some (@float32 float Binary64.number
                         (@of_int float Binary64.number 0))).
Proof.
  assert (Hm : CenterPointsDistance <> CalibratedDistance) by discriminate.
  split; [exact Hm|].
  destruct (@Distancing.calculate_box_distances float Binary64.number
              CenterPointsDistance Binary64Inputs.identity
              [Binary64Inputs.box_A; Binary64Inputs.box_B])
    as [matrix|] eqn:Hrun; [|vm_compute in Hrun; discriminate].
  exists matrix. split; [reflexivity|].
  exact (@distance_matrix_square_zero_diagonal float Binary64.number
           CenterPointsDistance Binary64Inputs.identity
           [Binary64Inputs.box_A; Binary64Inputs.box_B] matrix Hm Hrun).
Defined.
